(** * Exo: the tool execution pipeline, its schema transformers and the rate limiter

    A shallow embedding of [src/core/ExoTool.ts] (the [ExoTool] class) and of
    [src/middleware/index.ts] ([createRateLimiter]), with the properties the
    specification states about them.

    - JavaScript values are a tree type [value]; an object is the list of its
      own enumerable entries in enumeration order, so that [Object.keys],
      the spread [{...o}] and key absence are all visible.
    - User code (the executor, the lifecycle hooks, the interceptors) runs in
      a world [S] that it may read and change; promises are awaited one after
      the other, so a call is a function from the world before to an outcome
      and the world after.
    - An interceptor is a small program that may read and write the world and
      call [next()], any number of times; the pipeline interprets it.
    - The pipeline keeps a ghost trace of every executor and hook invocation,
      which user code can neither read nor write. *)

From Stdlib Require Import ZArith String Ascii List Lia Bool.
From stdpp Require Import base option list gmap strings pretty.

Set Warnings "-register-all".
Local Open Scope string_scope.
Local Open Scope Z_scope.

(** ** JavaScript values *)

Inductive value : Type :=
| VUndefined
| VNull
| VBool (b : bool)
| VNum (n : Z)
| VStr (s : string)
| VArr (elems : list value)
| VObj (fields : list (string * value)).

(** [Record<string, unknown>]: own enumerable entries, in enumeration order. *)
Abbreviation obj := (list (string * value)).

(** [a ?? b] *)
Definition nullish (v : value) : bool :=
  match v with VUndefined | VNull => true | _ => false end.

Definition coalesce (a b : value) : value := if nullish a then b else a.

(** [typeof v === "object" && v !== null] *)
Definition is_object (v : value) : bool :=
  match v with VArr _ | VObj _ => true | _ => false end.

(** JavaScript truthiness (numbers are integers here, so no NaN). *)
Definition truthy (v : value) : bool :=
  match v with
  | VUndefined | VNull => false
  | VBool b => b
  | VNum n => negb (n =? 0)
  | VStr s => negb (String.eqb s EmptyString)
  | VArr _ | VObj _ => true
  end.

(** [o[k]] on an object given by its entries; [undefined] when absent. *)
Fixpoint obj_get (k : string) (o : obj) : value :=
  match o with
  | [] => VUndefined
  | (k', v) :: o' => if String.eqb k' k then v else obj_get k o'
  end.

Fixpoint obj_has (k : string) (o : obj) : bool :=
  match o with
  | [] => false
  | (k', _) :: o' => String.eqb k' k || obj_has k o'
  end.

(** [o[k] = v]: an existing key keeps its place, a new key comes last. *)
Fixpoint obj_set (k : string) (v : value) (o : obj) : obj :=
  match o with
  | [] => [(k, v)]
  | (k', v') :: o' =>
      if String.eqb k' k then (k', v) :: o' else (k', v') :: obj_set k v o'
  end.

(** [Object.keys(o)] *)
Definition obj_keys (o : obj) : list string := map fst o.

(** ** Errors

    Modelled from the spec: the error classes of [src/errors/index.ts] are not
    among the sources at hand; each is represented by the arguments its
    constructor receives at the call sites in [ExoTool]. *)

Record FieldError : Type := { field : string; message : string }.

Inductive exn : Type :=
| ValidationError (msg : string) (fieldErrors : list FieldError) (details : obj)
| RiskViolationError (toolName requiredRole : string)
    (actualRole : option string) (details : obj)
| ConfirmationRequiredError (toolName : string) (pendingArgs : value)
    (details : obj)
| ExecutionError (msg : string) (cause : option exn) (details : obj)
| OtherError (msg : string)      (* any other [Error] instance *)
| NonError (thrown : value).     (* a thrown value that is no [Error] *)

(** [e instanceof Error] *)
Definition instanceof_Error (e : exn) : bool :=
  match e with NonError _ => false | _ => true end.

Definition is_RiskViolation (e : exn) : bool :=
  match e with RiskViolationError _ _ _ _ => true | _ => false end.

Definition is_ConfirmationRequired (e : exn) : bool :=
  match e with ConfirmationRequiredError _ _ _ => true | _ => false end.

Definition is_ValidationError (e : exn) : bool :=
  match e with ValidationError _ _ _ => true | _ => false end.

(** What an awaited call comes back with. *)
Inductive outcome (A : Type) : Type :=
| Returned (a : A)
| Thrown (e : exn).
Arguments Returned {A} a.
Arguments Thrown {A} e.

(** ** The types of [src/types/index.ts] *)

Inductive RiskLevel : Type := LOW | MEDIUM | HIGH.

Definition RiskLevel_eqb (a b : RiskLevel) : bool :=
  match a, b with
  | LOW, LOW | MEDIUM, MEDIUM | HIGH, HIGH => true
  | _, _ => false
  end.

Definition RiskLevel_str (r : RiskLevel) : string :=
  match r with LOW => "LOW" | MEDIUM => "MEDIUM" | HIGH => "HIGH" end.

Record UserInfo : Type := { id : string; role : string }.

Record ExoContext : Type := {
  user : option UserInfo;
  scope : option (list string);
  userId : option string;
  isAdmin : option bool;
  sessionId : option string;
  ctx_metadata : option obj;
}.

(** The default [context = {}]. *)
Definition empty_context : ExoContext :=
  {| user := None; scope := None; userId := None; isAdmin := None;
     sessionId := None; ctx_metadata := None |}.

Record ExecutionOptions : Type := {
  sudo : option bool;
  confirmed : option bool;
}.

(** The default [options = {}]. *)
Definition empty_options : ExecutionOptions :=
  {| sudo := None; confirmed := None |}.

Record ExoExecutionResult : Type := {
  success : bool;
  data : option value;
  error : option string;
  metadata : option obj;
}.

Record ValidationResult : Type := {
  vr_success : bool;
  vr_data : value;
  vr_errors : option (list string);
}.

(** What [schema.safeParse] answers: Zod is outside the repository, a schema
    is the function it computes. A path segment is a key or an index. *)
Inductive PathSegment : Type :=
| PKey (k : string)
| PIndex (i : N).

Record ZodIssue : Type := { path : list PathSegment; issue_message : string }.

Inductive SafeParseResult : Type :=
| ParseSuccess (parsed : value)
| ParseFailure (issues : list ZodIssue).

Inductive HookName : Type := onStart | onSuccess | onError.

Record HookStartPayload : Type := {
  hs_toolName : string; hs_args : value; hs_context : ExoContext }.

Record HookSuccessPayload : Type := {
  hk_toolName : string; hk_result : value; hk_duration : Z;
  hk_context : ExoContext }.

Record HookErrorPayload : Type := {
  he_toolName : string; he_error : exn; he_duration : Z;
  he_context : ExoContext }.

(** ** Strings as JavaScript uses them *)

Fixpoint string_take (n : nat) (s : string) : string :=
  match n, s with
  | O, _ => EmptyString
  | S n', EmptyString => EmptyString
  | S n', String c s' => String c (string_take n' s')
  end.

Fixpoint string_drop (n : nat) (s : string) : string :=
  match n, s with
  | O, _ => s
  | S n', EmptyString => EmptyString
  | S n', String c s' => string_drop n' s'
  end.

(** [s.indexOf(c)] for a one-character [c]: the first index, or -1. *)
Fixpoint indexOf_from (c : ascii) (s : string) (i : Z) : Z :=
  match s with
  | EmptyString => -1
  | String c' s' => if Ascii.eqb c' c then i else indexOf_from c s' (i + 1)
  end.

Definition indexOf (c : ascii) (s : string) : Z := indexOf_from c s 0.

(** [s.substring(a, b)] and [s.substring(a)] for [0 <= a <= b]. *)
Definition substring2 (a b : Z) (s : string) : string :=
  string_take (Z.to_nat (b - a)) (string_drop (Z.to_nat a) s).

Definition substring1 (a : Z) (s : string) : string :=
  string_drop (Z.to_nat a) s.

Definition colon : ascii := ":"%char.
Definition dquote : string := String (ascii_of_nat 34) EmptyString.

(** [String(x)] of a path segment, and [path.join(".")]. *)
Definition segment_str (p : PathSegment) : string :=
  match p with PKey k => k | PIndex i => pretty i end.

Fixpoint join_dot (l : list string) : string :=
  match l with
  | [] => EmptyString
  | [x] => x
  | x :: l' => x +:+ "." +:+ join_dot l'
  end.

(** ** The pipeline *)

Section Pipeline.

(** The world of user code, and its clock [performance.now()]. *)
Context {S : Type}.
Variable performance_now : S -> Z.

(** [String(v)] of a thrown value that is no [Error]; and the messages the
    two policy error classes compute from their arguments. *)
Variable js_String : value -> string.
Variable risk_message : string -> string -> option string -> string.
Variable confirmation_message : string -> string.

Definition exn_message (e : exn) : string :=
  match e with
  | ValidationError m _ _ => m
  | RiskViolationError t r a _ => risk_message t r a
  | ConfirmationRequiredError t _ _ => confirmation_message t
  | ExecutionError m _ _ => m
  | OtherError m => m
  | NonError _ => EmptyString
  end.

(** User code: a function of its arguments and of the world. *)
Definition user_fn (A B : Type) : Type := A -> S -> outcome B * S.

Record ExoHooks : Type := {
  hook_onStart : option (user_fn HookStartPayload unit);
  hook_onSuccess : option (user_fn HookSuccessPayload unit);
  hook_onError : option (user_fn HookErrorPayload unit);
}.

(** An interceptor body, as the tree of what it does to the world and of
    its [await next()] calls; the continuation of [CallNext] receives what
    [next()] came back with, a result or a thrown error it may catch. *)
Inductive MwProg : Type :=
| Finish (o : outcome ExoExecutionResult)
| ReadWorld (k : S -> MwProg)
| WriteWorld (s : S) (k : MwProg)
| CallNext (k : outcome ExoExecutionResult -> MwProg).

Record MiddlewareParams : Type := {
  mp_toolName : string;
  mp_args : value;
  mp_context : ExoContext;
}.

Definition ExoMiddleware : Type := MiddlewareParams -> MwProg.

Record ExoToolConfig : Type := {
  riskLevel : RiskLevel;
  requiresConfirmation : bool;
  timeout : Z;
  retryable : bool;
  maxRetries : Z;
  tags : list string;
  hooks : option ExoHooks;
  middleware : option (list ExoMiddleware);
}.

Record ExoTool : Type := {
  name : string;
  description : string;
  safeParse : value -> SafeParseResult;
  executor : value -> ExoContext -> S -> outcome value * S;
  config : ExoToolConfig;
}.

(** *** The instrumented world *)

Inductive event : Type :=
| EvExecutor (args : value) (context : ExoContext)
| EvHook (h : HookName).

Record world : Type := { w_state : S; w_trace : list event }.

Definition M (A : Type) : Type := world -> outcome A * world.

Definition ret {A} (a : A) : M A := fun w => (Returned a, w).
Definition throw {A} (e : exn) : M A := fun w => (Thrown e, w).
Definition bind {A B} (m : M A) (f : A -> M B) : M B :=
  fun w => match m w with
           | (Returned a, w') => f a w'
           | (Thrown e, w') => (Thrown e, w')
           end.
Definition try_catch {A} (m : M A) (h : exn -> M A) : M A :=
  fun w => match m w with
           | (Returned a, w') => (Returned a, w')
           | (Thrown e, w') => h e w'
           end.
Definition now : M Z := fun w => (Returned (performance_now (w_state w)), w).
Definition log (e : event) : M unit :=
  fun w => (Returned tt, {| w_state := w_state w; w_trace := w_trace w ++ [e] |}).
Definition set_state (s : S) (w : world) : world :=
  {| w_state := s; w_trace := w_trace w |}.
Definition call_user {A B} (f : user_fn A B) (a : A) : M B :=
  fun w => let '(o, s') := f a (w_state w) in (o, set_state s' w).

Notation "x <- m ;; k" := (bind m (fun x => k))
  (at level 100, m at next level, right associativity).
Notation "m ;;; k" := (bind m (fun _ => k))
  (at level 100, right associativity).

(** *** [validate] *)

Definition format_issue (issue : ZodIssue) : string :=
  let path := join_dot (map segment_str (path issue)) in
  if negb (String.eqb path EmptyString)
  then path +:+ ": " +:+ issue_message issue
  else issue_message issue.

Definition validate (t : ExoTool) (args : value) : ValidationResult :=
  match safeParse t args with
  | ParseSuccess d =>
      {| vr_success := true; vr_data := d; vr_errors := None |}
  | ParseFailure issues =>
      {| vr_success := false; vr_data := VUndefined;
         vr_errors := Some (map format_issue issues) |}
  end.

(** *** [safeFireHook] *)

Definition lookup_hook {P} (t : ExoTool)
    (sel : ExoHooks -> option (user_fn P unit)) : option (user_fn P unit) :=
  match hooks (config t) with
  | None => None
  | Some h => sel h
  end.

Definition safeFireHook {P} (hookName : HookName)
    (hook : option (user_fn P unit)) (payload : P) : M unit :=
  match hook with
  | None => ret tt
  | Some h =>
      log (EvHook hookName) ;;;
      try_catch (call_user h payload) (fun _ => ret tt)
  end.

(** *** [_executeCore] *)

Definition to_field_error (errorMsg : string) : FieldError :=
  let colonIndex := indexOf colon errorMsg in
  if 0 <? colonIndex
  then {| field := substring2 0 colonIndex errorMsg;
          message := substring1 (colonIndex + 2) errorMsg |}
  else {| field := "_root"; message := errorMsg |}.

Definition opt_string_eqb (o : option string) (s : string) : bool :=
  match o with Some x => String.eqb x s | None => false end.

Definition opt_true (o : option bool) : bool :=
  match o with Some true => true | _ => false end.

Definition role_value (o : option string) : value :=
  match o with Some r => VStr r | None => VUndefined end.

Definition _executeCore (t : ExoTool) (args : value) (context : ExoContext)
    (options : ExecutionOptions) : M ExoExecutionResult :=
  startTime <- now ;;
  (* Step 1: validate arguments *)
  let validationResult := validate t args in
  if negb (vr_success validationResult) then
    let fieldErrors :=
      map to_field_error (default [] (vr_errors validationResult)) in
    throw (ValidationError
             ("Validation failed for tool " +:+ dquote +:+ name t +:+ dquote)
             fieldErrors [("args", args)])
  else
  (* Step 2: permission check for HIGH risk tools *)
  (if RiskLevel_eqb (riskLevel (config t)) HIGH then
     let userRole := option_map role (user context) in
     let isAdmin := opt_string_eqb userRole "admin"
                    || opt_true (isAdmin context) in
     let hasSudo := opt_true (sudo options) in
     if negb isAdmin && negb hasSudo then
       throw (RiskViolationError (name t) "admin" userRole
                [("args", vr_data validationResult);
                 ("toolName", VStr (name t));
                 ("riskLevel", VStr (RiskLevel_str (riskLevel (config t))))])
     else ret tt
   else ret tt) ;;;
  (* Step 3: confirmation check *)
  (if requiresConfirmation (config t) && negb (opt_true (confirmed options))
   then
     throw (ConfirmationRequiredError (name t) (vr_data validationResult)
              [("toolName", VStr (name t));
               ("riskLevel", VStr (RiskLevel_str (riskLevel (config t))))])
   else ret tt) ;;;
  (* Step 4: fire onStart *)
  safeFireHook onStart (lookup_hook t hook_onStart)
    {| hs_toolName := name t; hs_args := vr_data validationResult;
       hs_context := context |} ;;;
  (* Step 5: execute the tool *)
  try_catch
    (log (EvExecutor (vr_data validationResult) context) ;;;
     data <- call_user (fun a s => executor t a context s)
               (vr_data validationResult) ;;
     endTime <- now ;;
     let duration := endTime - startTime in
     safeFireHook onSuccess (lookup_hook t hook_onSuccess)
       {| hk_toolName := name t; hk_result := data; hk_duration := duration;
          hk_context := context |} ;;;
     ret {| success := true;
            data := Some data;
            error := None;
            metadata := Some [("executionTime", VNum duration);
                              ("toolName", VStr (name t));
                              ("riskLevel",
                               VStr (RiskLevel_str (riskLevel (config t))))] |})
    (fun error =>
       endTime <- now ;;
       let duration := endTime - startTime in
       safeFireHook onError (lookup_hook t hook_onError)
         {| he_toolName := name t;
            he_error := if instanceof_Error error then error
                        else OtherError (js_String
                               match error with NonError v => v | _ => VUndefined end);
            he_duration := duration; he_context := context |} ;;;
       let errorMessage :=
         if instanceof_Error error then exn_message error
         else "Unknown error occurred" in
       throw (ExecutionError
                ("Execution failed for tool " +:+ dquote +:+ name t
                   +:+ dquote +:+ ": " +:+ errorMessage)
                (if instanceof_Error error then Some error else None)
                [("args", vr_data validationResult);
                 ("executionTime", VNum duration);
                 ("toolName", VStr (name t))])).

(** *** [execute] *)

Definition PipelineFn : Type :=
  value -> option ExoContext -> M ExoExecutionResult.

(** Running an interceptor body against the rest of the chain. *)
Fixpoint run_middleware (p : MwProg) (next : M ExoExecutionResult)
    : M ExoExecutionResult :=
  match p with
  | Finish o => fun w => (o, w)
  | ReadWorld k => fun w => run_middleware (k (w_state w)) next w
  | WriteWorld s k => fun w => run_middleware k next (set_state s w)
  | CallNext k => fun w => let '(o, w') := next w in run_middleware (k o) next w'
  end.

Definition execute (t : ExoTool) (args : value) (context : ExoContext)
    (options : ExecutionOptions) : M ExoExecutionResult :=
  let middleware := default [] (middleware (config t)) in
  let startFn : PipelineFn := fun coreArgs coreContext =>
    _executeCore t (coalesce coreArgs args) (default context coreContext)
      options in
  let pipeline : PipelineFn :=
    fold_right
      (fun (mw : ExoMiddleware) (next : PipelineFn) =>
         fun pipelineArgs pipelineContext =>
           run_middleware
             (mw {| mp_toolName := name t;
                    mp_args := coalesce pipelineArgs args;
                    mp_context := default context pipelineContext |})
             (next pipelineArgs pipelineContext))
      startFn middleware in
  pipeline args (Some context).

(** *** Interceptors of the logging kind

    [async (params) => { pre; const result = await next(); post; return result; }]
    with [pre] and [post] acting on the world: the interceptors of the
    ordering test. A thrown [next()] is not caught, so [post] is skipped. *)

Definition onion (pre post : MiddlewareParams -> S -> S) : ExoMiddleware :=
  fun p =>
    ReadWorld (fun s =>
    WriteWorld (pre p s)
    (CallNext (fun o =>
       match o with
       | Returned result =>
           ReadWorld (fun s' =>
           WriteWorld (post p s') (Finish (Returned result)))
       | Thrown e => Finish (Thrown e)
       end))).

Definition phases : Type :=
  ((MiddlewareParams -> S -> S) * (MiddlewareParams -> S -> S))%type.

Definition onions (ps : list phases) : list ExoMiddleware :=
  map (fun ph => onion (fst ph) (snd ph)) ps.

(** All pre-phases, outermost first; all post-phases, innermost first. *)
Definition pre_phase (p : MiddlewareParams) (ps : list phases) (w : world)
    : world :=
  fold_left (fun w ph => set_state (fst ph p (w_state w)) w) ps w.

Definition post_phase (p : MiddlewareParams) (ps : list phases) (w : world)
    : world :=
  fold_right (fun ph w => set_state (snd ph p (w_state w)) w) w ps.

(** An interceptor body that never reaches [next()]. *)
Fixpoint never_calls_next (p : MwProg) : Prop :=
  match p with
  | Finish _ => True
  | ReadWorld k => forall s, never_calls_next (k s)
  | WriteWorld _ k => never_calls_next k
  | CallNext _ => False
  end.

(** The tool with another list of interceptors, executor or hooks. *)
Definition with_middleware (t : ExoTool) (ms : option (list ExoMiddleware))
    : ExoTool :=
  {| name := name t; description := description t; safeParse := safeParse t;
     executor := executor t;
     config := {| riskLevel := riskLevel (config t);
                  requiresConfirmation := requiresConfirmation (config t);
                  timeout := timeout (config t);
                  retryable := retryable (config t);
                  maxRetries := maxRetries (config t);
                  tags := tags (config t);
                  hooks := hooks (config t);
                  middleware := ms |} |}.

Definition with_executor (t : ExoTool)
    (f : value -> ExoContext -> S -> outcome value * S) : ExoTool :=
  {| name := name t; description := description t; safeParse := safeParse t;
     executor := f; config := config t |}.

Definition with_hooks (t : ExoTool) (h : option ExoHooks) : ExoTool :=
  {| name := name t; description := description t; safeParse := safeParse t;
     executor := executor t;
     config := {| riskLevel := riskLevel (config t);
                  requiresConfirmation := requiresConfirmation (config t);
                  timeout := timeout (config t);
                  retryable := retryable (config t);
                  maxRetries := maxRetries (config t);
                  tags := tags (config t);
                  hooks := h;
                  middleware := middleware (config t) |} |}.

(** The three conditions under which the role gate of a HIGH risk tool
    refuses, and the error it throws. *)
Definition role_gate_refuses (context : ExoContext)
    (options : ExecutionOptions) : Prop :=
  option_map role (user context) <> Some "admin"
  /\ isAdmin context <> Some true
  /\ sudo options <> Some true.

Definition the_risk_violation (t : ExoTool) (parsed : value)
    (context : ExoContext) : exn :=
  RiskViolationError (name t) "admin" (option_map role (user context))
    [("args", parsed); ("toolName", VStr (name t));
     ("riskLevel", VStr (RiskLevel_str (riskLevel (config t))))].

Definition the_confirmation_required (t : ExoTool) (parsed : value) : exn :=
  ConfirmationRequiredError (name t) parsed
    [("toolName", VStr (name t));
     ("riskLevel", VStr (RiskLevel_str (riskLevel (config t))))].

Definition params_of (t : ExoTool) (args : value) (context : ExoContext)
    : MiddlewareParams :=
  {| mp_toolName := name t; mp_args := args; mp_context := context |}.

(** *** Basic facts *)

Lemma coalesce_self (a : value) : coalesce a a = a.
Proof. unfold coalesce. destruct (nullish a); reflexivity. Qed.

Lemma opt_string_eqb_true (o : option string) (s : string) :
  opt_string_eqb o s = true <-> o = Some s.
Proof.
  destruct o as [x|]; simpl; [|split; discriminate].
  rewrite String.eqb_eq. split; congruence.
Qed.

Lemma opt_true_true (o : option bool) : opt_true o = true <-> o = Some true.
Proof. destruct o as [[|]|]; simpl; split; congruence. Qed.

Lemma role_gate_refuses_spec (context : ExoContext)
    (options : ExecutionOptions) :
  role_gate_refuses context options <->
  negb (opt_string_eqb (option_map role (user context)) "admin"
        || opt_true (isAdmin context))
  && negb (opt_true (sudo options)) = true.
Proof.
  unfold role_gate_refuses.
  rewrite andb_true_iff, !negb_true_iff, orb_false_iff.
  rewrite <- !not_true_iff_false, opt_string_eqb_true, !opt_true_true.
  tauto.
Qed.

Lemma pre_phase_trace p ps w : w_trace (pre_phase p ps w) = w_trace w.
Proof.
  revert w. induction ps as [|ph ps IH]; intros w; [reflexivity|].
  change (pre_phase p (ph :: ps) w)
    with (pre_phase p ps (set_state (fst ph p (w_state w)) w)).
  rewrite IH. reflexivity.
Qed.

Lemma post_phase_trace p ps w : w_trace (post_phase p ps w) = w_trace w.
Proof. induction ps as [|ph ps IH]; simpl; [reflexivity|]. exact IH. Qed.

(** The chain [execute] builds, as a function of the interceptor list. *)
Definition chain (t : ExoTool) (args : value) (context : ExoContext)
    (options : ExecutionOptions) (ms : list ExoMiddleware) : PipelineFn :=
  fold_right
    (fun (mw : ExoMiddleware) (next : PipelineFn) =>
       fun pipelineArgs pipelineContext =>
         run_middleware
           (mw {| mp_toolName := name t;
                  mp_args := coalesce pipelineArgs args;
                  mp_context := default context pipelineContext |})
           (next pipelineArgs pipelineContext))
    (fun coreArgs coreContext =>
       _executeCore t (coalesce coreArgs args) (default context coreContext)
         options)
    ms.

Lemma execute_chain t args context options :
  execute t args context options =
  chain t args context options (default [] (middleware (config t)))
    args (Some context).
Proof. reflexivity. Qed.

Lemma chain_nil t args context options :
  chain t args context options [] args (Some context) =
  _executeCore t args context options.
Proof. simpl. rewrite coalesce_self. reflexivity. Qed.

Lemma chain_cons t args context options m ms :
  chain t args context options (m :: ms) args (Some context) =
  run_middleware (m (params_of t args context))
    (chain t args context options ms args (Some context)).
Proof. simpl. rewrite coalesce_self. reflexivity. Qed.

Lemma run_onion pre post p (next : M ExoExecutionResult) w :
  run_middleware (onion pre post p) next w =
  match next (set_state (pre p (w_state w)) w) with
  | (Returned r, w') => (Returned r, set_state (post p (w_state w')) w')
  | (Thrown e, w') => (Thrown e, w')
  end.
Proof.
  simpl. destruct (next _) as [[r|e] w']; reflexivity.
Qed.

Lemma chain_onions t args context options ps (rest : list ExoMiddleware) w :
  chain t args context options (onions ps ++ rest) args (Some context) w =
  let p := params_of t args context in
  match chain t args context options rest args (Some context)
          (pre_phase p ps w) with
  | (Returned r, w') => (Returned r, post_phase p ps w')
  | (Thrown e, w') => (Thrown e, w')
  end.
Proof.
  revert w. induction ps as [|[pre post] ps IH]; intros w.
  - simpl. destruct (chain _ _ _ _ _ _ _ _) as [[r|e] w']; reflexivity.
  - change (onions ((pre, post) :: ps) ++ rest)%list
      with (onion pre post :: (onions ps ++ rest)%list).
    rewrite chain_cons, run_onion, IH. simpl.
    destruct (chain _ _ _ _ rest _ _ _) as [[r|e] w']; reflexivity.
Qed.

Lemma run_never_calls_next p (next next' : M ExoExecutionResult) w :
  never_calls_next p -> run_middleware p next w = run_middleware p next' w.
Proof.
  revert w. induction p as [o|k IH|s k IH|k IH]; intros w Hp; simpl in *.
  - reflexivity.
  - apply IH, Hp.
  - apply IH, Hp.
  - destruct Hp.
Qed.

(** *** Hooks that differ only in how they end *)

(** The hook with the same effect on the world that returns normally. *)
Definition mute {P} (h : user_fn P unit) : user_fn P unit :=
  fun payload s => (Returned tt, snd (h payload s)).

Definition mute_hooks (h : ExoHooks) : ExoHooks :=
  {| hook_onStart := option_map mute (hook_onStart h);
     hook_onSuccess := option_map mute (hook_onSuccess h);
     hook_onError := option_map mute (hook_onError h) |}.

(** A hook slot that is empty, or whose hook leaves the world as it is
    (it may still return or throw). *)
Definition silent {P} (h : option (user_fn P unit)) : Prop :=
  forall f, h = Some f -> forall payload s, snd (f payload s) = s.

Definition silent_hooks (h : option ExoHooks) : Prop :=
  forall hs, h = Some hs ->
    silent (hook_onStart hs) /\ silent (hook_onSuccess hs)
    /\ silent (hook_onError hs).

(** Two runs that agree on the outcome and on the world of user code. *)
Definition same_run {A} (x y : outcome A * world) : Prop :=
  fst x = fst y /\ w_state (snd x) = w_state (snd y).

(** *** The gates of [_executeCore] *)

Ltac core_unfold :=
  unfold _executeCore, validate, bind, try_catch, now, ret, throw.

Lemma core_validation_failure t args context options issues w :
  safeParse t args = ParseFailure issues ->
  _executeCore t args context options w =
  (Thrown (ValidationError
             ("Validation failed for tool " +:+ dquote +:+ name t +:+ dquote)
             (map to_field_error (map format_issue issues))
             [("args", args)]), w).
Proof. intros Hp. core_unfold. rewrite Hp. reflexivity. Qed.

Lemma core_risk_refused t args context options parsed w :
  riskLevel (config t) = HIGH ->
  safeParse t args = ParseSuccess parsed ->
  role_gate_refuses context options ->
  _executeCore t args context options w =
  (Thrown (the_risk_violation t parsed context), w).
Proof.
  intros Hr Hp Hg. apply role_gate_refuses_spec in Hg.
  core_unfold. rewrite Hp, Hr. simpl. rewrite Hg.
  unfold the_risk_violation. rewrite Hr. reflexivity.
Qed.

Lemma core_confirmation_required t args context options parsed w :
  safeParse t args = ParseSuccess parsed ->
  (riskLevel (config t) = HIGH -> ~ role_gate_refuses context options) ->
  requiresConfirmation (config t) = true ->
  confirmed options <> Some true ->
  _executeCore t args context options w =
  (Thrown (the_confirmation_required t parsed), w).
Proof.
  intros Hp Hg Hc Hn.
  assert (Hn' : opt_true (confirmed options) = false).
  { apply not_true_iff_false. rewrite opt_true_true. exact Hn. }
  core_unfold. rewrite Hp, Hc, Hn'. simpl.
  destruct (RiskLevel_eqb (riskLevel (config t)) HIGH) eqn:Hr; [|reflexivity].
  assert (Hh : riskLevel (config t) = HIGH)
    by (destruct (riskLevel (config t)); simpl in Hr; congruence).
  specialize (Hg Hh). rewrite role_gate_refuses_spec in Hg.
  apply not_true_is_false in Hg. rewrite Hg. reflexivity.
Qed.

Lemma safeFireHook_returns {P} h (hook : option (user_fn P unit)) payload w :
  exists w', safeFireHook h hook payload w = (Returned tt, w').
Proof.
  destruct hook as [f|]; simpl; [|eexists; reflexivity].
  unfold bind, try_catch, log, call_user, ret. simpl.
  destruct (f payload (w_state w)) as [[[]|e] s']; eexists; reflexivity.
Qed.

(** Whatever [_executeCore] throws is one of its own four errors; the only
    place a [RiskViolationError] is built is the role gate of a HIGH tool. *)
Lemma core_throws_risk_only_when_high t args context options w e w' :
  _executeCore t args context options w = (Thrown e, w') ->
  is_RiskViolation e = true ->
  riskLevel (config t) = HIGH.
Proof.
  core_unfold.
  destruct (safeParse t args) as [parsed|issues]; simpl;
    [|intros [= <- <-]; discriminate].
  destruct (riskLevel (config t)) eqn:Hr; simpl; try reflexivity.
  all: destruct (requiresConfirmation (config t)
                 && negb (opt_true (confirmed options))); simpl;
    [intros [= <- <-]; discriminate|].
  all: match goal with
       | |- context [safeFireHook ?h ?k ?p ?w0] =>
           destruct (safeFireHook_returns h k p w0) as [w1 ->]
       end.
  all: unfold log, call_user; simpl.
  all: destruct (executor t parsed context (w_state w1)) as [[d|err] s1].
  all: try (match goal with
       | |- context [safeFireHook ?h ?k ?p ?w0] =>
           destruct (safeFireHook_returns h k p w0) as [w2 ->]
       end; intros [= <- <-]; discriminate).
Qed.

(** C1: on a HIGH risk tool whose arguments validate, a caller that is no
    admin and has no sudo gets the [RiskViolationError], thrown before the
    executor or any hook ran (the ghost trace is unchanged), also through
    interceptors that pass [next()] on; and a tool that is not HIGH never
    throws a [RiskViolationError], whatever the context and options. *)
Theorem C1_risk_gate (t : ExoTool) (args : value) (context : ExoContext)
    (options : ExecutionOptions) (ps : list phases) (w : world) :
  default [] (middleware (config t)) = onions ps ->
  (riskLevel (config t) = HIGH ->
   forall parsed, safeParse t args = ParseSuccess parsed ->
   role_gate_refuses context options ->
   exists w',
     execute t args context options w
     = (Thrown (the_risk_violation t parsed context), w')
     /\ w_trace w' = w_trace w)
  /\ (riskLevel (config t) <> HIGH ->
      forall e w', execute t args context options w = (Thrown e, w') ->
                   is_RiskViolation e = false).
Proof.
  intros Hm. rewrite execute_chain, Hm.
  rewrite <- (app_nil_r (onions ps)), chain_onions, chain_nil. cbv zeta.
  split.
  - intros Hr parsed Hp Hg.
    rewrite (core_risk_refused _ _ _ _ parsed) by assumption.
    eexists. split; [reflexivity|]. apply pre_phase_trace.
  - intros Hr e w'.
    destruct (_executeCore _ _ _ _ _) as [[r|e0] w0] eqn:Hc;
      intros [= <- <-].
    destruct (is_RiskViolation e0) eqn:He; [|reflexivity].
    exfalso. apply Hr. eapply core_throws_risk_only_when_high; eassumption.
Qed.

(** C2: a tool that requires confirmation, called with validating arguments
    and without [confirmed: true], throws the [ConfirmationRequiredError]
    once the role gate has passed, whatever its risk level, before the
    executor or any hook ran; when the role gate of a HIGH tool refuses, the
    error is the [RiskViolationError] instead. *)
Theorem C2_confirmation_gate (t : ExoTool) (args parsed : value)
    (context : ExoContext) (options : ExecutionOptions) (ps : list phases)
    (w : world) :
  default [] (middleware (config t)) = onions ps ->
  safeParse t args = ParseSuccess parsed ->
  requiresConfirmation (config t) = true ->
  confirmed options <> Some true ->
  ((riskLevel (config t) = HIGH -> ~ role_gate_refuses context options) ->
   exists w',
     execute t args context options w
     = (Thrown (the_confirmation_required t parsed), w')
     /\ w_trace w' = w_trace w)
  /\ (riskLevel (config t) = HIGH -> role_gate_refuses context options ->
      exists w',
        execute t args context options w
        = (Thrown (the_risk_violation t parsed context), w')
        /\ w_trace w' = w_trace w).
Proof.
  intros Hm Hp Hc Hn. rewrite execute_chain, Hm.
  rewrite <- (app_nil_r (onions ps)), chain_onions, chain_nil. cbv zeta.
  split.
  - intros Hg.
    rewrite (core_confirmation_required _ _ _ _ parsed) by assumption.
    eexists. split; [reflexivity|]. apply pre_phase_trace.
  - intros Hr Hg.
    rewrite (core_risk_refused _ _ _ _ parsed) by assumption.
    eexists. split; [reflexivity|]. apply pre_phase_trace.
Qed.

(** *** Short-circuit and ordering *)

Lemma run_never_calls_next_trace p (next : M ExoExecutionResult) w :
  never_calls_next p -> w_trace (snd (run_middleware p next w)) = w_trace w.
Proof.
  revert w. induction p as [o|k IH|s k IH|k IH]; intros w Hp; simpl in *.
  - reflexivity.
  - apply IH, Hp.
  - rewrite IH by exact Hp. reflexivity.
  - destruct Hp.
Qed.

(** C3: an interceptor that returns without calling [next()] decides the
    call: the executor and the inner interceptors do not run (the ghost
    trace is unchanged and the run does not depend on them), and what it
    returned is the result of [execute], handed back unchanged through the
    post-phases of the outer interceptors. *)
Theorem C3_short_circuit (t : ExoTool) (args : value) (context : ExoContext)
    (options : ExecutionOptions) (outer : list phases)
    (blocker : ExoMiddleware) (inner : list ExoMiddleware) (w : world) :
  default [] (middleware (config t)) = (onions outer ++ blocker :: inner)%list ->
  never_calls_next (blocker (params_of t args context)) ->
  let p := params_of t args context in
  exists o w2,
    (forall next, run_middleware (blocker p) next (pre_phase p outer w)
                  = (o, w2))
    /\ w_trace w2 = w_trace w
    /\ execute t args context options w
       = match o with
         | Returned r => (Returned r, post_phase p outer w2)
         | Thrown e => (Thrown e, w2)
         end
    /\ forall inner' executor',
         execute (with_executor
                    (with_middleware t
                       (Some (onions outer ++ blocker :: inner')%list))
                    executor')
           args context options w
         = execute t args context options w.
Proof.
  intros Hm Hb p.
  destruct (run_middleware (blocker p) (ret {| success := false; data := None;
              error := None; metadata := None |}) (pre_phase p outer w))
    as [o w2] eqn:Hrun.
  assert (Hany : forall next,
             run_middleware (blocker p) next (pre_phase p outer w) = (o, w2)).
  { intros next. rewrite <- Hrun. apply run_never_calls_next, Hb. }
  exists o, w2. split; [exact Hany|]. split.
  - pose proof (run_never_calls_next_trace (blocker p)
                  (ret {| success := false; data := None; error := None;
                          metadata := None |}) (pre_phase p outer w) Hb) as Ht.
    rewrite Hrun in Ht. simpl in Ht. rewrite Ht. apply pre_phase_trace.
  - assert (He : forall t0 inner0,
               name t0 = name t ->
               chain t0 args context options
                 (onions outer ++ blocker :: inner0) args (Some context) w
               = match o with
                 | Returned r => (Returned r, post_phase p outer w2)
                 | Thrown e => (Thrown e, w2)
                 end).
    { intros t0 inner0 Hn. rewrite chain_onions. cbv zeta.
      rewrite chain_cons.
      replace (params_of t0 args context) with p
        by (unfold p, params_of; rewrite Hn; reflexivity).
      rewrite Hany. destruct o; reflexivity. }
    split.
    + rewrite execute_chain, Hm. apply He. reflexivity.
    + intros inner' executor'.
      rewrite (execute_chain t), Hm, (He t inner eq_refl).
      rewrite execute_chain. simpl middleware. simpl default.
      apply He. reflexivity.
Qed.

(** C4: the chain is an onion. Each interceptor receives the tool name and
    the very [args] and [context] given to [execute], and its [next()] is
    the rest of the chain on those same values; with interceptors of the
    logging kind, a call whose core returns runs the pre-phases outermost
    first, then the core, then the post-phases innermost first. *)
Theorem C4_onion_order (t : ExoTool) (args : value) (context : ExoContext)
    (options : ExecutionOptions) :
  (forall m ms w,
      default [] (middleware (config t)) = m :: ms ->
      execute t args context options w
      = run_middleware (m (params_of t args context))
          (execute (with_middleware t (Some ms)) args context options) w)
  /\ (forall ps w r w',
        default [] (middleware (config t)) = onions ps ->
        _executeCore t args context options
          (pre_phase (params_of t args context) ps w) = (Returned r, w') ->
        execute t args context options w
        = (Returned r, post_phase (params_of t args context) ps w')).
Proof.
  split.
  - intros m ms w Hm. rewrite execute_chain, Hm, chain_cons. reflexivity.
  - intros ps w r w' Hm Hc. rewrite execute_chain, Hm.
    rewrite <- (app_nil_r (onions ps)), chain_onions, chain_nil. cbv zeta.
    rewrite Hc. reflexivity.
Qed.

(** *** Runs related world by world

    [R] relates the worlds of two runs; the two instances below are
    equality, and agreement on the world of user code (the ghost traces
    may differ). *)

Record world_rel (R : world -> world -> Prop) : Prop := {
  rel_state : forall w1 w2, R w1 w2 -> w_state w1 = w_state w2;
  rel_set : forall s w1 w2, R w1 w2 -> R (set_state s w1) (set_state s w2);
}.

Definition related {A} (R : world -> world -> Prop) (m m' : M A) : Prop :=
  forall w1 w2, R w1 w2 ->
    fst (m w1) = fst (m' w2) /\ R (snd (m w1)) (snd (m' w2)).

Lemma world_rel_eq : world_rel eq.
Proof. split; intros; subst; reflexivity. Qed.

Lemma world_rel_state :
  world_rel (fun w1 w2 => w_state w1 = w_state w2).
Proof. split; intros; simpl; auto. Qed.

Section Related.
Variable R : world -> world -> Prop.
Hypothesis HR : world_rel R.

Lemma related_ret {A} (a : A) : related R (ret a) (ret a).
Proof. intros w1 w2 H. split; [reflexivity|exact H]. Qed.

Lemma related_throw {A} e : related R (@throw A e) (throw e).
Proof. intros w1 w2 H. split; [reflexivity|exact H]. Qed.

Lemma related_now : related R now now.
Proof.
  intros w1 w2 H. unfold now. simpl.
  rewrite (rel_state R HR _ _ H). split; [reflexivity|exact H].
Qed.

Lemma related_call_user {A B} (f : user_fn A B) a :
  related R (call_user f a) (call_user f a).
Proof.
  intros w1 w2 H. unfold call_user.
  rewrite (rel_state R HR _ _ H).
  destruct (f a (w_state w2)) as [o s']. simpl.
  split; [reflexivity|]. apply (rel_set R HR), H.
Qed.

Lemma related_bind {A B} (m m' : M A) (f f' : A -> M B) :
  related R m m' -> (forall a, related R (f a) (f' a)) ->
  related R (bind m f) (bind m' f').
Proof.
  intros Hm Hf w1 w2 H. unfold bind. specialize (Hm w1 w2 H).
  destruct (m w1) as [[a|e] w1'], (m' w2) as [[a'|e'] w2'];
    simpl in Hm; destruct Hm as [Ho Hw]; try discriminate.
  - injection Ho as ->. apply Hf, Hw.
  - injection Ho as ->. split; [reflexivity|exact Hw].
Qed.

Lemma related_try_catch {A} (m m' : M A) (h h' : exn -> M A) :
  related R m m' -> (forall e, related R (h e) (h' e)) ->
  related R (try_catch m h) (try_catch m' h').
Proof.
  intros Hm Hh w1 w2 H. unfold try_catch. specialize (Hm w1 w2 H).
  destruct (m w1) as [[a|e] w1'], (m' w2) as [[a'|e'] w2'];
    simpl in Hm; destruct Hm as [Ho Hw]; try discriminate.
  - injection Ho as ->. split; [reflexivity|exact Hw].
  - injection Ho as ->. apply Hh, Hw.
Qed.

Lemma related_run_middleware p (next next' : M ExoExecutionResult) :
  related R next next' ->
  related R (run_middleware p next) (run_middleware p next').
Proof.
  intros Hn. induction p as [o|k IH|s k IH|k IH]; intros w1 w2 H; simpl.
  - split; [reflexivity|exact H].
  - rewrite (rel_state R HR _ _ H). apply IH, H.
  - apply IH, (rel_set R HR), H.
  - specialize (Hn w1 w2 H).
    destruct (next w1) as [o1 w1'], (next' w2) as [o2 w2'].
    simpl in Hn. destruct Hn as [-> Hw]. apply IH, Hw.
Qed.

(** Two tools that differ in their hooks only, with hook dispatches that
    are related, have related cores and related chains. *)
Variable t : ExoTool.
Variable h' : option ExoHooks.
Hypothesis Hlog : forall e, related R (log e) (log e).
Hypothesis Hstart : forall payload,
  related R (safeFireHook onStart (lookup_hook t hook_onStart) payload)
    (safeFireHook onStart (lookup_hook (with_hooks t h') hook_onStart)
       payload).
Hypothesis Hsuccess : forall payload,
  related R (safeFireHook onSuccess (lookup_hook t hook_onSuccess) payload)
    (safeFireHook onSuccess (lookup_hook (with_hooks t h') hook_onSuccess)
       payload).
Hypothesis Herror : forall payload,
  related R (safeFireHook onError (lookup_hook t hook_onError) payload)
    (safeFireHook onError (lookup_hook (with_hooks t h') hook_onError)
       payload).

Lemma related_core args context options :
  related R (_executeCore t args context options)
    (_executeCore (with_hooks t h') args context options).
Proof.
  unfold _executeCore.
  change (validate (with_hooks t h') args) with (validate t args).
  cbn [name safeParse executor config riskLevel requiresConfirmation
       with_hooks].
  apply related_bind; [apply related_now|]. intros startTime.
  destruct (negb (vr_success (validate t args)));
    [apply related_throw|].
  apply related_bind.
  { destruct (RiskLevel_eqb _ _); [|apply related_ret].
    destruct (_ && _); [apply related_throw|apply related_ret]. }
  intros _. apply related_bind.
  { destruct (_ && _); [apply related_throw|apply related_ret]. }
  intros _. apply related_bind; [apply Hstart|]. intros _.
  apply related_try_catch.
  - apply related_bind; [apply Hlog|]. intros _.
    apply related_bind; [apply related_call_user|]. intros d.
    apply related_bind; [apply related_now|]. intros endTime.
    apply related_bind; [apply Hsuccess|]. intros _.
    apply related_ret.
  - intros e. apply related_bind; [apply related_now|]. intros endTime.
    apply related_bind; [apply Herror|]. intros _.
    apply related_throw.
Qed.

Lemma related_chain args context options ms a c :
  related R (chain t args context options ms a c)
    (chain (with_hooks t h') args context options ms a c).
Proof.
  revert a c. induction ms as [|m ms IH]; intros a c.
  - apply related_core.
  - apply related_run_middleware, IH.
Qed.

End Related.

Lemma safeFireHook_mute {P} h (f : user_fn P unit) payload w :
  safeFireHook h (Some (mute f)) payload w = safeFireHook h (Some f) payload w.
Proof.
  unfold safeFireHook, bind, try_catch, log, call_user, mute, ret. simpl.
  destruct (f payload (w_state w)) as [[[]|e] s']; reflexivity.
Qed.

Lemma related_eq_refl {A} (m m' : M A) :
  (forall w, m w = m' w) -> related eq m m'.
Proof. intros H w1 w2 <-. rewrite H. split; reflexivity. Qed.

Lemma related_eq_run {A} (m m' : M A) w : related eq m m' -> m w = m' w.
Proof.
  intros H. destruct (H w w eq_refl) as [H1 H2].
  destruct (m w), (m' w). simpl in *. congruence.
Qed.

Lemma safeFireHook_silent {P} h (k k' : option (user_fn P unit)) payload :
  silent k -> silent k' ->
  related (fun w1 w2 => w_state w1 = w_state w2)
    (safeFireHook h k payload) (safeFireHook h k' payload).
Proof.
  intros Hk Hk' w1 w2 H.
  assert (Hone : forall (k0 : option (user_fn P unit)) w, silent k0 ->
             fst (safeFireHook h k0 payload w) = Returned tt
             /\ w_state (snd (safeFireHook h k0 payload w)) = w_state w).
  { intros [f|] w Hs; simpl; [|split; reflexivity].
    unfold bind, try_catch, log, call_user, ret. simpl.
    specialize (Hs f eq_refl payload (w_state w)).
    destruct (f payload (w_state w)) as [[[]|e] s']; simpl in *;
      subst; split; reflexivity. }
  destruct (Hone k w1 Hk) as [-> ->], (Hone k' w2 Hk') as [-> ->].
  split; [reflexivity|exact H].
Qed.

(** C5: how a hook ends (returning, throwing, rejecting) does not change
    the run of [execute], which is the run with the hooks made to return
    normally, so no hook error is ever thrown by [execute]; and a hook whose
    only doing is to throw leaves the outcome and the world of user code as
    they are without it. *)
Theorem C5_hook_isolation (t : ExoTool) (args : value) (context : ExoContext)
    (options : ExecutionOptions) (w : world) :
  execute (with_hooks t (option_map mute_hooks (hooks (config t))))
    args context options w
  = execute t args context options w
  /\ (forall h', silent_hooks (hooks (config t)) -> silent_hooks h' ->
        same_run (execute (with_hooks t h') args context options w)
                 (execute t args context options w)).
Proof.
  split.
  - symmetry. rewrite !execute_chain. apply related_eq_run.
    apply (related_chain eq world_rel_eq).
    + intros e. apply related_eq_refl. reflexivity.
    + intros payload. apply related_eq_refl. intros w0.
      unfold lookup_hook. simpl. destruct (hooks (config t)) as [hs|];
        [|reflexivity]. simpl.
      destruct (hook_onStart hs); [|reflexivity]. simpl.
      symmetry. apply safeFireHook_mute.
    + intros payload. apply related_eq_refl. intros w0.
      unfold lookup_hook. simpl. destruct (hooks (config t)) as [hs|];
        [|reflexivity]. simpl.
      destruct (hook_onSuccess hs); [|reflexivity]. simpl.
      symmetry. apply safeFireHook_mute.
    + intros payload. apply related_eq_refl. intros w0.
      unfold lookup_hook. simpl. destruct (hooks (config t)) as [hs|];
        [|reflexivity]. simpl.
      destruct (hook_onError hs); [|reflexivity]. simpl.
      symmetry. apply safeFireHook_mute.
  - intros h' Ht Hh'. unfold same_run. rewrite !execute_chain.
    assert (Hsel : forall P (sel : ExoHooks -> option (user_fn P unit))
                     (ho : option ExoHooks),
               silent_hooks ho ->
               (forall hs, ho = Some hs ->
                  silent (hook_onStart hs) /\ silent (hook_onSuccess hs)
                  /\ silent (hook_onError hs) -> silent (sel hs)) ->
               silent (match ho with None => None | Some hs => sel hs end)).
    { intros P sel [hs|] Hs Hc; [|intros f; discriminate].
      apply (Hc hs eq_refl), Hs. reflexivity. }
    pose proof (related_chain (fun w1 w2 => w_state w1 = w_state w2)
                  world_rel_state t h') as Hrel.
    destruct (Hrel) with (args := args) (context := context)
      (options := options) (ms := default [] (middleware (config t)))
      (a := args) (c := Some context) (w1 := w) (w2 := w) as [Ho Hw];
      try reflexivity.
    + intros e w1 w2 H. split; [reflexivity|exact H].
    + intros payload. apply safeFireHook_silent; unfold lookup_hook.
      * apply Hsel; [exact Ht|]. intros hs _ H. apply H.
      * apply (Hsel _ hook_onStart h'); [exact Hh'|]. intros hs _ H. apply H.
    + intros payload. apply safeFireHook_silent; unfold lookup_hook.
      * apply Hsel; [exact Ht|]. intros hs _ H. apply H.
      * apply (Hsel _ hook_onSuccess h'); [exact Hh'|]. intros hs _ H. apply H.
    + intros payload. apply safeFireHook_silent; unfold lookup_hook.
      * apply Hsel; [exact Ht|]. intros hs _ H. apply H.
      * apply (Hsel _ hook_onError h'); [exact Hh'|]. intros hs _ H. apply H.
    + split; [symmetry; exact Ho|symmetry; exact Hw].
Qed.

End Pipeline.

(** ** The pipeline on the tools of the test suite

    The world is a log of strings, as [executionOrder] in the ordering test;
    the clock reads its length. *)

Module Demo.

Definition World : Type := list string.
Definition clock (s : World) : Z := Z.of_nat (length s).
Definition render (v : value) : string := "[thrown]".
Definition riskMsg (t r : string) (a : option string) : string :=
  "Tool " +:+ t +:+ " requires role " +:+ r.
Definition confirmMsg (t : string) : string :=
  "Tool " +:+ t +:+ " requires confirmation".

Definition run_execute := @execute World clock render riskMsg confirmMsg.
Definition run_core := @_executeCore World clock render riskMsg confirmMsg.

Definition say (line : string) : MiddlewareParams -> World -> World :=
  fun _ s => (s ++ [line])%list.

(** [z.object({ value: z.string() })] *)
Definition valueSchema (args : value) : SafeParseResult :=
  match args with
  | VObj o =>
      match obj_get "value" o with
      | VStr v => ParseSuccess (VObj [("value", VStr v)])
      | VUndefined =>
          ParseFailure [{| path := [PKey "value"]; issue_message := "Required" |}]
      | _ => ParseFailure [{| path := [PKey "value"];
                              issue_message := "Expected string" |}]
      end
  | _ => ParseFailure [{| path := []; issue_message := "Expected object" |}]
  end.

Definition defaultConfig : @ExoToolConfig World :=
  {| riskLevel := LOW; requiresConfirmation := false; timeout := 0;
     retryable := true; maxRetries := 3; tags := []; hooks := None;
     middleware := Some [] |}.

Definition echoTool : @ExoTool World :=
  {| name := "echo"; description := "Echoes the input.";
     safeParse := valueSchema;
     executor := fun a _ s => (Returned a, (s ++ ["executor"])%list);
     config := defaultConfig |}.

Definition with_config (t : @ExoTool World) (c : @ExoToolConfig World)
    : @ExoTool World :=
  {| name := name t; description := description t; safeParse := safeParse t;
     executor := executor t; config := c |}.

Definition nukeTool : @ExoTool World :=
  with_config echoTool
    {| riskLevel := HIGH; requiresConfirmation := true; timeout := 0;
       retryable := true; maxRetries := 3; tags := []; hooks := None;
       middleware := None |}.

Definition transferTool : @ExoTool World :=
  with_config echoTool
    {| riskLevel := MEDIUM; requiresConfirmation := true; timeout := 0;
       retryable := true; maxRetries := 3; tags := []; hooks := None;
       middleware := None |}.

Definition orderedTool : @ExoTool World :=
  with_middleware echoTool
    (Some (onions [(say "mw1-start", say "mw1-end");
                   (say "mw2-start", say "mw2-end")])).

Definition blocker : @ExoMiddleware World :=
  fun _ => Finish (Returned {| success := false; data := None;
                               error := Some "Blocked";
                               metadata := Some [("blocked", VBool true)] |}).

Definition blockedTool : @ExoTool World :=
  with_middleware echoTool
    (Some (onions [(say "outer-start", say "outer-end")]
           ++ blocker :: onions [(say "inner-start", say "inner-end")])%list).

Definition throwingHooks : @ExoHooks World :=
  {| hook_onStart := Some (fun _ s => (Thrown (OtherError "hook failed"), s));
     hook_onSuccess := Some (fun _ s => (Thrown (NonError VNull), s));
     hook_onError := Some (fun _ s => (Thrown (OtherError "hook failed"), s)) |}.

Definition hookedTool : @ExoTool World :=
  with_hooks echoTool (Some throwingHooks).

Definition hi : value := VObj [("value", VStr "hi")].
Definition guest : ExoContext :=
  {| user := Some {| id := "1"; role := "guest" |}; scope := None;
     userId := None; isAdmin := None; sessionId := None;
     ctx_metadata := None |}.
Definition admin : ExoContext :=
  {| user := Some {| id := "2"; role := "admin" |}; scope := None;
     userId := None; isAdmin := None; sessionId := None;
     ctx_metadata := None |}.
Definition start : @world World := {| w_state := []; w_trace := [] |}.

(** The end-to-end example of the specification. *)
Example echo_hi :
  run_execute echoTool hi empty_context empty_options start
  = (Returned {| success := true;
                 data := Some (VObj [("value", VStr "hi")]);
                 error := None;
                 metadata := Some [("executionTime", VNum 1);
                                   ("toolName", VStr "echo");
                                   ("riskLevel", VStr "LOW")] |},
     {| w_state := ["executor"];
        w_trace := [EvExecutor hi empty_context] |}).
Proof. reflexivity. Qed.

(** The ordering test: [mw1-start, mw2-start, mw2-end, mw1-end] around the
    executor. *)
Example ordered_log :
  w_state (snd (run_execute orderedTool hi empty_context empty_options start))
  = ["mw1-start"; "mw2-start"; "executor"; "mw2-end"; "mw1-end"].
Proof. reflexivity. Qed.

(** The blocking test. *)
Example blocked_run :
  run_execute blockedTool hi empty_context empty_options start
  = (Returned {| success := false; data := None; error := Some "Blocked";
                 metadata := Some [("blocked", VBool true)] |},
     {| w_state := ["outer-start"; "outer-end"]; w_trace := [] |}).
Proof. reflexivity. Qed.

Example admin_needs_confirmation :
  fst (run_execute nukeTool hi admin empty_options start)
  = Thrown (the_confirmation_required nukeTool hi).
Proof. reflexivity. Qed.

Example hooked_run :
  run_execute hookedTool hi empty_context empty_options start
  = (fst (run_execute echoTool hi empty_context empty_options start),
     {| w_state := ["executor"];
        w_trace := [EvHook onStart; EvExecutor hi empty_context;
                    EvHook onSuccess] |}).
Proof. reflexivity. Qed.

Lemma C1_risk_gate_witness :
  exists w',
    run_execute nukeTool hi guest empty_options start
    = (Thrown (the_risk_violation nukeTool hi guest), w')
    /\ w_trace w' = w_trace start.
Proof.
  apply (proj1 (C1_risk_gate clock render riskMsg confirmMsg nukeTool hi
                  guest empty_options [] start eq_refl));
    [reflexivity|reflexivity|].
  repeat split; discriminate.
Defined.

Lemma C2_confirmation_gate_witness :
  exists w',
    run_execute transferTool hi guest empty_options start
    = (Thrown (the_confirmation_required transferTool hi), w')
    /\ w_trace w' = w_trace start.
Proof.
  apply (proj1 (C2_confirmation_gate clock render riskMsg confirmMsg
                  transferTool hi hi guest empty_options [] start eq_refl
                  eq_refl eq_refl ltac:(discriminate))).
  discriminate.
Defined.

Lemma C3_short_circuit_witness :
  exists o w2,
    (forall next,
        run_middleware (blocker (params_of blockedTool hi empty_context)) next
          (pre_phase (params_of blockedTool hi empty_context)
             [(say "outer-start", say "outer-end")] start) = (o, w2))
    /\ w_trace w2 = w_trace start
    /\ run_execute blockedTool hi empty_context empty_options start
       = match o with
         | Returned r =>
             (Returned r,
              post_phase (params_of blockedTool hi empty_context)
                [(say "outer-start", say "outer-end")] w2)
         | Thrown e => (Thrown e, w2)
         end
    /\ forall inner' executor',
         run_execute
           (with_executor
              (with_middleware blockedTool
                 (Some (onions [(say "outer-start", say "outer-end")]
                        ++ blocker :: inner')%list))
              executor')
           hi empty_context empty_options start
         = run_execute blockedTool hi empty_context empty_options start.
Proof.
  apply (C3_short_circuit clock render riskMsg confirmMsg blockedTool hi
           empty_context empty_options
           [(say "outer-start", say "outer-end")] blocker
           (onions [(say "inner-start", say "inner-end")]) start eq_refl).
  exact I.
Defined.

Lemma C4_onion_order_witness :
  run_execute orderedTool hi empty_context empty_options start
  = (Returned {| success := true;
                 data := Some (VObj [("value", VStr "hi")]);
                 error := None;
                 metadata := Some [("executionTime", VNum 1);
                                   ("toolName", VStr "echo");
                                   ("riskLevel", VStr "LOW")] |},
     {| w_state := ["mw1-start"; "mw2-start"; "executor"; "mw2-end";
                    "mw1-end"];
        w_trace := [EvExecutor hi empty_context] |}).
Proof.
  apply (proj2 (C4_onion_order clock render riskMsg confirmMsg orderedTool
                  hi empty_context empty_options)
           [(say "mw1-start", say "mw1-end"); (say "mw2-start", say "mw2-end")]
           start _
           {| w_state := ["mw1-start"; "mw2-start"; "executor"];
              w_trace := [EvExecutor hi empty_context] |} eq_refl).
  reflexivity.
Defined.

Lemma C5_hook_isolation_witness :
  same_run
    (run_execute (with_hooks hookedTool None) hi empty_context empty_options
       start)
    (run_execute hookedTool hi empty_context empty_options start).
Proof.
  apply (proj2 (C5_hook_isolation clock render riskMsg confirmMsg hookedTool
                  hi empty_context empty_options start) None).
  - intros hs [= <-]. repeat split; intros f [= <-] payload s; reflexivity.
  - intros hs; discriminate.
Defined.

End Demo.

(** ** The rate limiter of [src/middleware/index.ts] *)

Record RateLimitEntry : Type := { count : Z; resetTime : Z }.

Record RateLimiterOptions : Type := {
  windowMs : option Z;
  limit : option Z;
  keyGenerator : option (ExoContext -> option string);
}.

(** [a || b] on optional strings: [b] when [a] is undefined or empty. *)
Definition str_truthy (a : option string) : bool :=
  match a with
  | Some s => negb (String.eqb s EmptyString)
  | None => false
  end.

Definition str_or (a b : option string) : option string :=
  if str_truthy a then a else b.

Definition derive_key (options : RateLimiterOptions) (toolName : string)
    (context : ExoContext) : string :=
  match keyGenerator options with
  | Some generate =>
      default (toolName +:+ ":global") (generate context)
  | None =>
      let userId := str_or (option_map id (user context)) (userId context) in
      if str_truthy userId
      then toolName +:+ ":" +:+ default EmptyString userId
      else toolName +:+ ":global"
  end.

(** [Math.ceil(a / b)] on integers, [b > 0]. *)
Definition ceil_div (a b : Z) : Z := - ((- a) / b).

Definition rate_limited (resetTime now : Z) : ExoExecutionResult :=
  {| success := false;
     data := None;
     error := Some ("Rate limit exceeded. Try again in "
                    +:+ pretty (ceil_div (resetTime - now) 1000)
                    +:+ " seconds.");
     metadata := Some [("rateLimited", VBool true)] |}.





Section RateLimiter.

(** The limiter keeps its [storage] and reads [Date.now()] in the world. *)
Context {S : Type}.
Variable Date_now : S -> Z.
Variable storage : S -> gmap string RateLimitEntry.
Variable set_storage : gmap string RateLimitEntry -> S -> S.

Definition createRateLimiter (options : RateLimiterOptions)
    : @ExoMiddleware S :=
  let windowMs := default 60000 (windowMs options) in
  let limit := default 10 (limit options) in
  fun p =>
    ReadWorld (fun s =>
      let key := derive_key options (mp_toolName p) (mp_context p) in
      let now := Date_now s in
      let entry := storage s !! key in
      match entry with
      | Some e =>
          if now <? resetTime e then
            if limit <=? count e then
              Finish (Returned (rate_limited (resetTime e) now))
            else
              WriteWorld
                (set_storage
                   (<[key := {| count := count e + 1;
                                resetTime := resetTime e |}]> (storage s)) s)
                (CallNext (fun o => Finish o))
          else
            WriteWorld
              (set_storage
                 (<[key := {| count := 1; resetTime := now + windowMs |}]>
                    (storage s)) s)
              (CallNext (fun o => Finish o))
      | None =>
          WriteWorld
            (set_storage
               (<[key := {| count := 1; resetTime := now + windowMs |}]>
                  (storage s)) s)
            (CallNext (fun o => Finish o))
      end).

(** The timer of [setInterval]: drops the entries whose window is over. *)
Definition cleanup (s : S) : S :=
  set_storage
    (filter (fun kv => negb (resetTime (snd kv) <? Date_now s) = true)
       (storage s)) s.

(** No window is open for [key]: the limiter will start one. *)
Definition no_open_window (key : string) (s : S) : Prop :=
  match storage s !! key with
  | Some e => resetTime e <= Date_now s
  | None => True
  end.


(** *** A tool that keeps its hands off the limiter's storage *)

Variable performance_now : S -> Z.
Variable js_String : value -> string.
Variable risk_message : string -> string -> option string -> string.
Variable confirmation_message : string -> string.

Local Abbreviation exec :=
  (execute performance_now js_String risk_message confirmation_message).
Local Abbreviation core :=
  (_executeCore performance_now js_String risk_message confirmation_message).

Definition keeps_storage {A} (m : @M S A) : Prop :=
  forall w, storage (w_state (snd (m w))) = storage (w_state w).

Definition private_fn {A B} (f : @user_fn S A B) : Prop :=
  forall a s, storage (snd (f a s)) = storage s.

Definition private_hook {P} (h : option (@user_fn S P unit)) : Prop :=
  forall f, h = Some f -> private_fn f.

Definition private_tool (t : @ExoTool S) : Prop :=
  (forall a c s, storage (snd (executor t a c s)) = storage s)
  /\ private_hook (lookup_hook t hook_onStart)
  /\ private_hook (lookup_hook t hook_onSuccess)
  /\ private_hook (lookup_hook t hook_onError).

Lemma keeps_ret {A} (a : A) : keeps_storage (ret a).
Proof. intros w. reflexivity. Qed.

Lemma keeps_throw {A} e : keeps_storage (@throw S A e).
Proof. intros w. reflexivity. Qed.

Lemma keeps_now : keeps_storage (now performance_now).
Proof. intros w. reflexivity. Qed.

Lemma keeps_log e : keeps_storage (@log S e).
Proof. intros w. reflexivity. Qed.

Lemma keeps_call_user {A B} (f : @user_fn S A B) a :
  private_fn f -> keeps_storage (call_user f a).
Proof.
  intros Hf w. unfold call_user. specialize (Hf a (w_state w)).
  destruct (f a (w_state w)) as [o s']. exact Hf.
Qed.

Lemma keeps_bind {A B} (m : @M S A) (f : A -> @M S B) :
  keeps_storage m -> (forall a, keeps_storage (f a)) ->
  keeps_storage (bind m f).
Proof.
  intros Hm Hf w. unfold bind. specialize (Hm w).
  destruct (m w) as [[a|e] w1]; simpl in *.
  - rewrite Hf. exact Hm.
  - exact Hm.
Qed.

Lemma keeps_try_catch {A} (m : @M S A) (h : exn -> @M S A) :
  keeps_storage m -> (forall e, keeps_storage (h e)) ->
  keeps_storage (try_catch m h).
Proof.
  intros Hm Hh w. unfold try_catch. specialize (Hm w).
  destruct (m w) as [[a|e] w1]; simpl in *.
  - exact Hm.
  - rewrite Hh. exact Hm.
Qed.

Lemma keeps_safeFireHook {P} h (k : option (@user_fn S P unit)) payload :
  private_hook k -> keeps_storage (safeFireHook h k payload).
Proof.
  intros Hk. destruct k as [f|]; simpl; [|apply keeps_ret].
  apply keeps_bind; [apply keeps_log|]. intros _.
  apply keeps_try_catch; [|intros e; apply keeps_ret].
  apply keeps_call_user, (Hk f eq_refl).
Qed.

Lemma core_keeps_storage t args context options :
  private_tool t -> keeps_storage (core t args context options).
Proof.
  intros (Hx & Hs & Hk & He). unfold _executeCore.
  apply keeps_bind; [apply keeps_now|]. intros startTime.
  destruct (negb _); [apply keeps_throw|].
  apply keeps_bind.
  { destruct (RiskLevel_eqb _ _); [|apply keeps_ret].
    destruct (_ && _); [apply keeps_throw|apply keeps_ret]. }
  intros _. apply keeps_bind.
  { destruct (_ && _); [apply keeps_throw|apply keeps_ret]. }
  intros _. apply keeps_bind; [apply keeps_safeFireHook, Hs|]. intros _.
  apply keeps_try_catch.
  - apply keeps_bind; [apply keeps_log|]. intros _.
    apply keeps_bind.
    { apply keeps_call_user. intros a s. apply Hx. }
    intros d. apply keeps_bind; [apply keeps_now|]. intros endTime.
    apply keeps_bind; [apply keeps_safeFireHook, Hk|]. intros _.
    apply keeps_ret.
  - intros e. apply keeps_bind; [apply keeps_now|]. intros endTime.
    apply keeps_bind; [apply keeps_safeFireHook, He|]. intros _.
    apply keeps_throw.
Qed.

(** *** The limiter with [limit = 1] and [windowMs = 1000] *)

Definition limiter_1_1000 (kg : option (ExoContext -> option string))
    : RateLimiterOptions :=
  {| windowMs := Some 1000; limit := Some 1; keyGenerator := kg |}.




(** The cleanup timer leaves every entry whose window is still open. *)
Lemma cleanup_keeps_open key e s :
  (forall m s0, storage (set_storage m s0) = m) ->
  storage s !! key = Some e -> Date_now s <= resetTime e ->
  storage (cleanup s) !! key = Some e.
Proof.
  intros Hget He Hnow. unfold cleanup. rewrite Hget.
  apply map_lookup_filter_Some. split; [exact He|]. simpl.
  destruct (Z.ltb_spec (resetTime e) (Date_now s)); [lia|reflexivity].
Qed.


End RateLimiter.

(** ** The rate limiter on the tools of its tests *)

Module LimiterDemo.

Record World : Type := {
  lw_storage : gmap string RateLimitEntry;
  lw_now : Z;
  lw_log : list string;
}.

Definition put_storage (m : gmap string RateLimitEntry) (s : World) : World :=
  {| lw_storage := m; lw_now := lw_now s; lw_log := lw_log s |}.

Definition limiter : @ExoMiddleware World :=
  createRateLimiter lw_now lw_storage put_storage (limiter_1_1000 None).

(** [z.object({})] *)
Definition emptySchema (args : value) : SafeParseResult :=
  match args with
  | VObj _ => ParseSuccess (VObj [])
  | _ => ParseFailure [{| path := []; issue_message := "Expected object" |}]
  end.

Definition limitedTool (toolName : string) : @ExoTool World :=
  {| name := toolName; description := "Limited";
     safeParse := emptySchema;
     executor := fun _ _ s =>
       (Returned (VObj [("ok", VBool true)]),
        {| lw_storage := lw_storage s; lw_now := lw_now s;
           lw_log := (lw_log s ++ ["executor"])%list |});
     config := {| riskLevel := LOW; requiresConfirmation := false;
                  timeout := 0; retryable := true; maxRetries := 3;
                  tags := []; hooks := None; middleware := Some [limiter] |} |}.

Definition run := @execute World lw_now Demo.render Demo.riskMsg Demo.confirmMsg.
Definition run_core :=
  @_executeCore World lw_now Demo.render Demo.riskMsg Demo.confirmMsg.

Definition at_time (now : Z) (w : @world World) : @world World :=
  {| w_state := {| lw_storage := lw_storage (w_state w); lw_now := now;
                   lw_log := lw_log (w_state w) |};
     w_trace := w_trace w |}.

Definition start : @world World :=
  {| w_state := {| lw_storage := ∅; lw_now := 5000; lw_log := [] |};
     w_trace := [] |}.

Definition user1 : ExoContext :=
  {| user := Some {| id := "u1"; role := "user" |}; scope := None;
     userId := None; isAdmin := None; sessionId := None;
     ctx_metadata := None |}.
Definition user2 : ExoContext :=
  {| user := Some {| id := "u2"; role := "user" |}; scope := None;
     userId := None; isAdmin := None; sessionId := None;
     ctx_metadata := None |}.

Example keys :
  derive_key (limiter_1_1000 None) "tool_1" empty_context = "tool_1:global"
  /\ derive_key (limiter_1_1000 None) "user_limited" user1 = "user_limited:u1".
Proof. split; reflexivity. Qed.

(** The test of the limit: the first request runs the executor, the second,
    400 ms later, is refused and the executor does not run again. *)
Example first_then_blocked :
  let w1 := snd (run (limitedTool "limited_tool_2") (VObj []) empty_context
                   empty_options start) in
  let r2 := run (limitedTool "limited_tool_2") (VObj []) empty_context
              empty_options (at_time 5400 w1) in
  lw_log (w_state w1) = ["executor"]
  /\ fst r2 = Returned {| success := false; data := None;
         error := Some "Rate limit exceeded. Try again in 1 seconds.";
         metadata := Some [("rateLimited", VBool true)] |}
  /\ lw_log (w_state (snd r2)) = ["executor"]
  /\ w_trace (snd r2) = w_trace w1.
Proof. vm_compute. repeat split. Qed.

(** The test per user: the second user is served. *)
Example other_user_served :
  let w1 := snd (run (limitedTool "user_limited") (VObj []) user1
                   empty_options start) in
  let r3 := run (limitedTool "user_limited") (VObj []) user2 empty_options
              (at_time 5400 w1) in
  lw_log (w_state (snd r3)) = ["executor"; "executor"].
Proof. vm_compute. reflexivity. Qed.



End LimiterDemo.

(** ** The specification generators of [ExoTool]

    Here a schema is read as the tree of values it is; the store in which
    JavaScript keeps the objects, with the cache [cachedJsonSchema], comes
    after, in [Store]. *)

Module Tree.

(** The own enumerable entries of a value, as [{...v}], [Object.keys(v)] and
    [Object.entries(v)] see them: an array has its indices for keys, a string
    its characters. *)
Definition own_entries (v : value) : obj :=
  match v with
  | VObj o => o
  | VArr l => imap (fun i x => (pretty i, x)) l
  | VStr s =>
      imap (fun i c => (pretty i, VStr (String c EmptyString)))
        (list_ascii_of_string s)
  | _ => []
  end.

(** [v[k]]: a [TypeError] on [undefined] and [null]. Members that are
    inherited or not enumerable ([length], the methods) read as [undefined]:
    the value read is only ever passed through [?? {}] and a rest copy, which
    give [{}] for them as for [undefined]. *)
Definition get_prop (v : value) (k : string) : option value :=
  match v with
  | VUndefined | VNull => None
  | _ => Some (obj_get k (own_entries v))
  end.

(** [const { k, ...rest } = o] *)
Definition obj_remove (k : string) (o : obj) : obj :=
  filter (fun kv => negb (String.eqb (fst kv) k) = true) o.

Definition is_type (ty : string) (o : obj) : bool :=
  match obj_get "type" o with
  | VStr s => String.eqb s ty
  | _ => false
  end.

(** What the spec generators read of a tool: its name and description, and
    the JSON Schema that [zodToJsonSchema(schema, { name, $refStrategy })]
    answers for its schema (zod-to-json-schema is outside the repository). *)
Record ToolSchema : Type := {
  ts_name : string;
  ts_description : string;
  zodToJsonSchema : obj;
}.

Record OpenAIFunction : Type := {
  fn_name : string;
  fn_description : string;
  parameters : obj;
  strict : option bool;
}.

Record OpenAIToolSpec : Type := {
  spec_type : string;
  function : OpenAIFunction;
}.

Record AnthropicToolSpec : Type := {
  an_name : string;
  an_description : string;
  input_schema : obj;
}.

(** One step of the loop over [Object.entries(result.properties)]. *)
Definition transform_entry (rec : obj -> obj) (acc : obj) (kv : string * value)
    : obj :=
  if is_object (snd kv)
  then obj_set (fst kv) (VObj (rec (own_entries (snd kv)))) acc
  else obj_set (fst kv) (snd kv) acc.

(** The body of [applyStrictModeTransformations], its recursive calls being
    [rec]. *)
Definition strict_body (rec : obj -> obj) (schema : obj) : obj :=
  let result := schema in
  let result :=
    if is_type "object" result then
      let result := obj_set "additionalProperties" (VBool false) result in
      let properties := obj_get "properties" result in
      if truthy properties && is_object properties then
        let propertyNames := obj_keys (own_entries properties) in
        let result := obj_set "required" (VArr (map VStr propertyNames)) result in
        let transformedProperties :=
          fold_left (transform_entry rec) (own_entries properties) [] in
        obj_set "properties" (VObj transformedProperties) result
      else result
    else result in
  if is_type "array" result && truthy (obj_get "items" result) then
    if is_object (obj_get "items" result) then
      obj_set "items" (VObj (rec (own_entries (obj_get "items" result)))) result
    else result
  else result.

(** The recursion descends into the values of the schema; [fuel] bounds its
    depth, and the depth of the schema is enough (see [strict_fuel_enough]). *)
Fixpoint strict_fuel (fuel : nat) (schema : obj) : obj :=
  match fuel with
  | O => schema
  | S n => strict_body (strict_fuel n) schema
  end.

Fixpoint depth (v : value) : nat :=
  match v with
  | VArr l => S (fold_right (fun x d => Nat.max (depth x) d) O l)
  | VObj o => S (fold_right (fun kv d => Nat.max (depth (snd kv)) d) O o)
  | _ => O
  end.

Definition applyStrictModeTransformations (schema : obj) : obj :=
  strict_fuel (depth (VObj schema)) schema.

Section Generators.

(** [x > 0] for a value that is neither a number, a boolean, [null] nor
    [undefined], by JavaScript's coercion. *)
Variable coerced_gt_zero : value -> bool.

Definition gt_zero (x : value) : bool :=
  match x with
  | VNum n => 0 <? n
  | VBool b => b
  | VUndefined | VNull => false
  | _ => coerced_gt_zero x
  end.

(** [v.length]: a [TypeError] on [null]. *)
Definition js_length (v : value) : option value :=
  match v with
  | VUndefined | VNull => None
  | VArr l => Some (VNum (Z.of_nat (length l)))
  | VStr s => Some (VNum (Z.of_nat (String.length s)))
  | VObj o => Some (obj_get "length" o)
  | _ => Some VUndefined
  end.

(** The first lines of both generators: the definition the schema wraps, or
    the schema itself. [None] is the [TypeError] of [definitions[name]] on a
    missing [definitions]. *)
Definition unwrap_schema (t : ToolSchema) (jsonSchema : obj) : option value :=
  let definitions := obj_get "definitions" jsonSchema in
  if truthy definitions && is_object definitions then
    option_map (fun d => coalesce d (VObj [])) (get_prop definitions (ts_name t))
  else if truthy (obj_get "$ref" jsonSchema) then
    option_map (fun d => coalesce d (VObj [])) (get_prop definitions (ts_name t))
  else Some (VObj jsonSchema).

Definition getOpenAISpec (t : ToolSchema) (strict : bool)
    : option OpenAIToolSpec :=
  let jsonSchema := zodToJsonSchema t in
  match unwrap_schema t jsonSchema with
  | None => None
  | Some parameters =>
      let cleanParameters := obj_remove "$schema" (own_entries parameters) in
      let finalParameters :=
        if strict then applyStrictModeTransformations cleanParameters
        else cleanParameters in
      Some {| spec_type := "function";
              function := {| fn_name := ts_name t;
                             fn_description := ts_description t;
                             parameters := finalParameters;
                             strict := if strict then Some true else None |} |}
  end.

Definition getAnthropicSpec (t : ToolSchema) : option AnthropicToolSpec :=
  let jsonSchema := zodToJsonSchema t in
  match unwrap_schema t jsonSchema with
  | None => None
  | Some schemaObject =>
      let cleanSchema := obj_remove "$schema" (own_entries schemaObject) in
      let requiredFields := obj_get "required" cleanSchema in
      let inputSchema :=
        [("type", VStr "object");
         ("properties", coalesce (obj_get "properties" cleanSchema) (VObj []))] in
      match requiredFields with
      | VUndefined =>
          Some {| an_name := ts_name t; an_description := ts_description t;
                  input_schema := inputSchema |}
      | _ =>
          match js_length requiredFields with
          | None => None
          | Some len =>
              Some {| an_name := ts_name t; an_description := ts_description t;
                      input_schema :=
                        if gt_zero len
                        then obj_set "required" requiredFields inputSchema
                        else inputSchema |}
          end
      end
  end.

End Generators.

(** The schema of the specification's example, and a few others:
    [z.object({ a: z.string(), b: z.object({ c: z.number() }) })]. *)
Definition example_schema : obj :=
  [("type", VStr "object");
   ("properties",
    VObj [("a", VObj [("type", VStr "string")]);
          ("b", VObj [("type", VStr "object");
                      ("properties",
                       VObj [("c", VObj [("type", VStr "number")])])])])].

(** What the specification expects of it in strict mode. *)
Definition example_schema_strict : obj :=
  [("type", VStr "object");
   ("properties",
    VObj [("a", VObj [("type", VStr "string")]);
          ("b", VObj [("type", VStr "object");
                      ("properties",
                       VObj [("c", VObj [("type", VStr "number")])]);
                      ("additionalProperties", VBool false);
                      ("required", VArr [VStr "c"])])]);
   ("additionalProperties", VBool false);
   ("required", VArr [VStr "a"; VStr "b"])].

Example example_schema_transformed :
  applyStrictModeTransformations example_schema = example_schema_strict.
Proof. reflexivity. Qed.

(** *** Reading and writing entries *)

Lemma obj_get_set (k k' : string) (v : value) (o : obj) :
  obj_get k (obj_set k' v o) = if String.eqb k' k then v else obj_get k o.
Proof.
  induction o as [|[k0 v0] o IH]; simpl.
  - destruct (String.eqb_spec k' k); reflexivity.
  - destruct (String.eqb_spec k0 k') as [->|Hne]; simpl.
    + destruct (String.eqb_spec k' k); reflexivity.
    + rewrite IH. destruct (String.eqb_spec k0 k) as [->|Hne'];
        [|reflexivity].
      destruct (String.eqb_spec k' k); [congruence|reflexivity].
Qed.

Lemma obj_get_set_eq (k : string) (v : value) (o : obj) :
  obj_get k (obj_set k v o) = v.
Proof. rewrite obj_get_set, String.eqb_refl. reflexivity. Qed.

Lemma obj_get_set_ne (k k' : string) (v : value) (o : obj) :
  k' <> k -> obj_get k (obj_set k' v o) = obj_get k o.
Proof.
  intros H. rewrite obj_get_set. destruct (String.eqb_spec k' k); congruence.
Qed.

Lemma is_type_set (ty k : string) (v : value) (o : obj) :
  k <> "type" -> is_type ty (obj_set k v o) = is_type ty o.
Proof. intros H. unfold is_type. rewrite obj_get_set_ne by exact H. reflexivity. Qed.

Lemma obj_set_fresh (k : string) (v : value) (o : obj) :
  ~ In k (obj_keys o) -> obj_set k v o = (o ++ [(k, v)])%list.
Proof.
  induction o as [|[k0 v0] o IH]; simpl; intros Hn; [reflexivity|].
  destruct (String.eqb_spec k0 k) as [->|Hne]; [tauto|].
  rewrite IH by tauto. reflexivity.
Qed.

Lemma obj_keys_set (k : string) (v : value) (o : obj) :
  In k (obj_keys o) -> obj_keys (obj_set k v o) = obj_keys o.
Proof.
  induction o as [|[k0 v0] o IH]; simpl; intros Hin; [destruct Hin|].
  destruct (String.eqb_spec k0 k) as [->|Hne]; [reflexivity|].
  simpl. rewrite IH; [reflexivity|]. destruct Hin; congruence.
Qed.

(** *** Depth and fuel *)

Lemma depth_entry (k : string) (v : value) (o : obj) :
  In (k, v) o -> (depth v < depth (VObj o))%nat.
Proof.
  simpl. induction o as [|[k0 v0] o IH]; simpl; intros Hin; [destruct Hin|].
  destruct Hin as [[= -> ->]|Hin]; [lia|]. specialize (IH Hin). lia.
Qed.

Lemma depth_obj_get (k : string) (o : obj) :
  (depth (obj_get k o) < depth (VObj o))%nat.
Proof.
  simpl. induction o as [|[k0 v0] o IH]; simpl; [lia|].
  destruct (String.eqb k0 k); lia.
Qed.

Lemma depth_imap_entries {A} (f : A -> value) (g : nat -> string) (l : list A) :
  fold_right (fun kv d => Nat.max (depth (snd kv)) d) O
    (imap (fun i x => (g i, f x)) l)
  = fold_right (fun x d => Nat.max (depth (f x)) d) O l.
Proof.
  revert g. induction l as [|x l IH]; intros g; simpl; [reflexivity|].
  rewrite <- (IH (fun i => g (S i))). reflexivity.
Qed.

Lemma depth_own_entries (v : value) :
  is_object v = true -> depth (VObj (own_entries v)) = depth v.
Proof.
  destruct v; try discriminate; intros _; [|reflexivity].
  simpl. f_equal.
  exact (depth_imap_entries (fun x => x) (fun i => pretty i) elems).
Qed.

Lemma fold_left_ext_in {A B} (f g : A -> B -> A) (l : list B) (a : A) :
  (forall x acc, In x l -> f acc x = g acc x) ->
  fold_left f l a = fold_left g l a.
Proof.
  revert a. induction l as [|x l IH]; intros a H; simpl; [reflexivity|].
  rewrite (H x a) by (left; reflexivity).
  apply IH. intros y acc Hy. apply H. right. exact Hy.
Qed.

(** The body only calls [rec] on objects strictly inside the schema. *)
Lemma strict_body_ext (rec1 rec2 : obj -> obj) (schema : obj) :
  (forall v, is_object v = true -> (depth v < depth (VObj schema))%nat ->
             rec1 (own_entries v) = rec2 (own_entries v)) ->
  strict_body rec1 schema = strict_body rec2 schema.
Proof.
  intros H. unfold strict_body.
  assert (Hitems : forall r,
             obj_get "items" r = obj_get "items" schema ->
             (if is_object (obj_get "items" r)
              then obj_set "items"
                     (VObj (rec1 (own_entries (obj_get "items" r)))) r
              else r)
             = (if is_object (obj_get "items" r)
                then obj_set "items"
                       (VObj (rec2 (own_entries (obj_get "items" r)))) r
                else r)).
  { intros r Hr. destruct (is_object (obj_get "items" r)) eqn:Ho; [|reflexivity].
    rewrite H; [reflexivity|exact Ho|]. rewrite Hr. apply depth_obj_get. }
  destruct (is_type "object" schema) eqn:Hty.
  - rewrite obj_get_set_ne by discriminate.
    destruct (truthy (obj_get "properties" schema)
              && is_object (obj_get "properties" schema)) eqn:Hp.
    + apply andb_true_iff in Hp as [_ Hp].
      assert (Hfold :
                fold_left (transform_entry rec1)
                  (own_entries (obj_get "properties" schema)) []
                = fold_left (transform_entry rec2)
                    (own_entries (obj_get "properties" schema)) []).
      { apply fold_left_ext_in. intros [k v] acc Hin. unfold transform_entry.
        simpl. destruct (is_object v) eqn:Hv; [|reflexivity].
        rewrite H; [reflexivity|exact Hv|].
        apply depth_entry in Hin. rewrite depth_own_entries in Hin by exact Hp.
        pose proof (depth_obj_get "properties" schema). lia. }
      rewrite Hfold.
      match goal with
      | |- (if ?c then _ else _) = _ => destruct c; [|reflexivity]
      end.
      apply Hitems. rewrite !obj_get_set_ne by discriminate. reflexivity.
    + match goal with
      | |- (if ?c then _ else _) = _ => destruct c; [|reflexivity]
      end.
      apply Hitems. rewrite !obj_get_set_ne by discriminate. reflexivity.
  - match goal with
    | |- (if ?c then _ else _) = _ => destruct c; [|reflexivity]
    end.
    apply Hitems. reflexivity.
Qed.

Lemma strict_fuel_stable (n m : nat) (schema : obj) :
  (depth (VObj schema) <= n)%nat -> (depth (VObj schema) <= m)%nat ->
  strict_fuel n schema = strict_fuel m schema.
Proof.
  revert m schema. induction n as [|n IH]; intros m schema Hn Hm.
  - simpl in Hn. lia.
  - destruct m as [|m]; [simpl in Hm; lia|].
    simpl strict_fuel. apply strict_body_ext. intros v Hv Hd.
    apply IH; rewrite depth_own_entries by exact Hv; lia.
Qed.

(** Any fuel from the depth of the schema on gives the same result. *)
Lemma strict_fuel_enough (n : nat) (schema : obj) :
  (depth (VObj schema) <= n)%nat ->
  strict_fuel n schema = applyStrictModeTransformations schema.
Proof.
  intros H. apply strict_fuel_stable; [exact H|reflexivity].
Qed.

(** The function satisfies the equation of its source. *)
Lemma applyStrictModeTransformations_eq (schema : obj) :
  applyStrictModeTransformations schema
  = strict_body applyStrictModeTransformations schema.
Proof.
  unfold applyStrictModeTransformations at 1.
  change (depth (VObj schema))
    with (S (fold_right (fun kv d => Nat.max (depth (snd kv)) d) O schema)).
  simpl strict_fuel. apply strict_body_ext. intros v Hv Hd.
  apply strict_fuel_enough. rewrite depth_own_entries by exact Hv.
  simpl in Hd. lia.
Qed.

(** *** Strict mode, node by node *)

(** No object of the value has a key twice (as no JavaScript object has). *)
Fixpoint distinct (l : list string) : bool :=
  match l with
  | [] => true
  | x :: l' => negb (existsb (String.eqb x) l') && distinct l'
  end.

Fixpoint well_formed (v : value) : bool :=
  match v with
  | VObj o => distinct (obj_keys o) && forallb (fun kv => well_formed (snd kv)) o
  | VArr l => forallb well_formed l
  | _ => true
  end.

(** The schema nodes of a schema: the schema itself, the property schemas of
    an object-typed node and the item schema of an array-typed node. *)
Inductive schema_node (root : obj) : obj -> Prop :=
| node_root : schema_node root root
| node_property (n : obj) (k : string) (v : value) :
    schema_node root n ->
    is_type "object" n = true ->
    In (k, v) (own_entries (obj_get "properties" n)) ->
    is_object v = true ->
    schema_node root (own_entries v)
| node_items (n : obj) :
    schema_node root n ->
    is_type "array" n = true ->
    is_object (obj_get "items" n) = true ->
    schema_node root (own_entries (obj_get "items" n)).

Definition property_names (n : obj) : list string :=
  obj_keys (own_entries (obj_get "properties" n)).

(** The claim as the specification words it: [required] is set on every
    object-typed node. *)
Definition all_required (n : obj) : Prop :=
  obj_get "additionalProperties" n = VBool false
  /\ obj_get "required" n = VArr (map VStr (property_names n)).

Definition strict_as_stated (t : ToolSchema) : Prop :=
  forall spec n,
    getOpenAISpec t true = Some spec ->
    schema_node (parameters (function spec)) n ->
    is_type "object" n = true ->
    all_required n.

(** What the code does: [required] is set on the object-typed nodes that have
    a [properties] object. *)
Definition strict_node (n : obj) : Prop :=
  obj_get "additionalProperties" n = VBool false
  /\ (is_object (obj_get "properties" n) = true ->
      obj_get "required" n = VArr (map VStr (property_names n))).

(** [z.object({ m: z.record(z.string()) })], the record reduced to its type. *)
Definition record_schema : obj :=
  [("type", VStr "object");
   ("properties", VObj [("m", VObj [("type", VStr "object")])])].

Definition record_tool : ToolSchema :=
  {| ts_name := "records"; ts_description := "Stores a record.";
     zodToJsonSchema := record_schema |}.

Definition example_tool : ToolSchema :=
  {| ts_name := "example"; ts_description := "The example.";
     zodToJsonSchema := example_schema |}.

Example record_schema_strict :
  option_map (fun s => parameters (function s)) (getOpenAISpec record_tool true)
  = Some [("type", VStr "object");
          ("properties",
           VObj [("m", VObj [("type", VStr "object");
                             ("additionalProperties", VBool false)])]);
          ("additionalProperties", VBool false);
          ("required", VArr [VStr "m"])].
Proof. reflexivity. Qed.

Lemma distinct_NoDup (l : list string) : distinct l = true -> List.NoDup l.
Proof.
  induction l as [|x l IH]; simpl; intros H; [constructor|].
  apply andb_true_iff in H as [Hx Hl]. constructor; [|apply IH, Hl].
  intros Hin. apply negb_true_iff in Hx.
  assert (existsb (String.eqb x) l = true); [|congruence].
  apply existsb_exists. exists x. split; [exact Hin|apply String.eqb_refl].
Qed.

Lemma NoDup_distinct (l : list string) : List.NoDup l -> distinct l = true.
Proof.
  induction 1 as [|x l Hx Hl IH]; simpl; [reflexivity|].
  rewrite IH, andb_true_r. apply negb_true_iff.
  destruct (existsb (String.eqb x) l) eqn:He; [|reflexivity].
  apply existsb_exists in He as (y & Hy & Heq).
  apply String.eqb_eq in Heq. subst y. contradiction.
Qed.

Lemma well_formed_entry (k : string) (v : value) (o : obj) :
  well_formed (VObj o) = true -> In (k, v) o -> well_formed v = true.
Proof.
  simpl. intros H Hin. apply andb_true_iff in H as [_ H].
  rewrite forallb_forall in H. apply (H (k, v) Hin).
Qed.

Lemma well_formed_get (k : string) (o : obj) :
  well_formed (VObj o) = true -> well_formed (obj_get k o) = true.
Proof.
  intros H. induction o as [|[k0 v0] o IH]; simpl; [reflexivity|].
  destruct (String.eqb k0 k).
  - apply (well_formed_entry k0 v0 _ H). left. reflexivity.
  - apply IH. simpl in *. apply andb_true_iff in H as [H1 H2].
    apply andb_true_iff in H1 as [_ H1]. apply andb_true_iff in H2 as [_ H2].
    rewrite H1, H2. reflexivity.
Qed.

Lemma imap_keys {A} (f : nat -> string) (g : A -> value) (l : list A) :
  obj_keys (imap (fun i x => (f i, g x)) l) = map f (seq 0 (length l)).
Proof.
  revert f. induction l as [|x l IH]; intros f; simpl; [reflexivity|].
  f_equal. rewrite <- seq_shift, map_map. exact (IH (fun i => f (S i))).
Qed.

Lemma pretty_keys_NoDup (n : nat) :
  List.NoDup (map (fun i : nat => pretty i) (seq 0 n)).
Proof.
  apply Finite.Injective_map_NoDup; [|apply seq_NoDup].
  intros i j H. exact (pretty_nat_inj i j H).
Qed.

Lemma imap_entries_in {A} (f : nat -> string) (g : A -> value) (l : list A)
    (k : string) (v : value) :
  In (k, v) (imap (fun i x => (f i, g x)) l) -> exists x, In x l /\ v = g x.
Proof.
  revert f. induction l as [|x l IH]; intros f; simpl; [tauto|].
  intros [[= _ <-]|Hin].
  - exists x. split; [left; reflexivity|reflexivity].
  - destruct (IH _ Hin) as (y & Hy & ->). exists y. split; [right; exact Hy|reflexivity].
Qed.

Lemma well_formed_own_entries (v : value) :
  well_formed v = true -> well_formed (VObj (own_entries v)) = true.
Proof.
  destruct v as [| |b|n|s|l|o]; simpl; intros H; try reflexivity.
  - rewrite imap_keys, NoDup_distinct by apply pretty_keys_NoDup. simpl.
    apply forallb_forall. intros [k v] Hin.
    apply imap_entries_in in Hin as (c & _ & ->). reflexivity.
  - rewrite imap_keys, NoDup_distinct by apply pretty_keys_NoDup. simpl.
    apply forallb_forall. intros [k v] Hin.
    apply (imap_entries_in (fun i => pretty i) (fun x => x)) in Hin
      as (x & Hx & ->).
    rewrite forallb_forall in H. apply H, Hx.
  - exact H.
Qed.

Lemma in_obj_set (e : string * value) (k : string) (v : value) (o : obj) :
  In e (obj_set k v o) -> e = (k, v) \/ In e o.
Proof.
  induction o as [|[k0 v0] o IH]; simpl.
  - intros [<-|[]]. left. reflexivity.
  - destruct (String.eqb_spec k0 k) as [->|Hne]; simpl.
    + intros [<-|H]; [left; reflexivity|right; right; exact H].
    + intros [<-|H]; [right; left; reflexivity|].
      destruct (IH H); [left; assumption|right; right; assumption].
Qed.

(** Every entry of the transformed properties comes from an entry of the
    properties, and the keys are those of the properties, in their order. *)
Lemma transformed_entry_in (rec : obj -> obj) (l acc : obj) (k : string)
    (v' : value) :
  In (k, v') (fold_left (transform_entry rec) l acc) ->
  In (k, v') acc
  \/ exists v, In (k, v) l
               /\ v' = if is_object v then VObj (rec (own_entries v)) else v.
Proof.
  revert acc. induction l as [|[k0 v0] l IH]; intros acc; simpl;
    [intros H; left; exact H|].
  intros H. destruct (IH _ H) as [Hacc|(v & Hv & Heq)].
  - unfold transform_entry in Hacc. simpl in Hacc.
    destruct (is_object v0) eqn:Ho; apply in_obj_set in Hacc as [[= -> ->]|Hacc];
      try (left; exact Hacc);
      right; exists v0; rewrite Ho; split; try (left; reflexivity); reflexivity.
  - right. exists v. split; [right; exact Hv|exact Heq].
Qed.

Lemma transformed_keys (rec : obj -> obj) (l acc : obj) :
  List.NoDup (obj_keys acc ++ obj_keys l) ->
  obj_keys (fold_left (transform_entry rec) l acc)
  = (obj_keys acc ++ obj_keys l)%list.
Proof.
  revert acc. induction l as [|[k0 v0] l IH]; intros acc Hnd; simpl.
  - rewrite app_nil_r. reflexivity.
  - assert (Hfresh : ~ In k0 (obj_keys acc)).
    { apply NoDup_remove_2 in Hnd. intros Hin. apply Hnd.
      apply in_or_app. left. exact Hin. }
    assert (Hstep : forall x, obj_keys (obj_set k0 x acc)
                              = (obj_keys acc ++ [k0])%list).
    { intros x. rewrite obj_set_fresh by exact Hfresh.
      unfold obj_keys. rewrite map_app. reflexivity. }
    unfold transform_entry at 2. simpl fst. simpl snd.
    destruct (is_object v0); rewrite IH, Hstep, <- ?app_assoc;
      try reflexivity; rewrite Hstep, <- app_assoc; exact Hnd.
Qed.

Lemma is_object_truthy (v : value) : is_object v = true -> truthy v = true.
Proof. destruct v; simpl; congruence. Qed.

Lemma is_type_exclusive (n : obj) :
  is_type "object" n = true -> is_type "array" n = false.
Proof.
  unfold is_type. destruct (obj_get "type" n); try discriminate.
  intros H. apply String.eqb_eq in H. subst s. reflexivity.
Qed.

(** The three shapes of a result. *)
Lemma strict_object (m : obj) :
  is_type "object" m = true ->
  applyStrictModeTransformations m
  = if is_object (obj_get "properties" m)
    then obj_set "properties"
           (VObj (fold_left (transform_entry applyStrictModeTransformations)
                    (own_entries (obj_get "properties" m)) []))
           (obj_set "required" (VArr (map VStr (property_names m)))
              (obj_set "additionalProperties" (VBool false) m))
    else obj_set "additionalProperties" (VBool false) m.
Proof.
  intros Hty. rewrite applyStrictModeTransformations_eq. unfold strict_body.
  rewrite Hty, obj_get_set_ne by discriminate.
  destruct (is_object (obj_get "properties" m)) eqn:Hp.
  - rewrite (is_object_truthy _ Hp). simpl andb.
    rewrite !is_type_set, (is_type_exclusive m Hty) by discriminate.
    reflexivity.
  - rewrite andb_false_r.
    rewrite is_type_set, (is_type_exclusive m Hty) by discriminate.
    reflexivity.
Qed.

Lemma strict_not_object (m : obj) :
  is_type "object" m = false ->
  applyStrictModeTransformations m
  = if is_type "array" m && is_object (obj_get "items" m)
    then obj_set "items"
           (VObj (applyStrictModeTransformations
                    (own_entries (obj_get "items" m)))) m
    else m.
Proof.
  intros Hty. rewrite applyStrictModeTransformations_eq. unfold strict_body.
  rewrite Hty. destruct (is_type "array" m); [|reflexivity]. simpl.
  destruct (is_object (obj_get "items" m)) eqn:Hi.
  - rewrite (is_object_truthy _ Hi). reflexivity.
  - destruct (truthy _); reflexivity.
Qed.

Lemma strict_keeps_type (ty : string) (m : obj) :
  is_type ty (applyStrictModeTransformations m) = is_type ty m.
Proof.
  destruct (is_type "object" m) eqn:Hty.
  - rewrite strict_object by exact Hty.
    destruct (is_object _); rewrite !is_type_set by discriminate; reflexivity.
  - rewrite strict_not_object by exact Hty.
    destruct (_ && _); [|reflexivity].
    rewrite is_type_set by discriminate. reflexivity.
Qed.

(** An object-typed result is a strict node. *)
Lemma strict_result_node (m : obj) :
  well_formed (VObj m) = true ->
  is_type "object" m = true ->
  strict_node (applyStrictModeTransformations m).
Proof.
  intros Hwf Hty. rewrite strict_object by exact Hty. unfold strict_node.
  destruct (is_object (obj_get "properties" m)) eqn:Hp.
  - rewrite !obj_get_set_ne, !obj_get_set_eq by discriminate.
    split; [reflexivity|]. intros _.
    rewrite obj_get_set_ne, obj_get_set_eq by discriminate.
    unfold property_names at 2. rewrite obj_get_set_eq. simpl own_entries.
    rewrite transformed_keys; [reflexivity|]. simpl.
    apply distinct_NoDup.
    pose proof (well_formed_own_entries _ (well_formed_get "properties" m Hwf))
      as Hk.
    simpl in Hk. apply andb_true_iff in Hk as [Hk _]. exact Hk.
  - rewrite obj_get_set_eq, obj_get_set_ne, Hp by discriminate.
    split; [reflexivity|discriminate].
Qed.

(** The schema nodes of a result are results themselves. *)
Lemma strict_nodes_are_results (m n : obj) :
  well_formed (VObj m) = true ->
  schema_node (applyStrictModeTransformations m) n ->
  exists m', well_formed (VObj m') = true
             /\ n = applyStrictModeTransformations m'.
Proof.
  intros Hwf Hn. induction Hn as [|n k v' Hn IH Hty Hin Hv|n Hn IH Hty Hi].
  - exists m. split; [exact Hwf|reflexivity].
  - destruct IH as (m' & Hwf' & ->).
    rewrite strict_keeps_type in Hty.
    rewrite strict_object in Hin by exact Hty.
    destruct (is_object (obj_get "properties" m')) eqn:Hp.
    + rewrite obj_get_set_eq in Hin. simpl own_entries in Hin.
      apply transformed_entry_in in Hin as [[]|(v & Hinv & ->)].
      destruct (is_object v) eqn:Hov; [|congruence].
      exists (own_entries v). split; [|reflexivity].
      apply well_formed_own_entries.
      apply (well_formed_entry k v (own_entries (obj_get "properties" m'))).
      * apply well_formed_own_entries, well_formed_get, Hwf'.
      * exact Hinv.
    + exfalso. rewrite obj_get_set_ne in Hin by discriminate.
      destruct (obj_get "properties" m') as [| |b|z|s|l|o]; simpl in Hin;
        try contradiction; try discriminate.
      apply imap_entries_in in Hin as (c & _ & ->). discriminate.
  - destruct IH as (m' & Hwf' & ->).
    rewrite strict_keeps_type in Hty.
    assert (Hno : is_type "object" m' = false).
    { destruct (is_type "object" m') eqn:Ho; [|reflexivity].
      rewrite (is_type_exclusive m' Ho) in Hty. discriminate. }
    rewrite strict_not_object in Hi |- * by exact Hno.
    rewrite Hty in Hi |- *. simpl andb in Hi |- *.
    destruct (is_object (obj_get "items" m')) eqn:Hitems.
    + rewrite obj_get_set_eq. simpl own_entries.
      exists (own_entries (obj_get "items" m')). split; [|reflexivity].
      apply well_formed_own_entries, well_formed_get, Hwf'.
    + congruence.
Qed.

Lemma well_formed_remove (k : string) (o : obj) :
  well_formed (VObj o) = true -> well_formed (VObj (obj_remove k o)) = true.
Proof.
  simpl. intros H. apply andb_true_iff in H as [Hd Hv].
  apply andb_true_iff. split.
  - apply NoDup_distinct. apply distinct_NoDup in Hd.
    unfold obj_remove, obj_keys in *. clear Hv.
    induction o as [|[k0 v0] o IH]; simpl in *; [constructor|].
    apply NoDup_cons_iff in Hd as [Hx Hd].
    unfold filter. simpl. destruct (decide _); simpl.
    + constructor; [|apply IH, Hd]. intros Hin. apply Hx.
      apply in_map_iff in Hin as ([k1 v1] & <- & Hin).
      apply list_elem_of_In, list_elem_of_filter in Hin as [_ Hin].
      apply list_elem_of_In in Hin.
      apply in_map_iff. exists (k1, v1). split; [reflexivity|exact Hin].
    + apply IH, Hd.
  - rewrite forallb_forall in Hv |- *. intros kv Hin. apply Hv.
    unfold obj_remove in Hin.
    apply list_elem_of_In, list_elem_of_filter in Hin as [_ Hin].
    apply list_elem_of_In, Hin.
Qed.

Lemma well_formed_unwrap (t : ToolSchema) (v : value) :
  well_formed (VObj (zodToJsonSchema t)) = true ->
  unwrap_schema t (zodToJsonSchema t) = Some v ->
  well_formed v = true.
Proof.
  intros Hwf. unfold unwrap_schema.
  assert (Hdef : forall d, get_prop (obj_get "definitions" (zodToJsonSchema t))
                             (ts_name t) = Some d ->
                           well_formed (coalesce d (VObj [])) = true).
  { intros d Hd. unfold get_prop in Hd.
    assert (Hd' : d = obj_get (ts_name t)
                        (own_entries (obj_get "definitions" (zodToJsonSchema t))))
      by (destruct (obj_get "definitions" _); congruence).
    subst d. unfold coalesce. destruct (nullish _); [reflexivity|].
    apply well_formed_get, well_formed_own_entries, well_formed_get, Hwf. }
  destruct (_ && _).
  - destruct (get_prop _ _) as [d|]; [|discriminate].
    intros [= <-]. apply Hdef. reflexivity.
  - destruct (truthy _).
    + destruct (get_prop _ _) as [d|]; [|discriminate].
      intros [= <-]. apply Hdef. reflexivity.
    + intros [= <-]. exact Hwf.
Qed.

(** C7 as amended: in strict mode every object-typed schema node of the
    parameters, reached through the properties of object-typed nodes and the
    item schema of array-typed nodes, has [additionalProperties: false], and
    has [required] set to the list of its property names when it has a
    [properties] object; and the example of the specification comes out as
    stated. *)
Theorem C7_strict_mode (t : ToolSchema) (spec : OpenAIToolSpec) :
  well_formed (VObj (zodToJsonSchema t)) = true ->
  getOpenAISpec t true = Some spec ->
  strict (function spec) = Some true
  /\ (forall n, schema_node (parameters (function spec)) n ->
                is_type "object" n = true -> strict_node n)
  /\ option_map (fun s => parameters (function s))
       (getOpenAISpec example_tool true)
     = Some example_schema_strict.
Proof.
  intros Hwf Hspec. unfold getOpenAISpec in Hspec.
  destruct (unwrap_schema t (zodToJsonSchema t)) as [p|] eqn:Hu;
    [|discriminate].
  injection Hspec as <-. simpl. split; [reflexivity|]. split; [|reflexivity].
  intros n Hn Hty.
  assert (Hclean : well_formed (VObj (obj_remove "$schema" (own_entries p)))
                   = true).
  { apply well_formed_remove, well_formed_own_entries.
    apply (well_formed_unwrap t p Hwf Hu). }
  destruct (strict_nodes_are_results _ n Hclean Hn) as (m' & Hwf' & ->).
  apply strict_result_node; [exact Hwf'|].
  rewrite strict_keeps_type in Hty. exact Hty.
Qed.

Definition example_strict_spec : OpenAIToolSpec :=
  {| spec_type := "function";
     function := {| fn_name := "example"; fn_description := "The example.";
                    parameters := example_schema_strict;
                    strict := Some true |} |}.

Lemma C7_strict_mode_witness :
  strict (function example_strict_spec) = Some true
  /\ (forall n, schema_node (parameters (function example_strict_spec)) n ->
                is_type "object" n = true -> strict_node n)
  /\ option_map (fun s => parameters (function s))
       (getOpenAISpec example_tool true)
     = Some example_schema_strict.
Proof.
  exact (C7_strict_mode example_tool example_strict_spec eq_refl eq_refl).
Defined.

(** C7 as stated fails on an object-typed property that has no [properties]
    of its own (a record): it gets [additionalProperties: false] and no
    [required] key. *)
Lemma C7_counterexample : ~ strict_as_stated record_tool.
Proof.
  intros H.
  destruct (H {| spec_type := "function";
                 function :=
                   {| fn_name := "records";
                      fn_description := "Stores a record.";
                      parameters :=
                        applyStrictModeTransformations record_schema;
                      strict := Some true |} |}
              [("type", VStr "object"); ("additionalProperties", VBool false)]
              eq_refl) as [_ Hreq].
  - apply (node_property _ (applyStrictModeTransformations record_schema) "m"
             (VObj [("type", VStr "object");
                    ("additionalProperties", VBool false)])).
    + apply node_root.
    + reflexivity.
    + left. reflexivity.
    + reflexivity.
  - reflexivity.
  - discriminate Hreq.
Qed.

(** *** The Anthropic specification *)

(** What [zodToJsonSchema] answers for the echo tool of the tests, under its
    name: the schema sits in [definitions]. *)
Definition draft7 : string := "http://json-schema.org/draft-07/schema#".

Definition echo_json : obj :=
  [("$ref", VStr "#/definitions/echo");
   ("definitions",
    VObj [("echo",
           VObj [("type", VStr "object");
                 ("properties", VObj [("value", VObj [("type", VStr "string")])]);
                 ("required", VArr [VStr "value"]);
                 ("additionalProperties", VBool false)])]);
   ("$schema", VStr draft7)].

Definition echo_schema_tool : ToolSchema :=
  {| ts_name := "echo"; ts_description := "Echoes the input.";
     zodToJsonSchema := echo_json |}.

(** [z.object({ value: z.string().optional() })]: nothing is required. *)
Definition optional_json : obj :=
  [("$ref", VStr "#/definitions/maybe");
   ("definitions",
    VObj [("maybe",
           VObj [("type", VStr "object");
                 ("properties", VObj [("value", VObj [("type", VStr "string")])]);
                 ("additionalProperties", VBool false)])]);
   ("$schema", VStr draft7)].

Definition optional_tool : ToolSchema :=
  {| ts_name := "maybe"; ts_description := "Echoes the input, if any.";
     zodToJsonSchema := optional_json |}.

Definition base_input_schema (cleanSchema : obj) : obj :=
  [("type", VStr "object");
   ("properties", coalesce (obj_get "properties" cleanSchema) (VObj []))].

Example echo_anthropic gt :
  getAnthropicSpec gt echo_schema_tool
  = Some {| an_name := "echo"; an_description := "Echoes the input.";
            input_schema :=
              [("type", VStr "object");
               ("properties", VObj [("value", VObj [("type", VStr "string")])]);
               ("required", VArr [VStr "value"])] |}.
Proof. reflexivity. Qed.

Example optional_anthropic gt :
  getAnthropicSpec gt optional_tool
  = Some {| an_name := "maybe";
            an_description := "Echoes the input, if any.";
            input_schema :=
              [("type", VStr "object");
               ("properties", VObj [("value", VObj [("type", VStr "string")])])] |}.
Proof. reflexivity. Qed.

(** C8: when the schema of the tool has no [required] (the key is absent, or
    holds the empty list), the [input_schema] of the Anthropic specification
    has the keys [type] and [properties] and no [required] key; when it has a
    non-empty [required] list, [input_schema.required] is that list. *)
Theorem C8_anthropic_required (gt : value -> bool) (t : ToolSchema)
    (schemaObject : value) :
  unwrap_schema t (zodToJsonSchema t) = Some schemaObject ->
  let cleanSchema := obj_remove "$schema" (own_entries schemaObject) in
  ((obj_get "required" cleanSchema = VUndefined
    \/ obj_get "required" cleanSchema = VArr []) ->
   exists spec,
     getAnthropicSpec gt t = Some spec
     /\ input_schema spec = base_input_schema cleanSchema
     /\ obj_has "required" (input_schema spec) = false)
  /\ (forall x l,
        obj_get "required" cleanSchema = VArr (x :: l) ->
        exists spec,
          getAnthropicSpec gt t = Some spec
          /\ input_schema spec
             = (base_input_schema cleanSchema
                  ++ [("required", VArr (x :: l))])%list
          /\ obj_get "required" (input_schema spec) = VArr (x :: l)).
Proof.
  intros Hu cleanSchema. unfold getAnthropicSpec. rewrite Hu.
  fold cleanSchema. split.
  - intros [Hr|Hr]; rewrite Hr; simpl; eexists; repeat split.
  - intros x l Hr. rewrite Hr. simpl. eexists. repeat split.
Qed.

Lemma C8_anthropic_required_witness :
  (exists spec,
      getAnthropicSpec (fun _ => false) optional_tool = Some spec
      /\ input_schema spec
         = [("type", VStr "object");
            ("properties", VObj [("value", VObj [("type", VStr "string")])])]
      /\ obj_has "required" (input_schema spec) = false)
  /\ (exists spec,
         getAnthropicSpec (fun _ => false) echo_schema_tool = Some spec
         /\ input_schema spec
            = [("type", VStr "object");
               ("properties", VObj [("value", VObj [("type", VStr "string")])]);
               ("required", VArr [VStr "value"])]
         /\ obj_get "required" (input_schema spec) = VArr [VStr "value"]).
Proof.
  split.
  - apply (proj1 (C8_anthropic_required (fun _ => false) optional_tool _
                    eq_refl)).
    left. reflexivity.
  - apply (proj2 (C8_anthropic_required (fun _ => false) echo_schema_tool _
                    eq_refl) (VStr "value") []).
    reflexivity.
Defined.

End Tree.

(** ** Validation errors, field by field *)

Lemma indexOf_from_lower (c : ascii) (s : string) (i : Z) :
  0 <= i -> indexOf_from c s i = -1 \/ i <= indexOf_from c s i.
Proof.
  revert i. induction s as [|c' s IH]; intros i Hi; simpl; [left; reflexivity|].
  destruct (Ascii.eqb c' c); [right; lia|].
  destruct (IH (i + 1)) as [H|H]; [lia|left; exact H|right; lia].
Qed.

Lemma indexOf_from_app (c : ascii) (p r : string) (i : Z) :
  0 <= i -> indexOf_from c p i = -1 ->
  indexOf_from c (p +:+ String c r) i = i + Z.of_nat (String.length p).
Proof.
  revert i. induction p as [|c' p IH]; intros i Hi Hp; simpl in *.
  - rewrite Ascii.eqb_refl. lia.
  - destruct (Ascii.eqb c' c); [lia|].
    rewrite IH by (lia || exact Hp). lia.
Qed.

Lemma string_take_app (p s : string) :
  string_take (String.length p) (p +:+ s) = p.
Proof. induction p as [|c p IH]; simpl; [destruct s; reflexivity|]. rewrite IH. reflexivity. Qed.

Lemma string_drop_app (p s : string) (n : nat) :
  string_drop (String.length p + n) (p +:+ s) = string_drop n s.
Proof. induction p as [|c p IH]; simpl; [reflexivity|exact IH]. Qed.

(** The message [path: message] is split again at its first colon: the split
    gives back the path and the message when the path has no colon. *)
Lemma to_field_error_path (p msg : string) :
  p <> EmptyString -> indexOf colon p = -1 ->
  to_field_error (p +:+ ": " +:+ msg) = {| field := p; message := msg |}.
Proof.
  intros Hne Hp. unfold to_field_error, indexOf.
  change (p +:+ ": " +:+ msg) with (p +:+ String colon (String " " msg)).
  rewrite indexOf_from_app by (lia || exact Hp).
  assert (Hlen : (0 < String.length p)%nat)
    by (destruct p; [congruence|simpl; lia]).
  destruct (Z.ltb_spec 0 (0 + Z.of_nat (String.length p))); [|lia].
  unfold substring2, substring1. f_equal.
  - replace (Z.to_nat (0 + Z.of_nat (String.length p) - 0))
      with (String.length p) by lia.
    simpl string_drop. apply string_take_app.
  - replace (Z.to_nat (0 + Z.of_nat (String.length p) + 2))
      with (String.length p + 2)%nat by lia.
    rewrite string_drop_app. reflexivity.
Qed.

Lemma to_field_error_root (msg : string) :
  indexOf colon msg <= 0 ->
  to_field_error msg = {| field := "_root"; message := msg |}.
Proof.
  intros H. unfold to_field_error.
  destruct (Z.ltb_spec 0 (indexOf colon msg)); [lia|reflexivity].
Qed.

(** What C6 states holds for the issues whose path and message have no colon
    in the way. *)
Lemma field_errors_without_colon (issue : ZodIssue) :
  let p := join_dot (map segment_str (path issue)) in
  indexOf colon p = -1 ->
  (p <> EmptyString ->
   to_field_error (format_issue issue)
   = {| field := p; message := issue_message issue |})
  /\ (p = EmptyString -> indexOf colon (issue_message issue) <= 0 ->
      to_field_error (format_issue issue)
      = {| field := "_root"; message := issue_message issue |}).
Proof.
  intros p Hp. unfold format_issue. fold p. split.
  - intros Hne. destruct (String.eqb_spec p EmptyString); [contradiction|].
    simpl. apply to_field_error_path; assumption.
  - intros -> Hm. simpl. apply to_field_error_root, Hm.
Qed.

Module ValidationDemo.

(** A schema whose root-level message has a colon, as the messages of Zod 4
    have ([z.object({ value: z.string() })] given a number). *)
Definition rootSchema (args : value) : SafeParseResult :=
  match args with
  | VObj o => Demo.valueSchema args
  | _ => ParseFailure
           [{| path := [];
               issue_message := "Invalid input: expected object, received number" |}]
  end.

Definition rootTool : @ExoTool Demo.World :=
  {| name := "echo"; description := "Echoes the input.";
     safeParse := rootSchema;
     executor := executor Demo.echoTool;
     config := Demo.defaultConfig |}.

(** A failure with a path: the field is the path. *)
Example nested_issue :
  to_field_error
    (format_issue {| path := [PKey "items"; PIndex 0; PKey "id"];
                     issue_message := "Required" |})
  = {| field := "items.0.id"; message := "Required" |}.
Proof. reflexivity. Qed.

(** C6 at a root-level issue whose message has a colon: the issue has no
    path, and yet the field error carries the start of the message as its
    field, not [_root], and only the rest of the message. *)
Theorem C6_root_message_split :
  Demo.run_execute rootTool (VNum 3) empty_context empty_options Demo.start
  = (Thrown (ValidationError
               ("Validation failed for tool " +:+ dquote +:+ "echo" +:+ dquote)
               [{| field := "Invalid input";
                   message := "expected object, received number" |}]
               [("args", VNum 3)]),
     Demo.start).
Proof. reflexivity. Qed.

End ValidationDemo.

(** ** The store: objects, references and the cached schema

    JavaScript keeps objects in a store and passes references; the JSON
    Schema of a tool is computed once and kept in [cachedJsonSchema], and
    what [getOpenAISpec] and [getAnthropicSpec] hand out shares objects with
    it. Here the generators are written again over the store, every [{...o}],
    [{}] and [Object.keys] allocating and every assignment updating an object
    in place. *)

Module Store.

Import Tree.

Abbreviation loc := nat.

Inductive hval : Type :=
| HUndefined
| HNull
| HBool (b : bool)
| HNum (n : Z)
| HStr (s : string)
| HRef (l : loc).

(** An object is its entries; an array is an object whose keys are its
    indices. *)
Record hobj : Type := { is_array : bool; entries : list (string * hval) }.

Abbreviation store := (list hobj).

Inductive res (A : Type) : Type :=
| Ok (a : A)
| TypeError          (* a property read on [undefined] or [null] *)
| OutOfFuel          (* the recursion went deeper than the fuel *)
| Dangling.          (* a reference to no object: never from these operations *)
Arguments Ok {A} a.
Arguments TypeError {A}.
Arguments OutOfFuel {A}.
Arguments Dangling {A}.

Definition St (A : Type) : Type := store -> res (A * store).

Definition ret {A} (a : A) : St A := fun h => Ok (a, h).
Definition raise {A} : St A := fun _ => TypeError.
Definition bind {A B} (m : St A) (f : A -> St B) : St B :=
  fun h => match m h with
           | Ok (a, h') => f a h'
           | TypeError => TypeError
           | OutOfFuel => OutOfFuel
           | Dangling => Dangling
           end.

Notation "x <- m ;; k" := (bind m (fun x => k))
  (at level 100, m at next level, right associativity).
Notation "m ;;; k" := (bind m (fun _ => k))
  (at level 100, right associativity).

Fixpoint hget (k : string) (es : list (string * hval)) : hval :=
  match es with
  | [] => HUndefined
  | (k', v) :: es' => if String.eqb k' k then v else hget k es'
  end.

Fixpoint hset (k : string) (v : hval) (es : list (string * hval))
    : list (string * hval) :=
  match es with
  | [] => [(k, v)]
  | (k', v') :: es' =>
      if String.eqb k' k then (k', v) :: es' else (k', v') :: hset k v es'
  end.

Definition hkeys (es : list (string * hval)) : list string := map fst es.

Definition hremove (k : string) (es : list (string * hval))
    : list (string * hval) :=
  filter (fun kv => negb (String.eqb (fst kv) k) = true) es.

Definition nullish_h (v : hval) : bool :=
  match v with HUndefined | HNull => true | _ => false end.

Definition truthy_h (v : hval) : bool :=
  match v with
  | HUndefined | HNull => false
  | HBool b => b
  | HNum n => negb (n =? 0)
  | HStr s => negb (String.eqb s EmptyString)
  | HRef _ => true
  end.

Definition is_str (ty : string) (v : hval) : bool :=
  match v with HStr s => String.eqb s ty | _ => false end.

(** [{ k1: v1, ... }] and [[x0, x1, ...]]: a new object, last in the store. *)
Definition new_object (es : list (string * hval)) : St loc :=
  fun h => Ok (length h, (h ++ [{| is_array := false; entries := es |}])%list).

Definition new_array (elems : list hval) : St loc :=
  fun h => Ok (length h,
               (h ++ [{| is_array := true;
                         entries := imap (fun i x => (pretty i, x)) elems |}])%list).

Definition read (l : loc) : St hobj :=
  fun h => match h !! l with
           | Some o => Ok (o, h)
           | None => Dangling
           end.

(** [o[k] = v], in place. *)
Definition set_prop (l : loc) (k : string) (v : hval) : St unit :=
  fun h => match h !! l with
           | Some o =>
               Ok (tt, <[l := {| is_array := is_array o;
                                 entries := hset k v (entries o) |}]> h)
           | None => Dangling
           end.

Definition own_entries (v : hval) : St (list (string * hval)) :=
  match v with
  | HRef l => o <- read l ;; ret (entries o)
  | HStr s =>
      ret (imap (fun i c => (pretty i, HStr (String c EmptyString)))
             (list_ascii_of_string s))
  | _ => ret []
  end.

Definition get_prop (v : hval) (k : string) : St hval :=
  match v with
  | HUndefined | HNull => raise
  | _ => es <- own_entries v ;; ret (hget k es)
  end.

(** [v ?? {}] *)
Definition or_empty_object (v : hval) : St hval :=
  if nullish_h v then l <- new_object [] ;; ret (HRef l) else ret v.

Fixpoint for_each {A} (l : list A) (body : A -> St unit) : St unit :=
  match l with
  | [] => ret tt
  | x :: l' => body x ;;; for_each l' body
  end.

Fixpoint applyStrictModeTransformations (fuel : nat) (schema : loc) : St loc :=
  match fuel with
  | O => fun _ => OutOfFuel
  | S n =>
      source <- read schema ;;
      result <- new_object (entries source) ;;
      type <- get_prop (HRef result) "type" ;;
      (if is_str "object" type then
         set_prop result "additionalProperties" (HBool false) ;;;
         properties <- get_prop (HRef result) "properties" ;;
         match properties with
         | HRef p =>
             props <- read p ;;
             propertyNames <- new_array (map HStr (hkeys (entries props))) ;;
             set_prop result "required" (HRef propertyNames) ;;;
             transformedProperties <- new_object [] ;;
             for_each (entries props)
               (fun kv =>
                  match snd kv with
                  | HRef child =>
                      r <- applyStrictModeTransformations n child ;;
                      set_prop transformedProperties (fst kv) (HRef r)
                  | v => set_prop transformedProperties (fst kv) v
                  end) ;;;
             set_prop result "properties" (HRef transformedProperties)
         | _ => ret tt
         end
       else ret tt) ;;;
      type <- get_prop (HRef result) "type" ;;
      items <- get_prop (HRef result) "items" ;;
      (if is_str "array" type && truthy_h items then
         match items with
         | HRef child =>
             r <- applyStrictModeTransformations n child ;;
             set_prop result "items" (HRef r)
         | _ => ret tt
         end
       else ret tt) ;;;
      ret result
  end.

(** [zodToJsonSchema] builds its answer out of new objects. *)
Fixpoint alloc_value (v : value) (h : store) : hval * store :=
  match v with
  | VUndefined => (HUndefined, h)
  | VNull => (HNull, h)
  | VBool b => (HBool b, h)
  | VNum n => (HNum n, h)
  | VStr s => (HStr s, h)
  | VArr l =>
      let '(hs, h1) :=
        (fix elems (l : list value) (h : store) : list hval * store :=
           match l with
           | [] => ([], h)
           | x :: l' =>
               let '(hx, h1) := alloc_value x h in
               let '(hl, h2) := elems l' h1 in
               (hx :: hl, h2)
           end) l h in
      (HRef (length h1),
       (h1 ++ [{| is_array := true;
                  entries := imap (fun i x => (pretty i, x)) hs |}])%list)
  | VObj o =>
      let '(es, h1) :=
        (fix fields (o : obj) (h : store) : list (string * hval) * store :=
           match o with
           | [] => ([], h)
           | kv :: o' =>
               let '(hx, h1) := alloc_value (snd kv) h in
               let '(hl, h2) := fields o' h1 in
               ((fst kv, hx) :: hl, h2)
           end) o h in
      (HRef (length h1),
       (h1 ++ [{| is_array := false; entries := es |}])%list)
  end.

Record OpenAIToolSpec : Type := {
  fn_name : string;
  fn_description : string;
  parameters : loc;
  strict : option bool;
}.

Record AnthropicToolSpec : Type := {
  an_name : string;
  an_description : string;
  input_schema : loc;
}.

Section Generators.

Variable t : ToolSchema.

(** [x > 0] for a string or an object, by JavaScript's coercion. *)
Variable coerced_gt_zero : store -> hval -> bool.

Definition getJsonSchema (cachedJsonSchema : option loc)
    : St (loc * option loc) :=
  match cachedJsonSchema with
  | None =>
      fun h => match alloc_value (VObj (zodToJsonSchema t)) h with
               | (HRef l, h') => Ok ((l, Some l), h')
               | _ => Dangling
               end
  | Some l => ret (l, cachedJsonSchema)
  end.

Definition unwrap_schema (jsonSchema : loc) : St hval :=
  js <- read jsonSchema ;;
  let definitions := hget "definitions" (entries js) in
  match definitions with
  | HRef _ =>
      d <- get_prop definitions (ts_name t) ;; or_empty_object d
  | _ =>
      if truthy_h (hget "$ref" (entries js)) then
        d <- get_prop definitions (ts_name t) ;; or_empty_object d
      else
        copy <- new_object (entries js) ;; ret (HRef copy)
  end.

Definition getOpenAISpec (fuel : nat) (strict : bool)
    (cachedJsonSchema : option loc) : St (OpenAIToolSpec * option loc) :=
  c <- getJsonSchema cachedJsonSchema ;;
  parameters <- unwrap_schema (fst c) ;;
  es <- own_entries parameters ;;
  cleanParameters <- new_object (hremove "$schema" es) ;;
  finalParameters <-
    (if strict then applyStrictModeTransformations fuel cleanParameters
     else ret cleanParameters) ;;
  ret ({| fn_name := ts_name t; fn_description := ts_description t;
          parameters := finalParameters;
          strict := if strict then Some true else None |},
       snd c).

Definition gt_zero (x : hval) : St bool :=
  match x with
  | HNum n => ret (0 <? n)
  | HBool b => ret b
  | HUndefined | HNull => ret false
  | _ => fun h => Ok (coerced_gt_zero h x, h)
  end.

Definition js_length (v : hval) : St hval :=
  match v with
  | HUndefined | HNull => raise
  | HStr s => ret (HNum (Z.of_nat (String.length s)))
  | HRef l =>
      o <- read l ;;
      if is_array o then ret (HNum (Z.of_nat (length (entries o))))
      else ret (hget "length" (entries o))
  | _ => ret HUndefined
  end.

Definition getAnthropicSpec (cachedJsonSchema : option loc)
    : St (AnthropicToolSpec * option loc) :=
  c <- getJsonSchema cachedJsonSchema ;;
  schemaObject <- unwrap_schema (fst c) ;;
  es <- own_entries schemaObject ;;
  cleanSchema <- new_object (hremove "$schema" es) ;;
  requiredFields <- get_prop (HRef cleanSchema) "required" ;;
  properties <- get_prop (HRef cleanSchema) "properties" ;;
  properties <- or_empty_object properties ;;
  inputSchema <- new_object [("type", HStr "object");
                             ("properties", properties)] ;;
  match requiredFields with
  | HUndefined => ret tt
  | _ =>
      len <- js_length requiredFields ;;
      positive <- gt_zero len ;;
      if positive then set_prop inputSchema "required" requiredFields
      else ret tt
  end ;;;
  ret ({| an_name := ts_name t; an_description := ts_description t;
          input_schema := inputSchema |},
       snd c).

End Generators.

(** Reading a value back out of the store, down to a depth. *)
Fixpoint reify (fuel : nat) (h : store) (v : hval) : option value :=
  match v with
  | HUndefined => Some VUndefined
  | HNull => Some VNull
  | HBool b => Some (VBool b)
  | HNum n => Some (VNum n)
  | HStr s => Some (VStr s)
  | HRef l =>
      match fuel with
      | O => None
      | S n =>
          match h !! l with
          | None => None
          | Some o =>
              let values :=
                mapM (fun kv => x ← reify n h (snd kv); Some (fst kv, x))
                  (entries o) in
              if is_array o then option_map (fun es => VArr (map snd es)) values
              else option_map VObj values
          end
      end
  end.

(** *** What a reference stands for

    [repr_in P h v x]: in the store [h], the store value [v] stands for the
    tree [x], through objects at locations in [P] only. *)

Fixpoint repr_in (P : loc -> Prop) (h : store) (v : hval) (x : value)
    {struct x} : Prop :=
  match x with
  | VUndefined => v = HUndefined
  | VNull => v = HNull
  | VBool b => v = HBool b
  | VNum n => v = HNum n
  | VStr s => v = HStr s
  | VArr xs =>
      exists l es,
        v = HRef l /\ P l
        /\ h !! l = Some {| is_array := true; entries := es |}
        /\ (fix elems (i : nat) (es : list (string * hval)) (xs : list value)
              {struct xs} : Prop :=
              match es, xs with
              | [], [] => True
              | e :: es', x :: xs' =>
                  fst e = pretty i /\ repr_in P h (snd e) x
                  /\ elems (S i) es' xs'
              | _, _ => False
              end) O es xs
  | VObj o =>
      exists l es,
        v = HRef l /\ P l
        /\ h !! l = Some {| is_array := false; entries := es |}
        /\ (fix fields (es : list (string * hval)) (o : obj) {struct o}
              : Prop :=
              match es, o with
              | [], [] => True
              | e :: es', f :: o' =>
                  fst e = fst f /\ repr_in P h (snd e) (snd f)
                  /\ fields es' o'
              | _, _ => False
              end) es o
  end.

Definition repr (h : store) (v : hval) (x : value) : Prop :=
  repr_in (fun _ => True) h v x.

Definition entry_repr (P : loc -> Prop) (h : store) (e : string * hval)
    (f : string * value) : Prop :=
  fst e = fst f /\ repr_in P h (snd e) (snd f).

Definition is_arr (x : value) : bool :=
  match x with VArr _ => true | _ => false end.

Lemma repr_in_obj P h v o :
  repr_in P h v (VObj o) <->
  exists l es, v = HRef l /\ P l
               /\ h !! l = Some {| is_array := false; entries := es |}
               /\ Forall2 (entry_repr P h) es o.
Proof.
  simpl. split; intros (l & es & Hv & HP & Hl & H); exists l, es;
    (split; [exact Hv|]); (split; [exact HP|]); (split; [exact Hl|]);
    clear Hl.
  - revert es H. induction o as [|f o IH]; intros [|e es] H;
      try contradiction; constructor.
    + split; apply H.
    + apply IH, H.
  - induction H as [|e f es o [He Hr] _ IH]; [exact I|].
    split; [exact He|]. split; [exact Hr|exact IH].
Qed.

Lemma repr_elems P h (xs : list value) (i : nat) (es : list (string * hval)) :
  (fix elems (i : nat) (es : list (string * hval)) (xs : list value)
     {struct xs} : Prop :=
     match es, xs with
     | [], [] => True
     | e :: es', x :: xs' =>
         fst e = pretty i /\ repr_in P h (snd e) x /\ elems (S i) es' xs'
     | _, _ => False
     end) i es xs
  <-> Forall2 (entry_repr P h) es
        (imap (fun (j : nat) (x : value) => (pretty (i + j)%nat, x)) xs).
Proof.
  revert i es. induction xs as [|x xs IH]; intros i [|e es]; simpl.
  - split; [constructor|exact (fun _ => I)].
  - split; [contradiction|intros H; inversion H].
  - split; [contradiction|intros H; inversion H].
  - rewrite (IH (S i) es), Nat.add_0_r. split.
    + intros (He & Hr & Hrest). constructor; [split; assumption|].
      erewrite imap_ext; [exact Hrest|].
      intros j y _. simpl. f_equal. f_equal. lia.
    + intros H. inversion H as [|? ? ? ? [He Hr] Hrest]; subst.
      split; [exact He|]. split; [exact Hr|].
      erewrite imap_ext; [exact Hrest|].
      intros j y _. simpl. f_equal. f_equal. lia.
Qed.

Lemma repr_in_arr P h v xs :
  repr_in P h v (VArr xs) <->
  exists l es, v = HRef l /\ P l
               /\ h !! l = Some {| is_array := true; entries := es |}
               /\ Forall2 (entry_repr P h) es (Tree.own_entries (VArr xs)).
Proof.
  simpl. split; intros (l & es & Hv & HP & Hl & H); exists l, es;
    (split; [exact Hv|]); (split; [exact HP|]); (split; [exact Hl|]);
    apply (repr_elems P h xs 0 es); exact H.
Qed.

Lemma repr_in_object P h v x :
  is_object x = true ->
  repr_in P h v x <->
  exists l es, v = HRef l /\ P l
               /\ h !! l = Some {| is_array := is_arr x; entries := es |}
               /\ Forall2 (entry_repr P h) es (Tree.own_entries x).
Proof.
  destruct x; try discriminate; intros ?.
  - apply repr_in_arr.
  - apply repr_in_obj.
Qed.

Lemma repr_in_primitive P h v x :
  is_object x = false ->
  repr_in P h v x <->
  v = match x with
      | VUndefined => HUndefined
      | VNull => HNull
      | VBool b => HBool b
      | VNum n => HNum n
      | VStr s => HStr s
      | _ => HUndefined
      end.
Proof. destruct x; try discriminate; intros _; reflexivity. Qed.

Lemma repr_in_ref_object P h l x : repr_in P h (HRef l) x -> is_object x = true.
Proof. destruct x; simpl; try discriminate; reflexivity. Qed.

(** By the depth of the tree. *)
Lemma value_depth_ind (Q : value -> Prop) :
  (forall x, (forall y, (depth y < depth x)%nat -> Q y) -> Q x) ->
  forall x, Q x.
Proof.
  intros H x. remember (depth x) as n eqn:Hn.
  revert x Hn. induction n as [n IH] using lt_wf_ind.
  intros x ->. apply H. intros y Hy. apply (IH (depth y) Hy y eq_refl).
Qed.

Lemma depth_own_entry (x : value) (k : string) (y : value) :
  is_object x = true ->
  In (k, y) (Tree.own_entries x) -> (depth y < depth x)%nat.
Proof.
  intros Hobj Hin. destruct x as [| |b|n|s|l|o]; try discriminate;
    simpl in Hin.
  - apply (imap_entries_in (fun i => pretty i) (fun x => x)) in Hin
      as (x & Hx & ->).
    simpl. clear -Hx. induction l as [|a l IH]; simpl in *; [contradiction|].
    destruct Hx as [->|Hx]; [lia|]. specialize (IH Hx). lia.
  - apply (depth_entry k y o Hin).
Qed.

(** A representation stays one when the store changes elsewhere. *)
Lemma repr_in_change (P Q : loc -> Prop) (h h' : store) (v : hval) (x : value) :
  (forall l, P l -> Q l) ->
  (forall l, P l -> h' !! l = h !! l) ->
  repr_in P h v x -> repr_in Q h' v x.
Proof.
  intros HPQ Hsame. revert v. induction x as [x IH] using value_depth_ind.
  intros v Hr. destruct (is_object x) eqn:Hx.
  - apply (repr_in_object _ _ _ _ Hx) in Hr as (l & es & -> & HP & Hl & Hes).
    apply (repr_in_object _ _ _ _ Hx). exists l, es.
    split; [reflexivity|]. split; [apply HPQ, HP|].
    split; [rewrite Hsame by exact HP; exact Hl|].
    assert (Hin : forall f, In f (Tree.own_entries x) ->
                            (depth (snd f) < depth x)%nat).
    { intros [k y] Hf. apply (depth_own_entry x k y Hx Hf). }
    clear Hl. induction Hes as [|e f es o [He Hr] _ IHes]; constructor.
    + split; [exact He|]. apply IH; [|exact Hr]. apply Hin. left. reflexivity.
    + apply IHes. intros g Hg. apply Hin. right. exact Hg.
  - apply (repr_in_primitive _ _ _ _ Hx) in Hr.
    apply (repr_in_primitive _ _ _ _ Hx). exact Hr.
Qed.

Arguments get_prop : simpl never.
Arguments own_entries : simpl never.
Arguments set_prop : simpl never.
Arguments new_object : simpl never.
Arguments new_array : simpl never.
Arguments read : simpl never.
Arguments or_empty_object : simpl never.
Arguments bind : simpl never.
Arguments ret : simpl never.
Arguments raise : simpl never.

(** *** What a call leaves alone

    [hoare pre m post]: when [m] returns from a store in [pre], the result
    and the store after are in [post]. *)

Definition hoare {A} (pre : store -> Prop) (m : St A)
    (post : A -> store -> Prop) : Prop :=
  forall h, pre h -> forall a h', m h = Ok (a, h') -> post a h'.

Lemma hoare_bind {A B} (pre : store -> Prop) (m : St A)
    (mid : A -> store -> Prop) (f : A -> St B) (post : B -> store -> Prop) :
  hoare pre m mid -> (forall a, hoare (mid a) (f a) post) ->
  hoare pre (bind m f) post.
Proof.
  intros Hm Hf h Hpre b h' Hrun. unfold bind in Hrun.
  destruct (m h) as [[a h1]| | |] eqn:Hmh; try discriminate.
  apply (Hf a h1 (Hm h Hpre a h1 Hmh) b h' Hrun).
Qed.

Lemma hoare_ret {A} (a : A) (pre : store -> Prop) (post : A -> store -> Prop) :
  (forall h, pre h -> post a h) -> hoare pre (ret a) post.
Proof. intros H h Hpre b h' [= <- <-]. apply H, Hpre. Qed.

Lemma hoare_raise {A} (pre : store -> Prop) (post : A -> store -> Prop) :
  hoare pre raise post.
Proof. intros h _ a h' Hrun. discriminate. Qed.

Lemma hoare_pure {A} (phi : Prop) (pre : store -> Prop) (m : St A)
    (post : A -> store -> Prop) :
  (phi -> hoare pre m post) -> hoare (fun h => pre h /\ phi) m post.
Proof. intros H h [Hpre Hphi]. apply (H Hphi h Hpre). Qed.

(** The objects below [b] are in [h'] what they are in [h]. *)
Definition unchanged_below (b : nat) (h h' : store) : Prop :=
  (length h <= length h')%nat /\ forall l, (l < b)%nat -> h' !! l = h !! l.

Lemma unchanged_below_refl b h : unchanged_below b h h.
Proof. split; [lia|reflexivity]. Qed.

Lemma unchanged_below_trans b h1 h2 h3 :
  unchanged_below b h1 h2 -> unchanged_below b h2 h3 ->
  unchanged_below b h1 h3.
Proof.
  intros [L1 H1] [L2 H2]. split; [lia|].
  intros l Hl. rewrite H2, H1 by exact Hl. reflexivity.
Qed.

Lemma unchanged_below_le b b' h h' :
  (b' <= b)%nat -> unchanged_below b h h' -> unchanged_below b' h h'.
Proof. intros Hb [L H]. split; [exact L|]. intros l Hl. apply H. lia. Qed.

Lemma unchanged_below_snoc (h : store) (o : hobj) :
  unchanged_below (length h) h (h ++ [o])%list.
Proof.
  split; [rewrite length_app; simpl; lia|].
  intros l Hl. apply lookup_app_l, Hl.
Qed.

Lemma unchanged_below_insert b (h : store) l (o : hobj) :
  (b <= l)%nat -> unchanged_below b h (<[l := o]> h).
Proof.
  intros Hb. split; [rewrite length_insert; lia|].
  intros l' Hl'. apply list_lookup_insert_ne. lia.
Qed.

Section Frame.

(** The invariant of a call that started in [h0], whose objects below [b]
    it must leave alone. *)
Variable b : nat.
Variable h0 : store.
Hypothesis Hb : (b <= length h0)%nat.

Definition kept (h : store) : Prop := unchanged_below b h0 h.

Lemma kept_bound h : kept h -> (b <= length h)%nat.
Proof. intros [L _]. lia. Qed.

Lemma kept_read l : hoare kept (read l) (fun _ => kept).
Proof.
  intros h Hk o h' Hrun. unfold read in Hrun.
  destruct (h !! l) as [o'|]; [|discriminate]. inversion Hrun; subst.
  exact Hk.
Qed.

Lemma kept_new_object es :
  hoare kept (new_object es) (fun r h => kept h /\ (b <= r)%nat).
Proof.
  intros h Hk r h' [= <- <-]. split; [|apply kept_bound, Hk].
  eapply unchanged_below_trans; [exact Hk|].
  eapply unchanged_below_le; [|apply unchanged_below_snoc].
  apply kept_bound, Hk.
Qed.

Lemma kept_new_array elems :
  hoare kept (new_array elems) (fun r h => kept h /\ (b <= r)%nat).
Proof.
  intros h Hk r h' [= <- <-]. split; [|apply kept_bound, Hk].
  eapply unchanged_below_trans; [exact Hk|].
  eapply unchanged_below_le; [|apply unchanged_below_snoc].
  apply kept_bound, Hk.
Qed.

Lemma kept_set_prop l k v :
  (b <= l)%nat -> hoare kept (set_prop l k v) (fun _ => kept).
Proof.
  intros Hl h Hk [] h' Hrun. unfold set_prop in Hrun.
  destruct (h !! l) as [o|]; [|discriminate]. inversion Hrun; subst h'.
  eapply unchanged_below_trans; [exact Hk|].
  apply unchanged_below_insert, Hl.
Qed.

Lemma kept_own_entries v : hoare kept (own_entries v) (fun _ => kept).
Proof.
  unfold own_entries. destruct v; try (apply hoare_ret; auto).
  eapply hoare_bind; [apply kept_read|].
  intros o. apply hoare_ret. auto.
Qed.

Lemma kept_get_prop v k : hoare kept (get_prop v k) (fun _ => kept).
Proof.
  unfold get_prop. destruct v; cbv beta iota; try apply hoare_raise;
    (eapply hoare_bind; [apply kept_own_entries|]);
    intros es; apply hoare_ret; auto.
Qed.

Lemma kept_or_empty_object v : hoare kept (or_empty_object v) (fun _ => kept).
Proof.
  unfold or_empty_object. destruct (nullish_h v); [|apply hoare_ret; auto].
  eapply hoare_bind; [apply kept_new_object|].
  intros l. apply hoare_ret. intros h [Hk _]. exact Hk.
Qed.

Lemma kept_for_each {A} (l : list A) (body : A -> St unit) :
  (forall x, hoare kept (body x) (fun _ => kept)) ->
  hoare kept (for_each l body) (fun _ => kept).
Proof.
  intros Hbody. induction l as [|x l IH]; simpl.
  - apply hoare_ret. auto.
  - eapply hoare_bind; [apply Hbody|]. intros ?. exact IH.
Qed.

End Frame.

(** Whatever the store, [applyStrictModeTransformations] writes to the
    objects it creates only, and returns one of them. *)
Lemma strict_kept (n : nat) (schema : loc) (b : nat) (h0 : store) :
  (b <= length h0)%nat ->
  hoare (kept b h0) (applyStrictModeTransformations n schema)
    (fun r h => kept b h0 h /\ (b <= r)%nat).
Proof.
  intros Hb. revert schema. induction n as [|n IH]; intros schema.
  - intros h _ r h' Hrun. discriminate.
  - simpl.
    eapply hoare_bind; [apply kept_read|]. intros source.
    eapply hoare_bind; [apply (kept_new_object _ _ Hb)|]. intros result.
    apply hoare_pure. intros Hresult.
    eapply hoare_bind; [apply kept_get_prop|]. intros type.
    eapply hoare_bind with (mid := fun _ => kept b h0).
    { destruct (is_str "object" type); [|apply hoare_ret; auto].
      eapply hoare_bind; [apply kept_set_prop, Hresult|]. intros ?.
      eapply hoare_bind; [apply kept_get_prop|]. intros properties.
      destruct properties; try (apply hoare_ret; auto).
      eapply hoare_bind; [apply kept_read|]. intros props.
      eapply hoare_bind; [apply (kept_new_array _ _ Hb)|]. intros names.
      apply hoare_pure. intros ?.
      eapply hoare_bind; [apply kept_set_prop, Hresult|]. intros ?.
      eapply hoare_bind; [apply (kept_new_object _ _ Hb)|]. intros transformed.
      apply hoare_pure. intros Htransformed.
      eapply hoare_bind.
      { apply kept_for_each. intros [k v]. simpl.
        destruct v; try (apply kept_set_prop, Htransformed).
        eapply hoare_bind; [apply IH|]. intros r.
        apply hoare_pure. intros ?. apply kept_set_prop, Htransformed. }
      intros ?. apply kept_set_prop, Hresult. }
    intros ?.
    eapply hoare_bind; [apply kept_get_prop|]. intros type'.
    eapply hoare_bind; [apply kept_get_prop|]. intros items.
    eapply hoare_bind with (mid := fun _ => kept b h0).
    { destruct (is_str "array" type' && truthy_h items);
        [|apply hoare_ret; auto].
      destruct items; try (apply hoare_ret; auto).
      eapply hoare_bind; [apply IH|]. intros r.
      apply hoare_pure. intros ?. apply kept_set_prop, Hresult. }
    intros ?. apply hoare_ret. auto.
Qed.

(** *** Entries of the store against entries of the tree *)

Lemma entries_get P h es o k :
  Forall2 (entry_repr P h) es o -> repr_in P h (hget k es) (obj_get k o).
Proof.
  induction 1 as [|[k1 v] [k2 x] es o [Hk Hr] _ IH]; simpl; [reflexivity|].
  simpl in Hk, Hr. subst k2. destruct (String.eqb k1 k); assumption.
Qed.

Lemma entries_set P h es o k v x :
  Forall2 (entry_repr P h) es o -> repr_in P h v x ->
  Forall2 (entry_repr P h) (hset k v es) (obj_set k x o).
Proof.
  intros H Hv. induction H as [|[k1 v1] [k2 x1] es o [Hk Hr] H IH]; simpl.
  - constructor; [split; [reflexivity|exact Hv]|constructor].
  - simpl in Hk, Hr. subst k2. destruct (String.eqb k1 k).
    + constructor; [split; [reflexivity|exact Hv]|exact H].
    + constructor; [split; [reflexivity|exact Hr]|exact IH].
Qed.

Lemma entries_keys P h es o :
  Forall2 (entry_repr P h) es o -> hkeys es = obj_keys o.
Proof.
  induction 1 as [|e f es o [Hk _] _ IH]; simpl; [reflexivity|].
  rewrite Hk. f_equal. exact IH.
Qed.

Lemma entries_remove P h es o k :
  Forall2 (entry_repr P h) es o ->
  Forall2 (entry_repr P h) (hremove k es) (obj_remove k o).
Proof.
  induction 1 as [|e f es o [Hk Hr] _ IH]; [constructor|].
  unfold hremove, obj_remove, filter. simpl. rewrite Hk.
  destruct (decide _); [constructor; [split; assumption|]|]; exact IH.
Qed.

Lemma entries_change (P Q : loc -> Prop) (h h' : store) es o :
  (forall l, P l -> Q l) ->
  (forall l, P l -> h' !! l = h !! l) ->
  Forall2 (entry_repr P h) es o -> Forall2 (entry_repr Q h') es o.
Proof.
  intros HPQ Hsame. induction 1 as [|e f es o [Hk Hr] _ IH]; constructor.
  - split; [exact Hk|]. apply (repr_in_change P Q h h'); assumption.
  - exact IH.
Qed.

Lemma repr_in_ref P h v x :
  repr_in P h v x -> is_object x = match v with HRef _ => true | _ => false end.
Proof.
  destruct x; simpl; try (intros ->; reflexivity);
    intros (l & es & -> & _); reflexivity.
Qed.

Lemma repr_in_truthy P h v x : repr_in P h v x -> truthy_h v = truthy x.
Proof.
  destruct x; simpl; try (intros ->; reflexivity);
    intros (l & es & -> & _); reflexivity.
Qed.

Lemma repr_in_nullish P h v x : repr_in P h v x -> nullish_h v = nullish x.
Proof.
  destruct x; simpl; try (intros ->; reflexivity);
    intros (l & es & -> & _); reflexivity.
Qed.

Lemma repr_in_is_str P h es o ty :
  Forall2 (entry_repr P h) es o ->
  is_str ty (hget "type" es) = is_type ty o.
Proof.
  intros H. pose proof (entries_get P h es o "type" H) as Hr.
  unfold is_type. destruct (obj_get "type" o); simpl in Hr;
    try (rewrite Hr; reflexivity);
    destruct Hr as (l & es' & -> & _); reflexivity.
Qed.

(** *** Running the operations *)

Lemma bind_run {A B} (m : St A) (f : A -> St B) h a h1 :
  m h = Ok (a, h1) -> bind m f h = f a h1.
Proof. intros H. unfold bind. rewrite H. reflexivity. Qed.

Lemma read_run (h : store) l o : h !! l = Some o -> read l h = Ok (o, h).
Proof. intros H. unfold read. rewrite H. reflexivity. Qed.

Lemma get_prop_run (h : store) l o k :
  h !! l = Some o -> get_prop (HRef l) k h = Ok (hget k (entries o), h).
Proof.
  intros H. unfold get_prop, own_entries.
  rewrite (bind_run _ _ h (entries o) h); [reflexivity|].
  rewrite (bind_run _ _ h o h (read_run h l o H)). reflexivity.
Qed.

Lemma set_prop_run (h : store) l o k v :
  h !! l = Some o ->
  set_prop l k v h
  = Ok (tt, <[l := {| is_array := is_array o;
                      entries := hset k v (entries o) |}]> h).
Proof. intros H. unfold set_prop. rewrite H. reflexivity. Qed.

Lemma lookup_snoc (h : store) (o : hobj) : (h ++ [o])%list !! length h = Some o.
Proof. rewrite lookup_app_r by lia. rewrite Nat.sub_diag. reflexivity. Qed.

Lemma lookup_snoc_old (h : store) (o : hobj) l :
  (l < length h)%nat -> (h ++ [o])%list !! l = h !! l.
Proof. intros H. apply lookup_app_l, H. Qed.

(** *** The store follows the tree

    On a store where [schema] stands for the tree [x], through objects below
    [B], the call returns a new object that stands for what the function on
    trees gives, through objects below [B] and objects the call created. *)

Definition below (B : nat) : loc -> Prop := fun l => (l < B)%nat.

Definition strict_spec (n : nat) : Prop :=
  forall (B : nat) (schema : loc) (x : value) (h : store),
    is_object x = true -> (depth x <= n)%nat -> (B <= length h)%nat ->
    repr_in (below B) h (HRef schema) x ->
    exists r h',
      applyStrictModeTransformations n schema h = Ok (r, h')
      /\ unchanged_below (length h) h h'
      /\ repr_in (fun l => (l < B)%nat \/ (length h <= l < length h')%nat) h'
           (HRef r)
           (VObj (Tree.applyStrictModeTransformations (Tree.own_entries x))).

(** The body of the loop over the entries of the properties. *)
Definition transform_step (rec : loc -> St loc) (T : loc)
    (kv : string * hval) : St unit :=
  match snd kv with
  | HRef child => r <- rec child ;; set_prop T (fst kv) (HRef r)
  | v => set_prop T (fst kv) v
  end.

Lemma names_entries P (h : store) (f : nat -> string) (names : list string) :
  Forall2 (entry_repr P h)
    (imap (fun i x => (f i, x)) (map HStr names))
    (imap (fun i x => (f i, x)) (map VStr names)).
Proof.
  revert f. induction names as [|a names IH]; intros f; simpl; constructor.
  - split; reflexivity.
  - exact (IH (fun i => f (S i))).
Qed.

Lemma names_repr P (h : store) N (names : list string) :
  P N ->
  h !! N = Some {| is_array := true;
                   entries := imap (fun i x => (pretty i, x))
                                (map HStr names) |} ->
  repr_in P h (HRef N) (VArr (map VStr names)).
Proof.
  intros HP HN. apply repr_in_arr. eexists _, _.
  split; [reflexivity|]. split; [exact HP|]. split; [exact HN|].
  apply names_entries.
Qed.

Lemma loop_refines (n B T : nat) :
  strict_spec n -> (B <= T)%nat ->
  forall (pes : list (string * hval)) (pfs : obj) (h : store)
         (tes : list (string * hval)) (acc : obj),
    Forall2 (entry_repr (below B) h) pes pfs ->
    (forall k x, In (k, x) pfs -> is_object x = true -> (depth x <= n)%nat) ->
    (T < length h)%nat ->
    h !! T = Some {| is_array := false; entries := tes |} ->
    Forall2 (entry_repr (fun l => (l < B)%nat \/ (T < l < length h)%nat) h)
      tes acc ->
    exists h' tes',
      for_each pes (transform_step (applyStrictModeTransformations n) T) h
      = Ok (tt, h')
      /\ (length h <= length h')%nat
      /\ (forall l, (l < length h)%nat -> l <> T -> h' !! l = h !! l)
      /\ h' !! T = Some {| is_array := false; entries := tes' |}
      /\ Forall2
           (entry_repr (fun l => (l < B)%nat \/ (T < l < length h')%nat) h')
           tes'
           (fold_left (transform_entry Tree.applyStrictModeTransformations)
              pfs acc).
Proof.
  intros Hspec HBT pes.
  induction pes as [|[k v] pes IH]; intros pfs h tes acc HF Hdepth HT HhT Hacc.
  - inversion HF; subst. exists h, tes. simpl.
    split; [reflexivity|]. split; [lia|]. split; [reflexivity|].
    split; assumption.
  - inversion HF as [|? [k' x] ? pfs' [Hk Hv] HF']; subst. simpl in Hk, Hv.
    subst k'. simpl fold_left. unfold transform_entry at 2. simpl fst.
    simpl snd.
    assert (Hrest : forall k0 x0, In (k0, x0) pfs' -> is_object x0 = true ->
                                  (depth x0 <= n)%nat).
    { intros k0 x0 Hin. apply (Hdepth k0 x0). right. exact Hin. }
    pose proof (repr_in_ref _ _ _ _ Hv) as Hobj.
    destruct (is_object x) eqn:Hx.
    + destruct v as [| | | | |c]; try discriminate.
      destruct (Hspec B c x h Hx (Hdepth k x (or_introl eq_refl) Hx)
                  ltac:(lia) Hv) as (r & h1 & Hrun & [Hlen Hsame] & Hr).
      assert (HT1 : h1 !! T = Some {| is_array := false; entries := tes |})
        by (rewrite Hsame by exact HT; exact HhT).
      set (h2 := <[T := {| is_array := false;
                           entries := hset k (HRef r) tes |}]> h1).
      assert (Hl2 : length h2 = length h1) by apply length_insert.
      assert (Hh2 : forall l, l <> T -> h2 !! l = h1 !! l)
        by (intros l Hl; apply list_lookup_insert_ne; congruence).
      destruct (IH pfs' h2 (hset k (HRef r) tes)
                  (obj_set k
                     (VObj (Tree.applyStrictModeTransformations
                              (Tree.own_entries x))) acc))
        as (h' & tes' & Hloop & Hlen' & Hsame' & HT' & Hfinal).
      * apply (entries_change (below B) (below B) h h2); [auto| |exact HF'].
        intros l Hl. unfold below in Hl.
        rewrite Hh2, Hsame by lia. reflexivity.
      * exact Hrest.
      * lia.
      * apply list_lookup_insert_eq. lia.
      * apply entries_set.
        -- eapply entries_change; [| |exact Hacc].
           ++ intros l Hl. simpl in Hl |- *. lia.
           ++ intros l Hl. simpl in Hl. rewrite Hh2, Hsame by lia. reflexivity.
        -- eapply repr_in_change; [| |exact Hr].
           ++ intros l Hl. simpl in Hl |- *. lia.
           ++ intros l Hl. simpl in Hl. apply Hh2. lia.
      * exists h', tes'. split.
        { simpl for_each.
          rewrite (bind_run _ _ h tt h2); [exact Hloop|].
          unfold transform_step. cbn [fst snd].
          rewrite (bind_run _ _ h r h1 Hrun).
          rewrite (set_prop_run h1 T _ k (HRef r) HT1). reflexivity. }
        split; [lia|]. split; [|split; assumption].
        intros l Hl HlT. rewrite Hsame' by (lia || exact HlT).
        rewrite Hh2, Hsame by (lia || exact HlT). reflexivity.
    + assert (Hstep : transform_step (applyStrictModeTransformations n) T (k, v)
                      = set_prop T k v)
        by (destruct v; try discriminate; reflexivity).
      set (h2 := <[T := {| is_array := false; entries := hset k v tes |}]> h).
      assert (Hl2 : length h2 = length h) by apply length_insert.
      assert (Hh2 : forall l, l <> T -> h2 !! l = h !! l)
        by (intros l Hl; apply list_lookup_insert_ne; congruence).
      destruct (IH pfs' h2 (hset k v tes) (obj_set k x acc))
        as (h' & tes' & Hloop & Hlen' & Hsame' & HT' & Hfinal).
      * apply (entries_change (below B) (below B) h h2); [auto| |exact HF'].
        intros l Hl. unfold below in Hl. apply Hh2. lia.
      * exact Hrest.
      * lia.
      * apply list_lookup_insert_eq. lia.
      * apply entries_set.
        -- eapply entries_change; [| |exact Hacc].
           ++ intros l Hl. simpl in Hl |- *. lia.
           ++ intros l Hl. simpl in Hl. apply Hh2. lia.
        -- apply (repr_in_primitive _ _ _ _ Hx).
           apply (repr_in_primitive _ _ _ _ Hx) in Hv. exact Hv.
      * exists h', tes'. split.
        { simpl for_each.
          rewrite (bind_run _ _ h tt h2); [exact Hloop|].
          rewrite Hstep. rewrite (set_prop_run h T _ k v HhT). reflexivity. }
        split; [lia|]. split; [|split; assumption].
        intros l Hl HlT. rewrite Hsame' by (lia || exact HlT).
        apply Hh2, HlT.
Qed.

Lemma hget_hset (k k' : string) (v : hval) (es : list (string * hval)) :
  hget k (hset k' v es) = if String.eqb k' k then v else hget k es.
Proof.
  induction es as [|[k0 v0] es IH]; simpl.
  - destruct (String.eqb_spec k' k); reflexivity.
  - destruct (String.eqb_spec k0 k') as [->|Hne]; simpl.
    + destruct (String.eqb_spec k' k); reflexivity.
    + rewrite IH. destruct (String.eqb_spec k0 k) as [->|Hne'];
        [|reflexivity].
      destruct (String.eqb_spec k' k); [congruence|reflexivity].
Qed.

(** The two halves of the body, on the new object [result]. *)
Definition properties_part (rec : loc -> St loc) (result : loc) (type : hval)
    : St unit :=
  if is_str "object" type then
    set_prop result "additionalProperties" (HBool false) ;;;
    properties <- get_prop (HRef result) "properties" ;;
    match properties with
    | HRef p =>
        props <- read p ;;
        propertyNames <- new_array (map HStr (hkeys (entries props))) ;;
        set_prop result "required" (HRef propertyNames) ;;;
        transformedProperties <- new_object [] ;;
        for_each (entries props) (transform_step rec transformedProperties) ;;;
        set_prop result "properties" (HRef transformedProperties)
    | _ => ret tt
    end
  else ret tt.

Definition items_part (rec : loc -> St loc) (result : loc) (type items : hval)
    : St unit :=
  if is_str "array" type && truthy_h items then
    match items with
    | HRef child => r <- rec child ;; set_prop result "items" (HRef r)
    | _ => ret tt
    end
  else ret tt.

Lemma strict_unfold (n : nat) (schema : loc) :
  applyStrictModeTransformations (S n) schema
  = (source <- read schema ;;
     result <- new_object (entries source) ;;
     type <- get_prop (HRef result) "type" ;;
     properties_part (applyStrictModeTransformations n) result type ;;;
     type <- get_prop (HRef result) "type" ;;
     items <- get_prop (HRef result) "items" ;;
     items_part (applyStrictModeTransformations n) result type items ;;;
     ret result).
Proof. reflexivity. Qed.

(** The state of a call after a step: the store [h'] extends the store [h]
    of before, agrees with it on every other object, and [R] holds [es']. *)
Definition step_of (R : loc) (h h' : store) (es' : list (string * hval))
    : Prop :=
  (length h <= length h')%nat
  /\ (forall l, (l < length h)%nat -> l <> R -> h' !! l = h !! l)
  /\ h' !! R = Some {| is_array := false; entries := es' |}.

Lemma properties_part_refines (n B R : nat) (h : store)
    (es : list (string * hval)) (fs : obj) :
  strict_spec n ->
  (B <= R)%nat -> (R < length h)%nat ->
  h !! R = Some {| is_array := false; entries := es |} ->
  Forall2 (entry_repr (below B) h) es fs ->
  is_type "object" fs = true ->
  (forall k x, In (k, x) (Tree.own_entries (obj_get "properties" fs)) ->
               is_object x = true -> (depth x <= n)%nat) ->
  exists h' es',
    properties_part (applyStrictModeTransformations n) R (hget "type" es) h
    = Ok (tt, h')
    /\ step_of R h h' es'
    /\ Forall2
         (entry_repr (fun l => (l < B)%nat \/ (R < l < length h')%nat) h')
         es' (Tree.applyStrictModeTransformations fs).
Proof.
  intros Hspec HBR HR HhR HF Hty Hdepth.
  unfold properties_part.
  rewrite (repr_in_is_str _ _ _ _ "object" HF), Hty.
  rewrite (strict_object fs Hty).
  set (es1 := hset "additionalProperties" (HBool false) es).
  set (h2 := <[R := {| is_array := false; entries := es1 |}]> h).
  assert (Hl2 : length h2 = length h) by apply length_insert.
  assert (Hh2 : forall l, l <> R -> h2 !! l = h !! l)
    by (intros l Hl; apply list_lookup_insert_ne; congruence).
  assert (HR2 : h2 !! R = Some {| is_array := false; entries := es1 |})
    by (apply list_lookup_insert_eq; exact HR).
  rewrite (bind_run _ _ h tt h2)
    by (rewrite (set_prop_run h R _ _ _ HhR); reflexivity).
  rewrite (bind_run _ _ h2 _ h2 (get_prop_run h2 R _ "properties" HR2)).
  cbn [entries]. unfold es1 at 1. rewrite hget_hset. cbn [String.eqb Ascii.eqb Bool.eqb].
  pose proof (entries_get _ _ _ _ "properties" HF) as Hp.
  pose proof (repr_in_ref _ _ _ _ Hp) as Hpobj.
  assert (HF1 : forall (Q : loc -> Prop) (h' : store),
             (forall l, (l < B)%nat -> Q l) ->
             (forall l, (l < B)%nat -> h' !! l = h !! l) ->
             Forall2 (entry_repr Q h') es1
               (obj_set "additionalProperties" (VBool false) fs)).
  { intros Q h' HQ Hsame. apply entries_set; [|reflexivity].
    apply (entries_change (below B) Q h h'); assumption. }
  destruct (is_object (obj_get "properties" fs)) eqn:Hpx.
  - destruct (hget "properties" es) as [| | | | |p] eqn:Hpv; try discriminate.
    apply (repr_in_object _ _ _ _ Hpx) in Hp
      as (p' & pes & [= <-] & HpB & Hhp & HFp).
    unfold below in HpB.
    assert (Hhp2 : h2 !! p = Some {| is_array := is_arr (obj_get "properties" fs);
                                     entries := pes |})
      by (rewrite Hh2 by lia; exact Hhp).
    rewrite (bind_run _ _ h2 _ h2 (read_run h2 p _ Hhp2)). cbn [entries].
    set (arr := {| is_array := true;
                   entries := imap (fun i x => (pretty i, x))
                                (map HStr (hkeys pes)) |}).
    set (N := length h2).
    set (h3 := (h2 ++ [arr])%list).
    rewrite (bind_run _ _ h2 N h3) by reflexivity.
    assert (HR3 : h3 !! R = Some {| is_array := false; entries := es1 |})
      by (unfold h3; rewrite lookup_snoc_old by lia; exact HR2).
    set (es2 := hset "required" (HRef N) es1).
    set (h4 := <[R := {| is_array := false; entries := es2 |}]> h3).
    rewrite (bind_run _ _ h3 tt h4)
      by (rewrite (set_prop_run h3 R _ _ _ HR3); reflexivity).
    assert (Hl3 : length h3 = S (length h))
      by (unfold h3; rewrite length_app; simpl; lia).
    assert (Hl4 : length h4 = S (length h))
      by (unfold h4; rewrite length_insert; exact Hl3).
    set (T := length h4).
    set (h5 := (h4 ++ [{| is_array := false; entries := [] |}])%list).
    rewrite (bind_run _ _ h4 T h5) by reflexivity.
    assert (Hl5 : length h5 = S (S (length h)))
      by (unfold h5; rewrite length_app; simpl; lia).
    assert (Hh5 : forall l, (l < length h)%nat -> l <> R -> h5 !! l = h !! l).
    { intros l Hl HlR. unfold h5. rewrite lookup_snoc_old by lia.
      unfold h4. rewrite list_lookup_insert_ne by congruence.
      unfold h3. rewrite lookup_snoc_old by lia. apply Hh2, HlR. }
    assert (HN5 : h5 !! N = Some arr).
    { unfold h5. rewrite lookup_snoc_old by (unfold N; lia).
      unfold h4. rewrite list_lookup_insert_ne by (unfold N; lia).
      apply lookup_snoc. }
    assert (HR5 : h5 !! R = Some {| is_array := false; entries := es2 |}).
    { unfold h5. rewrite lookup_snoc_old by lia.
      apply list_lookup_insert_eq. lia. }
    assert (HT5 : h5 !! T = Some {| is_array := false; entries := [] |})
      by apply lookup_snoc.
    destruct (loop_refines n B T Hspec ltac:(unfold T; lia) pes
                (Tree.own_entries (obj_get "properties" fs)) h5 [] [])
      as (h6 & tes & Hloop & Hl6 & Hh6 & HT6 & HFt).
    { apply (entries_change (below B) (below B) h h5); [auto| |exact HFp].
      intros l Hl. unfold below in Hl. apply Hh5; lia. }
    { exact Hdepth. }
    { unfold T. lia. }
    { exact HT5. }
    { constructor. }
    rewrite (bind_run _ _ h5 tt h6 Hloop).
    assert (HR6 : h6 !! R = Some {| is_array := false; entries := es2 |})
      by (rewrite Hh6 by (unfold T; lia); exact HR5).
    set (es3 := hset "properties" (HRef T) es2).
    set (h7 := <[R := {| is_array := false; entries := es3 |}]> h6).
    assert (Hl7 : length h7 = length h6) by apply length_insert.
    assert (Hh7 : forall l, l <> R -> h7 !! l = h6 !! l)
      by (intros l Hl; apply list_lookup_insert_ne; congruence).
    exists h7, es3. split; [apply (set_prop_run h6 R _ _ _ HR6)|]. split.
    { split; [lia|]. split.
      - intros l Hl HlR. rewrite Hh7, Hh6 by (unfold T; lia).
        apply Hh5; assumption.
      - apply list_lookup_insert_eq. lia. }
    unfold es3, es2. apply entries_set; [apply entries_set|].
    + apply HF1; [intros l Hl; left; exact Hl|].
      intros l Hl. rewrite Hh7, Hh6 by (unfold T; lia). apply Hh5; lia.
    + unfold property_names.
      rewrite <- (entries_keys _ _ _ _ HFp).
      apply names_repr; [right; unfold N; lia|].
      rewrite Hh7, Hh6 by (unfold N, T; lia). exact HN5.
    + apply repr_in_obj. exists T, tes.
      split; [reflexivity|]. split; [right; unfold T; lia|].
      split; [rewrite Hh7 by (unfold T; lia); exact HT6|].
      eapply entries_change; [| |exact HFt].
      * intros l Hl. simpl in Hl |- *. unfold T in Hl. lia.
      * intros l Hl. simpl in Hl. apply Hh7. unfold T in Hl. lia.
  - assert (Hnoref : match hget "properties" es with
                     | HRef _ => false | _ => true end = true)
      by (destruct (hget "properties" es); congruence).
    exists h2, es1. split.
    { destruct (hget "properties" es); try reflexivity. discriminate. }
    split.
    { split; [lia|]. split; [intros l _ Hl; apply Hh2, Hl|exact HR2]. }
    apply HF1; [intros l Hl; left; exact Hl|].
    intros l Hl. apply Hh2. lia.
Qed.

Lemma items_part_refines (n B R : nat) (h : store)
    (es : list (string * hval)) (fs : obj) :
  strict_spec n ->
  (B <= R)%nat -> (R < length h)%nat ->
  h !! R = Some {| is_array := false; entries := es |} ->
  Forall2 (entry_repr (below B) h) es fs ->
  is_type "object" fs = false ->
  (is_object (obj_get "items" fs) = true ->
   (depth (obj_get "items" fs) <= n)%nat) ->
  exists h' es',
    items_part (applyStrictModeTransformations n) R
      (hget "type" es) (hget "items" es) h
    = Ok (tt, h')
    /\ step_of R h h' es'
    /\ Forall2
         (entry_repr (fun l => (l < B)%nat \/ (R < l < length h')%nat) h')
         es' (Tree.applyStrictModeTransformations fs).
Proof.
  intros Hspec HBR HR HhR HF Hty Hdepth.
  unfold items_part.
  rewrite (repr_in_is_str _ _ _ _ "array" HF).
  rewrite (strict_not_object fs Hty).
  pose proof (entries_get _ _ _ _ "items" HF) as Hi.
  pose proof (repr_in_ref _ _ _ _ Hi) as Hiobj.
  rewrite (repr_in_truthy _ _ _ _ Hi).
  assert (Hsame : exists h' es',
             ret tt h = Ok (tt, h') /\ step_of R h h' es'
             /\ Forall2
                  (entry_repr
                     (fun l => (l < B)%nat \/ (R < l < length h')%nat) h')
                  es' fs).
  { exists h, es. split; [reflexivity|]. split.
    - split; [lia|]. split; [reflexivity|exact HhR].
    - eapply entries_change; [| |exact HF]; [intros l Hl; left; exact Hl|].
      reflexivity. }
  destruct (is_type "array" fs); [|exact Hsame]. simpl andb.
  destruct (is_object (obj_get "items" fs)) eqn:Hix.
  - rewrite (is_object_truthy _ Hix).
    destruct (hget "items" es) as [| | | | |c] eqn:Hiv; try discriminate.
    destruct (Hspec B c (obj_get "items" fs) h Hix (Hdepth eq_refl)
                ltac:(lia) Hi) as (r & h1 & Hrun & [Hlen Hold] & Hr).
    assert (HR1 : h1 !! R = Some {| is_array := false; entries := es |})
      by (rewrite Hold by exact HR; exact HhR).
    set (es1 := hset "items" (HRef r) es).
    set (h2 := <[R := {| is_array := false; entries := es1 |}]> h1).
    assert (Hl2 : length h2 = length h1) by apply length_insert.
    assert (Hh2 : forall l, l <> R -> h2 !! l = h1 !! l)
      by (intros l Hl; apply list_lookup_insert_ne; congruence).
    exists h2, es1. split.
    { cbn [andb]. rewrite (bind_run _ _ h r h1 Hrun).
      apply (set_prop_run h1 R _ _ _ HR1). }
    split.
    { split; [lia|]. split.
      - intros l Hl HlR. rewrite Hh2 by exact HlR. apply Hold, Hl.
      - apply list_lookup_insert_eq. lia. }
    apply entries_set.
    + eapply entries_change; [| |exact HF]; [intros l Hl; left; exact Hl|].
      intros l Hl. unfold below in Hl. rewrite Hh2 by lia. apply Hold. lia.
    + eapply repr_in_change; [| |exact Hr].
      * intros l Hl. simpl in Hl |- *. lia.
      * intros l Hl. simpl in Hl. apply Hh2. lia.
  - destruct (truthy (obj_get "items" fs)); [|exact Hsame].
    destruct (hget "items" es); try exact Hsame. discriminate.
Qed.

Lemma strict_spec_all (n : nat) : strict_spec n.
Proof.
  induction n as [|n IH]; intros B schema x h Hx Hd HB Hr.
  { destruct x; try discriminate; simpl in Hd; lia. }
  apply (repr_in_object _ _ _ _ Hx) in Hr
    as (schema' & es & [= <-] & HsB & Hhs & HF).
  set (fs := Tree.own_entries x) in *.
  assert (Hdfs : depth (VObj fs) = depth x) by apply depth_own_entries, Hx.
  rewrite strict_unfold.
  rewrite (bind_run _ _ h _ h (read_run h schema _ Hhs)). cbn [entries].
  set (R := length h).
  set (h1 := (h ++ [{| is_array := false; entries := es |}])%list).
  rewrite (bind_run _ _ h R h1) by reflexivity.
  assert (Hl1 : length h1 = S (length h))
    by (unfold h1; rewrite length_app; simpl; lia).
  assert (Hh1 : forall l, (l < length h)%nat -> h1 !! l = h !! l)
    by (intros l Hl; apply lookup_snoc_old, Hl).
  assert (HR1 : h1 !! R = Some {| is_array := false; entries := es |})
    by apply lookup_snoc.
  assert (HF1 : Forall2 (entry_repr (below B) h1) es fs).
  { apply (entries_change (below B) (below B) h h1); [auto| |exact HF].
    intros l Hl. unfold below in Hl. apply Hh1. lia. }
  rewrite (bind_run _ _ h1 _ h1 (get_prop_run h1 R _ "type" HR1)).
  cbn [entries].
  assert (Hfinish : forall h' es',
             step_of R h1 h' es' ->
             Forall2
               (entry_repr (fun l => (l < B)%nat \/ (R < l < length h')%nat)
                  h')
               es' (Tree.applyStrictModeTransformations fs) ->
             unchanged_below (length h) h h'
             /\ repr_in
                  (fun l => (l < B)%nat \/ (length h <= l < length h')%nat)
                  h' (HRef R)
                  (VObj (Tree.applyStrictModeTransformations fs))).
  { intros h' es' (Hlen & Hold & HR') HF'. split.
    - split; [lia|]. intros l Hl. rewrite Hold by (unfold R; lia).
      apply Hh1, Hl.
    - apply repr_in_obj. exists R, es'. split; [reflexivity|].
      split; [right; unfold R; lia|]. split; [exact HR'|].
      eapply entries_change; [| |exact HF']; [|reflexivity].
      intros l Hl. simpl in Hl |- *. unfold R in Hl. lia. }
  destruct (is_type "object" fs) eqn:Hty.
  - destruct (properties_part_refines n B R h1 es fs IH)
      as (h' & es' & Hrun & Hstep & HF'); try assumption;
      try (unfold R; lia).
    { intros k y Hin Hy.
      destruct (is_object (obj_get "properties" fs)) eqn:Hp.
      - pose proof (depth_own_entry _ k y Hp Hin).
        pose proof (depth_obj_get "properties" fs). lia.
      - exfalso. destruct (obj_get "properties" fs); simpl in Hin;
          try contradiction; try discriminate.
        apply imap_entries_in in Hin as (c & _ & ->). discriminate. }
    rewrite (bind_run _ _ h1 tt h' Hrun).
    pose proof Hstep as (_ & _ & HR').
    rewrite (bind_run _ _ h' _ h' (get_prop_run h' R _ "type" HR')).
    rewrite (bind_run _ _ h' _ h' (get_prop_run h' R _ "items" HR')).
    cbn [entries]. unfold items_part.
    rewrite (repr_in_is_str _ _ _ _ "array" HF'), strict_keeps_type,
      (is_type_exclusive fs Hty).
    simpl andb. cbv iota.
    rewrite (bind_run _ _ h' tt h') by reflexivity.
    exists R, h'. split; [reflexivity|]. apply (Hfinish h' es' Hstep HF').
  - unfold properties_part.
    rewrite (repr_in_is_str _ _ _ _ "object" HF1), Hty.
    rewrite (bind_run _ _ h1 tt h1) by reflexivity.
    rewrite (bind_run _ _ h1 _ h1 (get_prop_run h1 R _ "type" HR1)).
    rewrite (bind_run _ _ h1 _ h1 (get_prop_run h1 R _ "items" HR1)).
    cbn [entries].
    destruct (items_part_refines n B R h1 es fs IH)
      as (h' & es' & Hrun & Hstep & HF'); try assumption;
      try (unfold R; lia).
    { intros Hi. pose proof (depth_obj_get "items" fs). lia. }
    rewrite (bind_run _ _ h1 tt h' Hrun).
    exists R, h'. split; [reflexivity|]. apply (Hfinish h' es' Hstep HF').
Qed.

(** On a store where [schema] stands for a tree, and with fuel for its
    depth, [applyStrictModeTransformations] returns, leaves every object of
    the store as it is, and its result stands for the result on trees. *)
Theorem strict_refines (n : nat) (schema : loc) (x : value) (h : store) :
  is_object x = true -> (depth x <= n)%nat ->
  repr h (HRef schema) x ->
  exists r h',
    applyStrictModeTransformations n schema h = Ok (r, h')
    /\ unchanged_below (length h) h h'
    /\ repr h' (HRef r)
         (VObj (Tree.applyStrictModeTransformations (Tree.own_entries x))).
Proof.
  intros Hx Hd Hr.
  assert (Hin : forall P v y, repr_in P h v y ->
                              repr_in (below (length h)) h v y).
  { intros P v y. revert v. induction y as [y IHy] using value_depth_ind.
    intros v Hv. destruct (is_object y) eqn:Hy.
    - apply (repr_in_object _ _ _ _ Hy) in Hv as (l & es & -> & _ & Hl & HF).
      apply (repr_in_object _ _ _ _ Hy). exists l, es.
      split; [reflexivity|].
      split; [apply lookup_lt_Some in Hl; exact Hl|]. split; [exact Hl|].
      assert (Hd' : forall f, In f (Tree.own_entries y) ->
                              (depth (snd f) < depth y)%nat).
      { intros [k z] Hf. apply (depth_own_entry y k z Hy Hf). }
      clear Hl. induction HF as [|e f es o [He He'] _ IHF]; constructor.
      + split; [exact He|]. apply IHy; [|exact He'].
        apply Hd'. left. reflexivity.
      + apply IHF. intros g Hg. apply Hd'. right. exact Hg.
    - apply (repr_in_primitive _ _ _ _ Hy) in Hv.
      apply (repr_in_primitive _ _ _ _ Hy). exact Hv. }
  destruct (strict_spec_all n (length h) schema x h Hx Hd ltac:(lia)
              (Hin _ _ _ Hr)) as (r & h' & Hrun & Hun & Hrep).
  exists r, h'. split; [exact Hrun|]. split; [exact Hun|].
  eapply repr_in_change; [| |exact Hrep]; [intros; exact I|reflexivity].
Qed.

(** *** The cached schema and the generators *)

Lemma repr_in_below (P : loc -> Prop) (h : store) (v : hval) (x : value) :
  repr_in P h v x -> repr_in (below (length h)) h v x.
Proof.
  revert v. induction x as [x IH] using value_depth_ind.
  intros v Hv. destruct (is_object x) eqn:Hx.
  - apply (repr_in_object _ _ _ _ Hx) in Hv as (l & es & -> & _ & Hl & HF).
    apply (repr_in_object _ _ _ _ Hx). exists l, es.
    split; [reflexivity|].
    split; [apply lookup_lt_Some in Hl; exact Hl|]. split; [exact Hl|].
    assert (Hd : forall f, In f (Tree.own_entries x) ->
                           (depth (snd f) < depth x)%nat).
    { intros [k z] Hf. apply (depth_own_entry x k z Hx Hf). }
    clear Hl. induction HF as [|e f es o [He He'] _ IHF]; constructor.
    + split; [exact He|]. apply IH; [|exact He'].
      apply Hd. left. reflexivity.
    + apply IHF. intros g Hg. apply Hd. right. exact Hg.
  - apply (repr_in_primitive _ _ _ _ Hx) in Hv.
    apply (repr_in_primitive _ _ _ _ Hx). exact Hv.
Qed.

(** A representation lives on when the store only grows, or changes above. *)
Lemma repr_unchanged (h h' : store) (v : hval) (x : value) :
  unchanged_below (length h) h h' -> repr h v x -> repr h' v x.
Proof.
  intros [_ Hsame] Hv. apply repr_in_below in Hv.
  eapply repr_in_change; [| |exact Hv]; [intros; exact I|].
  intros l Hl. apply Hsame, Hl.
Qed.

Lemma entries_unchanged (h h' : store) es o :
  unchanged_below (length h) h h' ->
  Forall2 (entry_repr (fun _ => True) h) es o ->
  Forall2 (entry_repr (fun _ => True) h') es o.
Proof.
  intros Hun. induction 1 as [|e f es o [Hk Hr] _ IH]; constructor.
  - split; [exact Hk|]. apply (repr_unchanged h h' _ _ Hun Hr).
  - exact IH.
Qed.

Lemma alloc_fields_spec (o : obj) :
  (forall k x h, In (k, x) o ->
     unchanged_below (length h) h (snd (alloc_value x h))
     /\ repr (snd (alloc_value x h)) (fst (alloc_value x h)) x) ->
  forall h,
    let r :=
      (fix fields (o : obj) (h : store) : list (string * hval) * store :=
         match o with
         | [] => ([], h)
         | kv :: o' =>
             let '(hx, h1) := alloc_value (snd kv) h in
             let '(hl, h2) := fields o' h1 in
             ((fst kv, hx) :: hl, h2)
         end) o h in
    unchanged_below (length h) h (snd r)
    /\ Forall2 (entry_repr (fun _ => True) (snd r)) (fst r) o.
Proof.
  induction o as [|[k x] o IH]; intros Hall h; simpl.
  - split; [apply unchanged_below_refl|constructor].
  - destruct (Hall k x h (or_introl eq_refl)) as [Hun Hr].
    destruct (alloc_value x h) as [hx h1]. simpl in Hun, Hr.
    specialize (IH (fun k' x' h' Hin => Hall k' x' h' (or_intror Hin)) h1).
    simpl in IH. destruct IH as [Hun' HF].
    match goal with
    | |- context [let '(hl, h2) := ?e in _] => destruct e as [hl h2]
    end.
    simpl in *. split.
    + eapply unchanged_below_trans; [exact Hun|].
      eapply unchanged_below_le; [|exact Hun']. destruct Hun. lia.
    + constructor; [|exact HF]. split; [reflexivity|].
      apply (repr_unchanged h1 h2 _ _ Hun' Hr).
Qed.

Lemma alloc_elems_spec (xs : list value) :
  (forall x h, In x xs ->
     unchanged_below (length h) h (snd (alloc_value x h))
     /\ repr (snd (alloc_value x h)) (fst (alloc_value x h)) x) ->
  forall h (f : nat -> string),
    let r :=
      (fix elems (l : list value) (h : store) : list hval * store :=
         match l with
         | [] => ([], h)
         | x :: l' =>
             let '(hx, h1) := alloc_value x h in
             let '(hl, h2) := elems l' h1 in
             (hx :: hl, h2)
         end) xs h in
    unchanged_below (length h) h (snd r)
    /\ Forall2 (entry_repr (fun _ => True) (snd r))
         (imap (fun i x => (f i, x)) (fst r))
         (imap (fun i x => (f i, x)) xs).
Proof.
  induction xs as [|x xs IH]; intros Hall h f; simpl.
  - split; [apply unchanged_below_refl|constructor].
  - destruct (Hall x h (or_introl eq_refl)) as [Hun Hr].
    destruct (alloc_value x h) as [hx h1]. simpl in Hun, Hr.
    specialize (IH (fun x' h' Hin => Hall x' h' (or_intror Hin)) h1
                  (fun i => f (S i))).
    simpl in IH. destruct IH as [Hun' HF].
    match goal with
    | |- context [let '(hl, h2) := ?e in _] => destruct e as [hl h2]
    end.
    simpl in *. split.
    + eapply unchanged_below_trans; [exact Hun|].
      eapply unchanged_below_le; [|exact Hun']. destruct Hun. lia.
    + constructor; [|exact HF]. split; [reflexivity|].
      apply (repr_unchanged h1 h2 _ _ Hun' Hr).
Qed.

Lemma depth_elem (x : value) (xs : list value) :
  In x xs -> (depth x < depth (VArr xs))%nat.
Proof.
  simpl. induction xs as [|a xs IH]; simpl; intros Hin; [destruct Hin|].
  destruct Hin as [->|Hin]; [lia|]. specialize (IH Hin). lia.
Qed.

(** What [zodToJsonSchema] builds stands for its answer, and is new. *)
Lemma alloc_value_spec (x : value) (h : store) :
  unchanged_below (length h) h (snd (alloc_value x h))
  /\ repr (snd (alloc_value x h)) (fst (alloc_value x h)) x.
Proof.
  revert h. induction x as [x IH] using value_depth_ind. intros h.
  destruct x as [| |b|n|s|xs|o];
    try (split; [apply unchanged_below_refl|reflexivity]).
  - pose proof (alloc_elems_spec xs) as Hs. simpl in Hs |- *.
    specialize (Hs (fun x h Hin => IH x (depth_elem x xs Hin) h)
                  h (fun i => pretty i)).
    match goal with
    | |- context [let '(hs, h1) := ?e in _] => destruct e as [hs h1]
    end.
    simpl in *. destruct Hs as [Hun HF]. split.
    + eapply unchanged_below_trans; [exact Hun|].
      eapply unchanged_below_le; [|apply unchanged_below_snoc].
      destruct Hun. lia.
    + apply repr_in_arr. eexists _, _. split; [reflexivity|].
      split; [exact I|]. split; [apply lookup_snoc|].
      apply (entries_unchanged h1); [apply unchanged_below_snoc|exact HF].
  - pose proof (alloc_fields_spec o) as Hs. simpl in Hs |- *.
    specialize (Hs (fun k x h Hin =>
                      IH x (depth_entry k x o Hin) h) h).
    match goal with
    | |- context [let '(es, h1) := ?e in _] => destruct e as [es h1]
    end.
    simpl in *. destruct Hs as [Hun HF]. split.
    + eapply unchanged_below_trans; [exact Hun|].
      eapply unchanged_below_le; [|apply unchanged_below_snoc].
      destruct Hun. lia.
    + apply repr_in_obj. eexists _, _. split; [reflexivity|].
      split; [exact I|]. split; [apply lookup_snoc|].
      apply (entries_unchanged h1); [apply unchanged_below_snoc|exact HF].
Qed.

Lemma bind_type_error {A B} (m : St A) (f : A -> St B) h :
  m h = TypeError -> bind m f h = TypeError.
Proof. intros H. unfold bind. rewrite H. reflexivity. Qed.

Lemma chars_entries (h : store) (f : nat -> string) (cs : list ascii) :
  Forall2 (entry_repr (fun _ => True) h)
    (imap (fun i c => (f i, HStr (String c EmptyString))) cs)
    (imap (fun i c => (f i, VStr (String c EmptyString))) cs).
Proof.
  revert f. induction cs as [|c cs IH]; intros f; simpl; constructor.
  - split; reflexivity.
  - exact (IH (fun i => f (S i))).
Qed.

Lemma own_entries_refines (h : store) (v : hval) (x : value) :
  repr h v x ->
  exists es, own_entries v h = Ok (es, h)
             /\ Forall2 (entry_repr (fun _ => True) h) es (Tree.own_entries x).
Proof.
  unfold repr. intros Hv. destruct (is_object x) eqn:Hx.
  - apply (repr_in_object _ _ _ _ Hx) in Hv as (l & es & -> & _ & Hl & HF).
    exists es. split; [|exact HF]. unfold own_entries.
    rewrite (bind_run _ _ h _ h (read_run h l _ Hl)). reflexivity.
  - destruct x; try discriminate; simpl in Hv; subst v;
      try (exists []; split; [reflexivity|constructor]).
    eexists. split; [reflexivity|]. apply chars_entries.
Qed.

Lemma get_prop_refines (h : store) (v : hval) (x : value) (k : string) :
  repr h v x ->
  match Tree.get_prop x k with
  | None => get_prop v k h = TypeError
  | Some y => exists w, get_prop v k h = Ok (w, h) /\ repr h w y
  end.
Proof.
  intros Hv. destruct (own_entries_refines h v x Hv) as (es & Hes & HF).
  pose proof (entries_get _ _ _ _ k HF) as Hk. unfold repr in *.
  destruct x; simpl in Hv |- *; try (subst v; reflexivity);
    try (subst v; exists (hget k es); split; [|exact Hk];
         unfold get_prop; rewrite (bind_run _ _ h es h Hes); reflexivity);
    destruct Hv as (l & es' & -> & _);
    (exists (hget k es); split; [|exact Hk]);
    unfold get_prop; rewrite (bind_run _ _ h es h Hes); reflexivity.
Qed.

Lemma or_empty_refines (h : store) (v : hval) (x : value) :
  repr h v x ->
  exists w h',
    or_empty_object v h = Ok (w, h')
    /\ unchanged_below (length h) h h'
    /\ repr h' w (coalesce x (VObj [])).
Proof.
  unfold repr. intros Hv. unfold or_empty_object, coalesce.
  rewrite (repr_in_nullish _ _ _ _ Hv). destruct (nullish x).
  - eexists _, _. split; [reflexivity|].
    split; [apply unchanged_below_snoc|].
    apply repr_in_obj. eexists _, _. split; [reflexivity|].
    split; [exact I|]. split; [apply lookup_snoc|constructor].
  - exists v, h. split; [reflexivity|].
    split; [apply unchanged_below_refl|exact Hv].
Qed.

Lemma js_length_refines (h : store) (v : hval) (x : value) :
  repr h v x ->
  match Tree.js_length x with
  | None => js_length v h = TypeError
  | Some y => exists w, js_length v h = Ok (w, h) /\ repr h w y
  end.
Proof.
  unfold repr. intros Hv.
  destruct x; simpl in Hv |- *; try (subst v; reflexivity);
    try (subst v; eexists; split; reflexivity).
  - destruct Hv as (l & es & -> & _ & Hl & HF).
    apply (repr_elems (fun _ => True) h elems 0 es) in HF.
    eexists. split.
    + unfold js_length. rewrite (bind_run _ _ h _ h (read_run h l _ Hl)).
      reflexivity.
    + simpl. apply Forall2_length in HF. rewrite length_imap in HF.
      rewrite HF. reflexivity.
  - apply repr_in_obj in Hv as (l & es & -> & _ & Hl & HF).
    eexists. split.
    + unfold js_length. rewrite (bind_run _ _ h _ h (read_run h l _ Hl)).
      reflexivity.
    + simpl. apply (entries_get _ _ _ _ "length" HF).
Qed.

Lemma depth_filter (P : string * value -> Prop) `{forall kv, Decision (P kv)}
    (o : obj) :
  (fold_right (fun kv d => Nat.max (depth (snd kv)) d) O (filter P o)
   <= fold_right (fun kv d => Nat.max (depth (snd kv)) d) O o)%nat.
Proof.
  induction o as [|e o IH]; [reflexivity|].
  rewrite filter_cons. destruct (decide _); simpl; lia.
Qed.

Lemma depth_remove (k : string) (o : obj) :
  (depth (VObj (obj_remove k o)) <= depth (VObj o))%nat.
Proof. unfold obj_remove. cbn [depth]. apply le_n_S, depth_filter. Qed.

Lemma depth_own_entries_le (x : value) :
  (depth (VObj (Tree.own_entries x)) <= S (depth x))%nat.
Proof.
  destruct (is_object x) eqn:Hx.
  - rewrite (depth_own_entries x Hx). lia.
  - destruct x; try discriminate; simpl; try lia.
    apply le_n_S.
    rewrite (depth_imap_entries (fun c => VStr (String c EmptyString))
               (fun i => pretty i)).
    induction (list_ascii_of_string s) as [|c cs IH]; [simpl; lia|exact IH].
Qed.

Section Refinement.

Variable t : ToolSchema.

(** What is cached stands for the answer of [zodToJsonSchema]. *)
Definition cache_inv (h : store) (cachedJsonSchema : option loc) : Prop :=
  forall l, cachedJsonSchema = Some l ->
            repr h (HRef l) (VObj (zodToJsonSchema t)).

Lemma cache_inv_unchanged (h h' : store) (c : option loc) :
  unchanged_below (length h) h h' -> cache_inv h c -> cache_inv h' c.
Proof.
  intros Hun Hc l Hl. apply (repr_unchanged h h' _ _ Hun), Hc, Hl.
Qed.

Lemma unchanged_chain (h1 h2 h3 : store) :
  unchanged_below (length h1) h1 h2 -> unchanged_below (length h2) h2 h3 ->
  unchanged_below (length h1) h1 h3.
Proof.
  intros H12 H23. eapply unchanged_below_trans; [exact H12|].
  eapply unchanged_below_le; [|exact H23]. destruct H12. lia.
Qed.

Lemma getJsonSchema_refines (h : store) (c : option loc) :
  cache_inv h c ->
  exists l h',
    getJsonSchema t c h = Ok ((l, Some l), h')
    /\ unchanged_below (length h) h h'
    /\ repr h' (HRef l) (VObj (zodToJsonSchema t))
    /\ (forall l0, c = Some l0 -> l0 = l /\ h' = h).
Proof.
  intros Hc. destruct c as [l0|].
  - exists l0, h. split; [reflexivity|].
    split; [apply unchanged_below_refl|]. split; [apply Hc; reflexivity|].
    intros l1 [= <-]. split; reflexivity.
  - unfold getJsonSchema.
    destruct (alloc_value_spec (VObj (zodToJsonSchema t)) h) as [Hun Hr].
    destruct (alloc_value (VObj (zodToJsonSchema t)) h) as [v h'].
    simpl in Hun, Hr. pose proof Hr as Hr'.
    apply repr_in_obj in Hr' as (l & es & -> & _).
    exists l, h'. split; [reflexivity|]. split; [exact Hun|].
    split; [exact Hr|]. intros l0. discriminate.
Qed.

Lemma unwrap_schema_refines (h : store) (js : loc) :
  repr h (HRef js) (VObj (zodToJsonSchema t)) ->
  match Tree.unwrap_schema t (zodToJsonSchema t) with
  | None => unwrap_schema t js h = TypeError
  | Some p =>
      exists v h',
        unwrap_schema t js h = Ok (v, h')
        /\ unchanged_below (length h) h h'
        /\ repr h' v p
  end.
Proof.
  intros Hr. unfold repr in Hr.
  apply repr_in_obj in Hr as (js' & es & [= <-] & _ & Hjs & HF).
  unfold unwrap_schema, Tree.unwrap_schema.
  rewrite (bind_run _ _ h _ h (read_run h js _ Hjs)). cbn [entries].
  pose proof (entries_get _ _ _ _ "definitions" HF) as Hd.
  pose proof (entries_get _ _ _ _ "$ref" HF) as Href.
  pose proof (repr_in_ref _ _ _ _ Hd) as Hdobj.
  pose proof (get_prop_refines h _ _ (ts_name t) Hd) as Hget.
  assert (Hnamed :
            match option_map (fun d => coalesce d (VObj []))
                    (Tree.get_prop (obj_get "definitions" (zodToJsonSchema t))
                       (ts_name t)) with
            | None =>
                (d <- get_prop (hget "definitions" es) (ts_name t) ;;
                 or_empty_object d) h = TypeError
            | Some p =>
                exists v h',
                  (d <- get_prop (hget "definitions" es) (ts_name t) ;;
                   or_empty_object d) h = Ok (v, h')
                  /\ unchanged_below (length h) h h'
                  /\ repr h' v p
            end).
  { destruct (Tree.get_prop _ _) as [d|]; simpl.
    - destruct Hget as (w & Hw & Hwd).
      destruct (or_empty_refines h w d Hwd) as (v & h' & Hv & Hun & Hvr).
      exists v, h'. split; [|split; assumption].
      rewrite (bind_run _ _ h w h Hw). exact Hv.
    - apply bind_type_error, Hget. }
  destruct (is_object (obj_get "definitions" (zodToJsonSchema t))) eqn:Hdx.
  - rewrite (is_object_truthy _ Hdx). simpl andb. cbv iota.
    destruct (hget "definitions" es); try discriminate. exact Hnamed.
  - rewrite andb_false_r.
    rewrite <- (repr_in_truthy _ _ _ _ Href).
    assert (Hsplit :
              match
                (if truthy_h (hget "$ref" es)
                 then option_map (fun d => coalesce d (VObj []))
                        (Tree.get_prop
                           (obj_get "definitions" (zodToJsonSchema t))
                           (ts_name t))
                 else Some (VObj (zodToJsonSchema t)))
              with
              | None =>
                  (if truthy_h (hget "$ref" es)
                   then d <- get_prop (hget "definitions" es) (ts_name t) ;;
                        or_empty_object d
                   else copy <- new_object es ;; ret (HRef copy)) h
                  = TypeError
              | Some p =>
                  exists v h',
                    (if truthy_h (hget "$ref" es)
                     then d <- get_prop (hget "definitions" es) (ts_name t) ;;
                          or_empty_object d
                     else copy <- new_object es ;; ret (HRef copy)) h
                    = Ok (v, h')
                    /\ unchanged_below (length h) h h'
                    /\ repr h' v p
              end).
    { destruct (truthy_h (hget "$ref" es)); [exact Hnamed|].
      eexists _, _. split; [reflexivity|].
      split; [apply unchanged_below_snoc|].
      apply repr_in_obj. eexists _, _. split; [reflexivity|].
      split; [exact I|]. split; [apply lookup_snoc|].
      apply (entries_unchanged h); [apply unchanged_below_snoc|exact HF]. }
    destruct (hget "definitions" es); try discriminate; exact Hsplit.
Qed.

(** The bound on the fuel: the parameters are no deeper than the schema. *)
Lemma unwrap_schema_depth (p : value) :
  Tree.unwrap_schema t (zodToJsonSchema t) = Some p ->
  (depth (VObj (obj_remove "$schema" (Tree.own_entries p)))
   <= depth (VObj (zodToJsonSchema t)))%nat.
Proof.
  unfold Tree.unwrap_schema.
  assert (Hnamed : forall d,
             Tree.get_prop (obj_get "definitions" (zodToJsonSchema t))
               (ts_name t) = Some d ->
             (depth (VObj (obj_remove "$schema"
                             (Tree.own_entries (coalesce d (VObj [])))))
              <= depth (VObj (zodToJsonSchema t)))%nat).
  { intros d Hd. unfold Tree.get_prop in Hd.
    assert (Hd' : d = obj_get (ts_name t)
                        (Tree.own_entries
                           (obj_get "definitions" (zodToJsonSchema t))))
      by (destruct (obj_get "definitions" _); congruence).
    pose proof (depth_obj_get "definitions" (zodToJsonSchema t)) as H1.
    pose proof (depth_obj_get (ts_name t)
                  (Tree.own_entries
                     (obj_get "definitions" (zodToJsonSchema t)))) as H2.
    pose proof (depth_own_entries_le
                  (obj_get "definitions" (zodToJsonSchema t))) as H3.
    rewrite <- Hd' in H2.
    unfold coalesce. destruct (nullish d).
    - simpl. lia.
    - pose proof (depth_remove "$schema" (Tree.own_entries d)) as H4.
      pose proof (depth_own_entries_le d) as H5.
      change (depth (VObj (zodToJsonSchema t)))
        with (S (fold_right (fun kv d => Nat.max (depth (snd kv)) d) O
                   (zodToJsonSchema t))) in *.
      lia. }
  destruct (_ && _).
  - destruct (Tree.get_prop _ _) as [d|] eqn:Hd; [|discriminate].
    intros [= <-]. apply Hnamed. reflexivity.
  - destruct (truthy _).
    + destruct (Tree.get_prop _ _) as [d|] eqn:Hd; [|discriminate].
      intros [= <-]. apply Hnamed. reflexivity.
    + intros [= <-]. apply depth_remove.
Qed.

Definition openai_repr (h : store) (s : OpenAIToolSpec)
    (ps : Tree.OpenAIToolSpec) : Prop :=
  fn_name s = Tree.fn_name (Tree.function ps)
  /\ fn_description s = Tree.fn_description (Tree.function ps)
  /\ strict s = Tree.strict (Tree.function ps)
  /\ repr h (HRef (parameters s))
       (VObj (Tree.parameters (Tree.function ps))).

(** [getOpenAISpec] over the store does what it does on trees, keeps every
    object of the store as it is, and keeps or fills the cache. *)
Lemma getOpenAISpec_refines (fuel : nat) (strictly : bool) (h : store)
    (c : option loc) :
  cache_inv h c ->
  (depth (VObj (zodToJsonSchema t)) <= fuel)%nat ->
  match Tree.getOpenAISpec t strictly with
  | None => getOpenAISpec t fuel strictly c h = TypeError
  | Some ps =>
      exists s l h',
        getOpenAISpec t fuel strictly c h = Ok ((s, Some l), h')
        /\ unchanged_below (length h) h h'
        /\ cache_inv h' (Some l)
        /\ (forall l0, c = Some l0 -> l0 = l)
        /\ openai_repr h' s ps
  end.
Proof.
  intros Hc Hfuel. unfold getOpenAISpec, Tree.getOpenAISpec.
  destruct (getJsonSchema_refines h c Hc) as (l & h1 & Hjs & Hun1 & Hr1 & Hl).
  rewrite (bind_run _ _ h _ h1 Hjs). cbn [fst snd].
  pose proof (unwrap_schema_refines h1 l Hr1) as Hu.
  pose proof (unwrap_schema_depth) as Hdepth.
  destruct (Tree.unwrap_schema t (zodToJsonSchema t)) as [p|];
    [|apply bind_type_error, Hu].
  destruct Hu as (v & h2 & Hv & Hun2 & Hr2).
  rewrite (bind_run _ _ h1 _ h2 Hv).
  destruct (own_entries_refines h2 v p Hr2) as (es & Hes & HF).
  rewrite (bind_run _ _ h2 _ h2 Hes).
  set (clean := obj_remove "$schema" (Tree.own_entries p)).
  set (C := length h2).
  set (h3 := (h2 ++ [{| is_array := false;
                        entries := hremove "$schema" es |}])%list).
  rewrite (bind_run _ _ h2 C h3) by reflexivity.
  assert (Hun3 : unchanged_below (length h2) h2 h3)
    by apply unchanged_below_snoc.
  assert (Hr3 : repr h3 (HRef C) (VObj clean)).
  { apply repr_in_obj. eexists _, _. split; [reflexivity|].
    split; [exact I|]. split; [apply lookup_snoc|].
    apply (entries_unchanged h2 h3 _ _ Hun3), entries_remove, HF. }
  destruct strictly.
  - destruct (strict_refines fuel C (VObj clean) h3 eq_refl)
      as (r & h4 & Hrun & Hun4 & Hr4);
      [specialize (Hdepth p eq_refl); fold clean in Hdepth; lia
      |exact Hr3|].
    rewrite (bind_run _ _ h3 r h4 Hrun).
    eexists _, l, h4. split; [reflexivity|].
    assert (Hun : unchanged_below (length h1) h1 h4)
      by (eapply unchanged_chain; [exact Hun2|];
          eapply unchanged_chain; [exact Hun3|exact Hun4]).
    split; [eapply unchanged_chain; [exact Hun1|exact Hun]|].
    split; [intros l' [= <-]; apply (repr_unchanged h1 h4 _ _ Hun Hr1)|].
    split; [intros l0 Hl0; apply (Hl l0 Hl0)|].
    repeat split. exact Hr4.
  - rewrite (bind_run _ _ h3 C h3) by reflexivity.
    eexists _, l, h3. split; [reflexivity|].
    assert (Hun : unchanged_below (length h1) h1 h3)
      by (eapply unchanged_chain; [exact Hun2|exact Hun3]).
    split; [eapply unchanged_chain; [exact Hun1|exact Hun]|].
    split; [intros l' [= <-]; apply (repr_unchanged h1 h3 _ _ Hun Hr1)|].
    split; [intros l0 Hl0; apply (Hl l0 Hl0)|].
    repeat split. exact Hr3.
Qed.

(** The coercion of [x > 0] over the store agrees with the one on trees. *)
Variable coerced_h : store -> hval -> bool.
Variable coerced : value -> bool.
Hypothesis coerced_agree :
  forall h v x, repr h v x -> coerced_h h v = coerced x.

Lemma gt_zero_refines (h : store) (v : hval) (x : value) :
  repr h v x -> gt_zero coerced_h v h = Ok (Tree.gt_zero coerced x, h).
Proof.
  intros Hv. pose proof (coerced_agree h v x Hv) as Hco. unfold repr in Hv.
  destruct x; simpl in Hv |- *; try (subst v; reflexivity);
    try (subst v; unfold gt_zero; rewrite Hco; reflexivity);
    destruct Hv as (l & es & -> & _); unfold gt_zero; rewrite Hco;
    reflexivity.
Qed.

(** The last lines of [getAnthropicSpec], on the new object [inputSchema]. *)
Definition required_part (inputSchema : loc) (requiredFields : hval)
    : St unit :=
  match requiredFields with
  | HUndefined => ret tt
  | _ =>
      len <- js_length requiredFields ;;
      positive <- gt_zero coerced_h len ;;
      if positive then set_prop inputSchema "required" requiredFields
      else ret tt
  end.

Definition required_tree (requiredFields : value) (inputSchema : obj)
    : option obj :=
  match requiredFields with
  | VUndefined => Some inputSchema
  | _ =>
      match Tree.js_length requiredFields with
      | None => None
      | Some len =>
          Some (if Tree.gt_zero coerced len
                then obj_set "required" requiredFields inputSchema
                else inputSchema)
      end
  end.

Lemma required_part_refines (h4 : store) (base_es : list (string * hval))
    (base : obj) (rf : hval) (rx : value) :
  repr h4 rf rx ->
  Forall2 (entry_repr (fun _ => True) h4) base_es base ->
  let h5 := (h4 ++ [{| is_array := false; entries := base_es |}])%list in
  match required_tree rx base with
  | None => required_part (length h4) rf h5 = TypeError
  | Some o =>
      exists h6 es6,
        required_part (length h4) rf h5 = Ok (tt, h6)
        /\ unchanged_below (length h4) h4 h6
        /\ h6 !! length h4 = Some {| is_array := false; entries := es6 |}
        /\ Forall2 (entry_repr (fun _ => True) h6) es6 o
  end.
Proof.
  intros Hrf HF h5.
  assert (Hun5 : unchanged_below (length h4) h4 h5)
    by apply unchanged_below_snoc.
  assert (Hskip : exists h6 es6,
             ret tt h5 = Ok (tt, h6)
             /\ unchanged_below (length h4) h4 h6
             /\ h6 !! length h4
                = Some {| is_array := false; entries := es6 |}
             /\ Forall2 (entry_repr (fun _ => True) h6) es6 base).
  { exists h5, base_es. split; [reflexivity|]. split; [exact Hun5|].
    split; [apply lookup_snoc|].
    apply (entries_unchanged h4 h5 _ _ Hun5 HF). }
  assert (Hgen :
            match Tree.js_length rx with
            | None =>
                (len <- js_length rf ;;
                 positive <- gt_zero coerced_h len ;;
                 if positive then set_prop (length h4) "required" rf
                 else ret tt) h5 = TypeError
            | Some len =>
                exists h6 es6,
                  (len <- js_length rf ;;
                   positive <- gt_zero coerced_h len ;;
                   if positive then set_prop (length h4) "required" rf
                   else ret tt) h5 = Ok (tt, h6)
                  /\ unchanged_below (length h4) h4 h6
                  /\ h6 !! length h4
                     = Some {| is_array := false; entries := es6 |}
                  /\ Forall2 (entry_repr (fun _ => True) h6) es6
                       (if Tree.gt_zero coerced len
                        then obj_set "required" rx base else base)
            end).
  { pose proof (js_length_refines h5 rf rx
                  (repr_unchanged h4 h5 _ _ Hun5 Hrf)) as Hlen.
    destruct (Tree.js_length rx) as [len|]; [|apply bind_type_error, Hlen].
    destruct Hlen as (w & Hw & Hwr).
    rewrite (bind_run _ _ h5 w h5 Hw).
    rewrite (bind_run _ _ h5 _ h5 (gt_zero_refines h5 w len Hwr)).
    destruct (Tree.gt_zero coerced len); [|exact Hskip].
    set (h6 := <[length h4 := {| is_array := false;
                                 entries := hset "required" rf base_es |}]>
                 h5).
    assert (Hun6 : unchanged_below (length h4) h4 h6).
    { eapply unchanged_below_trans; [exact Hun5|].
      apply unchanged_below_insert. lia. }
    exists h6, (hset "required" rf base_es).
    split; [apply (set_prop_run h5 (length h4) _ _ _ (lookup_snoc h4 _))|].
    split; [exact Hun6|]. split.
    { apply list_lookup_insert_eq. unfold h5. rewrite length_app. simpl. lia. }
    apply entries_set.
    - apply (entries_unchanged h4 h6 _ _ Hun6 HF).
    - apply (repr_unchanged h4 h6 _ _ Hun6 Hrf). }
  unfold required_tree, required_part. unfold repr in Hrf.
  destruct rx; simpl in Hrf;
    try (subst rf; first [exact Hskip|exact Hgen]);
    destruct Hrf as (l & es & -> & _); exact Hgen.
Qed.

Definition anthropic_repr (h : store) (a : AnthropicToolSpec)
    (pa : Tree.AnthropicToolSpec) : Prop :=
  an_name a = Tree.an_name pa
  /\ an_description a = Tree.an_description pa
  /\ repr h (HRef (input_schema a)) (VObj (Tree.input_schema pa)).

Lemma getAnthropicSpec_refines (h : store) (c : option loc) :
  cache_inv h c ->
  match Tree.getAnthropicSpec coerced t with
  | None => getAnthropicSpec t coerced_h c h = TypeError
  | Some pa =>
      exists a l h',
        getAnthropicSpec t coerced_h c h = Ok ((a, Some l), h')
        /\ unchanged_below (length h) h h'
        /\ cache_inv h' (Some l)
        /\ (forall l0, c = Some l0 -> l0 = l)
        /\ anthropic_repr h' a pa
  end.
Proof.
  intros Hc. unfold getAnthropicSpec.
  assert (Htree :
            Tree.getAnthropicSpec coerced t
            = match Tree.unwrap_schema t (zodToJsonSchema t) with
              | None => None
              | Some p =>
                  let clean := obj_remove "$schema" (Tree.own_entries p) in
                  option_map
                    (fun o => {| Tree.an_name := ts_name t;
                                 Tree.an_description := ts_description t;
                                 Tree.input_schema := o |})
                    (required_tree (obj_get "required" clean)
                       (Tree.base_input_schema clean))
              end).
  { unfold Tree.getAnthropicSpec, required_tree, Tree.base_input_schema.
    destruct (Tree.unwrap_schema t (zodToJsonSchema t)) as [p|];
      [|reflexivity].
    cbv zeta.
    destruct (obj_get "required" _); try reflexivity;
      destruct (Tree.js_length _); reflexivity. }
  rewrite Htree. clear Htree.
  destruct (getJsonSchema_refines h c Hc) as (l & h1 & Hjs & Hun1 & Hr1 & Hl).
  rewrite (bind_run _ _ h _ h1 Hjs). cbn [fst snd].
  pose proof (unwrap_schema_refines h1 l Hr1) as Hu.
  destruct (Tree.unwrap_schema t (zodToJsonSchema t)) as [p|];
    [|apply bind_type_error, Hu].
  destruct Hu as (v & h2 & Hv & Hun2 & Hr2).
  rewrite (bind_run _ _ h1 _ h2 Hv).
  destruct (own_entries_refines h2 v p Hr2) as (es & Hes & HF).
  rewrite (bind_run _ _ h2 _ h2 Hes). cbv zeta.
  set (clean := obj_remove "$schema" (Tree.own_entries p)).
  set (ces := hremove "$schema" es).
  set (CS := length h2).
  set (h3 := (h2 ++ [{| is_array := false; entries := ces |}])%list).
  rewrite (bind_run _ _ h2 CS h3) by reflexivity.
  assert (Hun3 : unchanged_below (length h2) h2 h3)
    by apply unchanged_below_snoc.
  assert (HFc : Forall2 (entry_repr (fun _ => True) h3) ces clean)
    by (apply (entries_unchanged h2 h3 _ _ Hun3), entries_remove, HF).
  assert (HCS : h3 !! CS = Some {| is_array := false; entries := ces |})
    by apply lookup_snoc.
  rewrite (bind_run _ _ h3 _ h3 (get_prop_run h3 CS _ "required" HCS)).
  rewrite (bind_run _ _ h3 _ h3 (get_prop_run h3 CS _ "properties" HCS)).
  cbn [entries].
  destruct (or_empty_refines h3 _ _ (entries_get _ _ _ _ "properties" HFc))
    as (pv & h4 & Hpv & Hun4 & Hpr).
  rewrite (bind_run _ _ h3 _ h4 Hpv).
  set (base_es := [("type", HStr "object"); ("properties", pv)]).
  set (h5 := (h4 ++ [{| is_array := false; entries := base_es |}])%list).
  rewrite (bind_run _ _ h4 (length h4) h5) by reflexivity.
  assert (Hrf : repr h4 (hget "required" ces) (obj_get "required" clean))
    by (apply (repr_unchanged h3 h4 _ _ Hun4),
          (entries_get _ _ _ _ "required" HFc)).
  assert (Hbase : Forall2 (entry_repr (fun _ => True) h4) base_es
                    (Tree.base_input_schema clean)).
  { constructor; [split; reflexivity|].
    constructor; [split; [reflexivity|exact Hpr]|constructor]. }
  pose proof (required_part_refines h4 base_es _ _ _ Hrf Hbase) as Hreq.
  cbv zeta in Hreq. fold h5 in Hreq.
  change (match hget "required" ces with
          | HUndefined => ret tt
          | _ =>
              len <- js_length (hget "required" ces) ;;
              positive <- gt_zero coerced_h len ;;
              if positive
              then set_prop (length h4) "required" (hget "required" ces)
              else ret tt
          end)
    with (required_part (length h4) (hget "required" ces)).
  destruct (required_tree (obj_get "required" clean)
              (Tree.base_input_schema clean)) as [o|];
    [|apply bind_type_error, Hreq].
  destruct Hreq as (h6 & es6 & Hrun & Hun6 & HIS & HF6).
  rewrite (bind_run _ _ h5 tt h6 Hrun). simpl option_map.
  eexists _, l, h6. split; [reflexivity|].
  assert (Hun : unchanged_below (length h1) h1 h6).
  { eapply unchanged_chain; [exact Hun2|].
    eapply unchanged_chain; [exact Hun3|].
    eapply unchanged_chain; [exact Hun4|exact Hun6]. }
  split; [eapply unchanged_chain; [exact Hun1|exact Hun]|].
  split; [intros l' [= <-]; apply (repr_unchanged h1 h6 _ _ Hun Hr1)|].
  split; [intros l0 Hl0; apply (Hl l0 Hl0)|].
  repeat split. simpl. apply repr_in_obj. exists (length h4), es6.
  split; [reflexivity|]. split; [exact I|]. split; [exact HIS|exact HF6].
Qed.

End Refinement.

(** A store value stands for at most one tree, so that two results standing
    for the same tree are the same specification. *)
Lemma entries_functional P Q (h : store) (es : list (string * hval))
    (fs fs' : obj) :
  Forall2 (entry_repr P h) es fs ->
  Forall2 (entry_repr Q h) es fs' ->
  (forall f, In f fs ->
     forall v y, repr_in P h v (snd f) -> repr_in Q h v y -> snd f = y) ->
  fs = fs'.
Proof.
  intros HF. revert fs'.
  induction HF as [|e f es fs [Hk Hr] _ IH]; intros fs' HF' Hfun;
    inversion HF' as [|? f' ? fs2 [Hk' Hr'] Hrest]; subst; [reflexivity|].
  f_equal.
  - destruct f as [k x], f' as [k' x']. simpl in *. f_equal.
    + congruence.
    + apply (Hfun (k, x) (or_introl eq_refl) (snd e) x' Hr Hr').
  - apply IH; [exact Hrest|].
    intros f0 Hin. apply Hfun. right. exact Hin.
Qed.

Lemma elements_of_named (name : nat -> string) (xs : list value) :
  map snd (imap (fun i x => (name i, x)) xs) = xs.
Proof.
  revert name. induction xs as [|x xs IH]; intros name; [reflexivity|].
  simpl. f_equal. exact (IH (fun i => name (S i))).
Qed.

Lemma elements_of_entries (xs : list value) :
  map snd (Tree.own_entries (VArr xs)) = xs.
Proof. apply (elements_of_named (fun i => pretty i)). Qed.

Lemma repr_in_functional P Q (h : store) (x : value) :
  forall v y, repr_in P h v x -> repr_in Q h v y -> x = y.
Proof.
  induction x as [x IH] using value_depth_ind. intros v y Hx Hy.
  destruct (is_object x) eqn:Hobj.
  - apply (repr_in_object P h v x Hobj) in Hx
      as (l & es & -> & _ & Hl & HF).
    assert (Hyo : is_object y = true).
    { destruct y; simpl in Hy; try discriminate; reflexivity. }
    apply (repr_in_object Q h (HRef l) y Hyo) in Hy
      as (l' & es' & [= <-] & _ & Hl' & HF').
    rewrite Hl in Hl'. injection Hl' as Harr <-.
    assert (Hes : Tree.own_entries x = Tree.own_entries y).
    { apply (entries_functional P Q h es _ _ HF HF').
      intros [k z] Hin v y0. apply IH.
      apply (depth_own_entry x k z Hobj Hin). }
    destruct x as [| | | | |xs|o], y as [| | | | |ys|o']; try discriminate.
    + f_equal. rewrite <- (elements_of_entries xs),
        <- (elements_of_entries ys), Hes. reflexivity.
    + simpl in Hes. subst o'. reflexivity.
  - destruct x; try discriminate; simpl in Hx; subst v;
      destruct y; simpl in Hy; try discriminate; try congruence;
      destruct Hy as (l & es & Hv & _); discriminate.
Qed.

Lemma repr_functional (h : store) (v : hval) (x y : value) :
  repr h v x -> repr h v y -> x = y.
Proof. apply repr_in_functional. Qed.

(** *** The cached schema across calls *)

(** Two runs yield the same specification: both raise, or both return
    results that stand for one and the same tree. *)
Definition same_specification {A B : Type}
    (stands_for : store -> A -> B -> Prop)
    (r1 r2 : res (A * option loc * store)) : Prop :=
  (r1 = TypeError /\ r2 = TypeError)
  \/ exists a1 c1 h1 a2 c2 h2 p,
       r1 = Ok (a1, c1, h1) /\ r2 = Ok (a2, c2, h2)
       /\ stands_for h1 a1 p /\ stands_for h2 a2 p.

Section CachedSchema.

Variable t : ToolSchema.
Variable coerced_h : store -> hval -> bool.
Variable coerced : value -> bool.
Hypothesis coerced_agree :
  forall h v x, repr h v x -> coerced_h h v = coerced x.

Lemma same_openai (fuel : nat) (h1 h2 : store) (c1 c2 : option loc) :
  cache_inv t h1 c1 -> cache_inv t h2 c2 ->
  (depth (VObj (zodToJsonSchema t)) <= fuel)%nat ->
  same_specification openai_repr
    (getOpenAISpec t fuel false c1 h1) (getOpenAISpec t fuel false c2 h2).
Proof.
  intros H1 H2 Hfuel.
  pose proof (getOpenAISpec_refines t fuel false h1 c1 H1 Hfuel) as Ha.
  pose proof (getOpenAISpec_refines t fuel false h2 c2 H2 Hfuel) as Hb.
  destruct (Tree.getOpenAISpec t false) as [p|]; [right|left; split; assumption].
  destruct Ha as (a1 & l1 & h1' & Hr1 & _ & _ & _ & Hp1).
  destruct Hb as (a2 & l2 & h2' & Hr2 & _ & _ & _ & Hp2).
  exists a1, (Some l1), h1', a2, (Some l2), h2', p.
  split; [exact Hr1|]. split; [exact Hr2|]. split; [exact Hp1|exact Hp2].
Qed.

Lemma same_anthropic (h1 h2 : store) (c1 c2 : option loc) :
  cache_inv t h1 c1 -> cache_inv t h2 c2 ->
  same_specification anthropic_repr
    (getAnthropicSpec t coerced_h c1 h1) (getAnthropicSpec t coerced_h c2 h2).
Proof.
  intros H1 H2.
  pose proof (getAnthropicSpec_refines t coerced_h coerced coerced_agree
                h1 c1 H1) as Ha.
  pose proof (getAnthropicSpec_refines t coerced_h coerced coerced_agree
                h2 c2 H2) as Hb.
  destruct (Tree.getAnthropicSpec coerced t) as [p|];
    [right|left; split; assumption].
  destruct Ha as (a1 & l1 & h1' & Hr1 & _ & _ & _ & Hp1).
  destruct Hb as (a2 & l2 & h2' & Hr2 & _ & _ & _ & Hp2).
  exists a1, (Some l1), h1', a2, (Some l2), h2', p.
  split; [exact Hr1|]. split; [exact Hr2|]. split; [exact Hp1|exact Hp2].
Qed.

(** C10: generating a strict OpenAI spec never mutates the tool's cached JSON
    schema. Whenever [getOpenAISpec({strict: true})] returns, every object
    that was in the store before the call is as it was, the cache (kept, or
    filled by this call) still stands for the schema [zodToJsonSchema] gave,
    and [getOpenAISpec()] and [getAnthropicSpec()] called afterwards yield
    the same specifications as they do without the strict call. When the
    strict call raises, for want of the wrapped definition, so do the other
    two. *)
Theorem C10_strict_keeps_cache (fuel : nat) (h : store) (c : option loc) :
  cache_inv t h c ->
  (depth (VObj (zodToJsonSchema t)) <= fuel)%nat ->
  match Tree.getOpenAISpec t true with
  | None =>
      getOpenAISpec t fuel true c h = TypeError
      /\ getOpenAISpec t fuel false c h = TypeError
      /\ getAnthropicSpec t coerced_h c h = TypeError
  | Some _ =>
      exists s l h1,
        getOpenAISpec t fuel true c h = Ok (s, Some l, h1)
        /\ unchanged_below (length h) h h1
        /\ (forall l0, c = Some l0 -> l0 = l)
        /\ cache_inv t h1 (Some l)
        /\ same_specification openai_repr
             (getOpenAISpec t fuel false (Some l) h1)
             (getOpenAISpec t fuel false c h)
        /\ same_specification anthropic_repr
             (getAnthropicSpec t coerced_h (Some l) h1)
             (getAnthropicSpec t coerced_h c h)
  end.
Proof.
  intros Hc Hfuel.
  pose proof (getOpenAISpec_refines t fuel true h c Hc Hfuel) as Hs.
  pose proof (getOpenAISpec_refines t fuel false h c Hc Hfuel) as Hn.
  pose proof (getAnthropicSpec_refines t coerced_h coerced coerced_agree
                h c Hc) as Ha.
  unfold Tree.getOpenAISpec, Tree.getAnthropicSpec in *. cbv zeta in *.
  destruct (Tree.unwrap_schema t (zodToJsonSchema t)) as [p|].
  - destruct Hs as (s & l & h1 & Hrun & Hun & Hc1 & Hl & _).
    exists s, l, h1. split; [exact Hrun|]. split; [exact Hun|].
    split; [exact Hl|]. split; [exact Hc1|]. split.
    + apply (same_openai fuel h1 h (Some l) c Hc1 Hc Hfuel).
    + apply (same_anthropic h1 h (Some l) c Hc1 Hc).
  - split; [exact Hs|]. split; [exact Hn|exact Ha].
Qed.

End CachedSchema.

(** The strict call on a tool with an optional field, from an empty store
    and an empty cache. *)
Lemma C10_strict_keeps_cache_witness :
  exists s l h1,
    getOpenAISpec optional_tool 10 true None [] = Ok (s, Some l, h1)
    /\ unchanged_below 0 [] h1
    /\ (forall l0, @None loc = Some l0 -> l0 = l)
    /\ cache_inv optional_tool h1 (Some l)
    /\ same_specification openai_repr
         (getOpenAISpec optional_tool 10 false (Some l) h1)
         (getOpenAISpec optional_tool 10 false None [])
    /\ same_specification anthropic_repr
         (getAnthropicSpec optional_tool (fun _ _ => false) (Some l) h1)
         (getAnthropicSpec optional_tool (fun _ _ => false) None []).
Proof.
  refine (C10_strict_keeps_cache optional_tool (fun _ _ => false)
            (fun _ => false) (fun _ _ _ _ => eq_refl) 10 [] None _ _).
  - intros l Hl. discriminate Hl.
  - simpl. lia.
Defined.

(** The same run, read back: the cache at location [l] still holds the schema
    as generated, and the parameters of the strict spec are another object. *)
Example strict_run_on_optional :
  match getOpenAISpec optional_tool 10 true None [] with
  | Ok (s, Some l, h1) =>
      reify 10 h1 (HRef l) = Some (VObj optional_json)
      /\ reify 10 h1 (HRef (parameters s))
         = Some (VObj [("type", VStr "object");
                       ("properties",
                        VObj [("value", VObj [("type", VStr "string")])]);
                       ("additionalProperties", VBool false);
                       ("required", VArr [VStr "value"])])
  | _ => False
  end.
Proof. vm_compute. split; reflexivity. Qed.

End Store.

(** * More of the pipeline

    The paths of [_executeCore] one by one: what is thrown or returned on
    each, which user code ran, and in what order. *)

(** The events a hook slot leaves in the trace when it is fired. *)
Definition hook_events {S P : Type} (h : HookName)
    (hook : option (@user_fn S P unit)) : list event :=
  match hook with
  | Some _ => [EvHook h]
  | None => []
  end.

(** [ExoError] and its subclasses: what [ExoTool] itself constructs. *)
Definition is_ExecutionError (e : exn) : bool :=
  match e with ExecutionError _ _ _ => true | _ => false end.

Definition is_ExoError (e : exn) : bool :=
  is_ValidationError e || is_RiskViolation e || is_ConfirmationRequired e
  || is_ExecutionError e.

(** How many times the executor was invoked, by the trace. *)
Definition is_executor_event (ev : event) : bool :=
  match ev with EvExecutor _ _ => true | EvHook _ => false end.

Definition executor_calls (tr : list event) : nat :=
  length (List.filter is_executor_event tr).

(** The rendering of an issue that the field list is meant to carry. *)
Definition field_error_of (issue : ZodIssue) : FieldError :=
  let p := join_dot (map segment_str (path issue)) in
  {| field := if String.eqb p EmptyString then "_root" else p;
     message := issue_message issue |}.

(** An issue that survives the round trip through [path: message]: no colon
    in the joined path, and, for an issue at the root, no colon in the
    message past its first character. *)
Definition colon_free (issue : ZodIssue) : Prop :=
  let p := join_dot (map segment_str (path issue)) in
  indexOf colon p = -1
  /\ (p = EmptyString -> indexOf colon (issue_message issue) <= 0).

Section CorePaths.

Context {S : Type}.
Variable performance_now : S -> Z.
Variable js_String : value -> string.
Variable risk_message : string -> string -> option string -> string.
Variable confirmation_message : string -> string.

Local Abbreviation exec :=
  (execute performance_now js_String risk_message confirmation_message).
Local Abbreviation core :=
  (_executeCore performance_now js_String risk_message confirmation_message).

(** Whether a call gets as far as the executor: the arguments validate, the
    role gate of a HIGH tool lets the caller through, and a tool that
    requires confirmation is called with [confirmed: true]. *)
Definition admitted (t : @ExoTool S) (args : value) (context : ExoContext)
    (options : ExecutionOptions) : bool :=
  match safeParse t args with
  | ParseFailure _ => false
  | ParseSuccess _ =>
      (negb (RiskLevel_eqb (riskLevel (config t)) HIGH)
       || opt_string_eqb (option_map role (user context)) "admin"
       || opt_true (isAdmin context)
       || opt_true (sudo options))
      && (negb (requiresConfirmation (config t))
          || opt_true (confirmed options))
  end.

(** The tool with other values for the settings [execute] has no use for. *)
Definition with_knobs (t : @ExoTool S) (timeout' : Z) (retryable' : bool)
    (maxRetries' : Z) (tags' : list string) : @ExoTool S :=
  {| name := name t; description := description t; safeParse := safeParse t;
     executor := executor t;
     config := {| riskLevel := riskLevel (config t);
                  requiresConfirmation := requiresConfirmation (config t);
                  timeout := timeout';
                  retryable := retryable';
                  maxRetries := maxRetries';
                  tags := tags';
                  hooks := hooks (config t);
                  middleware := middleware (config t) |} |}.

Lemma safeFireHook_run {P} h (hook : option (@user_fn S P unit)) payload w :
  fst (safeFireHook h hook payload w) = Returned tt
  /\ w_trace (snd (safeFireHook h hook payload w))
     = (w_trace w ++ hook_events h hook)%list.
Proof.
  destruct hook as [f|]; simpl.
  - unfold bind, try_catch, log, call_user, ret. simpl.
    destruct (f payload (w_state w)) as [[[]|e] s']; split; reflexivity.
  - split; [reflexivity|]. symmetry. apply app_nil_r.
Qed.

Lemma safeFireHook_eq {P} h (hook : option (@user_fn S P unit)) payload w :
  safeFireHook h hook payload w
  = (Returned tt, snd (safeFireHook h hook payload w)).
Proof.
  destruct (safeFireHook_run h hook payload w) as [H _].
  destruct (safeFireHook h hook payload w) as [o w']. simpl in *.
  rewrite H. reflexivity.
Qed.

(** The two gates, as [_executeCore] tests them. *)
Lemma gates_pass (t : @ExoTool S) (context : ExoContext)
    (options : ExecutionOptions) :
  (riskLevel (config t) = HIGH -> ~ role_gate_refuses context options) ->
  (requiresConfirmation (config t) = true -> confirmed options = Some true) ->
  (RiskLevel_eqb (riskLevel (config t)) HIGH
   && (negb (opt_string_eqb (option_map role (user context)) "admin"
             || opt_true (isAdmin context))
       && negb (opt_true (sudo options))) = false)
  /\ requiresConfirmation (config t) && negb (opt_true (confirmed options))
     = false.
Proof.
  intros Hg Hc. split.
  - destruct (RiskLevel_eqb (riskLevel (config t)) HIGH) eqn:Hr;
      [|reflexivity].
    assert (Hh : riskLevel (config t) = HIGH)
      by (destruct (riskLevel (config t)); simpl in Hr; congruence).
    specialize (Hg Hh). rewrite role_gate_refuses_spec in Hg.
    apply not_true_is_false in Hg. exact Hg.
  - destruct (requiresConfirmation (config t)); [|reflexivity].
    rewrite (Hc eq_refl). reflexivity.
Qed.

(** *** Validation *)

(** X1: validation comes first. When the arguments do not validate,
    [execute] throws the [ValidationError] of the tool, with one field error
    per issue and the raw arguments as details, whatever the risk level, the
    confirmation setting, the context and the options; interceptors that
    pass [next()] on have run their pre-phase only, and neither the executor
    nor a hook was invoked. *)
Theorem validation_comes_first (t : @ExoTool S) (args : value)
    (context : ExoContext) (options : ExecutionOptions)
    (ps : list (@phases S)) (issues : list ZodIssue) (w : @world S) :
  default [] (middleware (config t)) = onions ps ->
  safeParse t args = ParseFailure issues ->
  exec t args context options w
  = (Thrown (ValidationError
               ("Validation failed for tool " +:+ dquote +:+ name t +:+ dquote)
               (map (fun issue => to_field_error (format_issue issue)) issues)
               [("args", args)]),
     pre_phase (params_of t args context) ps w)
  /\ w_trace (pre_phase (params_of t args context) ps w) = w_trace w.
Proof.
  intros Hm Hp. rewrite execute_chain, Hm.
  rewrite <- (app_nil_r (onions ps)), chain_onions, chain_nil. cbv zeta.
  rewrite (core_validation_failure _ _ _ _ _ _ _ _ issues) by exact Hp.
  rewrite map_map. split; [reflexivity|apply pre_phase_trace].
Qed.

(** X2: the field list, where the round trip through [path: message] loses
    nothing. When no issue has a colon in its joined path, nor, for an issue
    at the root, in its message past the first character, the field errors
    are the issues one for one: the path joined with dots (or [_root] when
    the joined path is empty) and the message of the issue. *)
Theorem field_errors_round_trip (t : @ExoTool S) (args : value)
    (context : ExoContext) (options : ExecutionOptions)
    (issues : list ZodIssue) (w : @world S) :
  safeParse t args = ParseFailure issues ->
  Forall colon_free issues ->
  core t args context options w
  = (Thrown (ValidationError
               ("Validation failed for tool " +:+ dquote +:+ name t +:+ dquote)
               (map field_error_of issues)
               [("args", args)]),
     w).
Proof.
  intros Hp Hfree.
  rewrite (core_validation_failure _ _ _ _ _ _ _ _ issues) by exact Hp.
  rewrite map_map. do 3 f_equal. clear Hp.
  induction Hfree as [|issue issues [Hpath Hroot] _ IH]; [reflexivity|].
  simpl. f_equal; [|exact IH].
  destruct (field_errors_without_colon issue Hpath) as [Hsome Hnone].
  unfold field_error_of.
  destruct (String.eqb_spec (join_dot (map segment_str (path issue)))
              EmptyString) as [He|Hne].
  - apply Hnone; [exact He|apply Hroot, He].
  - apply Hsome, Hne.
Qed.

(** *** The way to the executor, and back *)

Ltac core_steps :=
  unfold _executeCore, validate, bind, try_catch, now, ret, throw.

(** X3: the path of a call that is let through and whose executor returns.
    The [onStart] hook is fired with the parsed data, then the executor is
    called on the parsed data and the context, once; the result is
    [{success: true, data, metadata}] with [executionTime] the time from the
    start of [_executeCore] to the return of the executor, and the
    [onSuccess] hook is fired last, with that same duration. No [onError]
    hook is fired. *)
Theorem core_success (t : @ExoTool S) (args : value) (context : ExoContext)
    (options : ExecutionOptions) (parsed : value) (w : @world S)
    (d : value) (s2 : S) :
  safeParse t args = ParseSuccess parsed ->
  (riskLevel (config t) = HIGH -> ~ role_gate_refuses context options) ->
  (requiresConfirmation (config t) = true -> confirmed options = Some true) ->
  let w1 :=
    snd (safeFireHook onStart (lookup_hook t hook_onStart)
           {| hs_toolName := name t; hs_args := parsed;
              hs_context := context |} w) in
  executor t parsed context (w_state w1) = (Returned d, s2) ->
  let duration := performance_now s2 - performance_now (w_state w) in
  let w3 :=
    snd (safeFireHook onSuccess (lookup_hook t hook_onSuccess)
           {| hk_toolName := name t; hk_result := d; hk_duration := duration;
              hk_context := context |}
           {| w_state := s2;
              w_trace := (w_trace w1 ++ [EvExecutor parsed context])%list |}) in
  core t args context options w
  = (Returned {| success := true;
                 data := Some d;
                 error := None;
                 metadata :=
                   Some [("executionTime", VNum duration);
                         ("toolName", VStr (name t));
                         ("riskLevel",
                          VStr (RiskLevel_str (riskLevel (config t))))] |},
     w3)
  /\ w_trace w3
     = (w_trace w ++ hook_events onStart (lookup_hook t hook_onStart)
          ++ [EvExecutor parsed context]
          ++ hook_events onSuccess (lookup_hook t hook_onSuccess))%list.
Proof.
  intros Hp Hg Hc w1 Hx duration w3.
  destruct (gates_pass t context options Hg Hc) as [G1 G2].
  split.
  - core_steps. rewrite Hp. cbn [vr_success vr_data negb].
    rewrite G2.
    destruct (RiskLevel_eqb (riskLevel (config t)) HIGH);
      cbn [andb] in G1; [rewrite G1|]; cbn [fst snd];
      rewrite safeFireHook_eq; fold w1;
      unfold log, call_user; cbn [w_state w_trace];
      rewrite Hx; cbn [set_state w_state w_trace];
      rewrite safeFireHook_eq; reflexivity.
  - unfold w3.
    rewrite (proj2 (safeFireHook_run _ _ _ _)). cbn [w_trace].
    unfold w1. rewrite (proj2 (safeFireHook_run _ _ _ _)).
    rewrite <- !app_assoc. reflexivity.
Qed.


(** *** Every path at once *)

Lemma executor_calls_app (a b : list event) :
  executor_calls (a ++ b) = (executor_calls a + executor_calls b)%nat.
Proof. unfold executor_calls. rewrite List.filter_app, length_app. reflexivity. Qed.

Lemma executor_calls_hook_events {P} h (hook : option (@user_fn S P unit)) :
  executor_calls (hook_events h hook) = O.
Proof. destruct hook; reflexivity. Qed.

(** A call is refused before any user code ran, or it reaches the executor,
    which is then invoked once, between the hooks. *)
Lemma core_cases (t : @ExoTool S) (args : value) (context : ExoContext)
    (options : ExecutionOptions) (w : @world S) :
  (admitted t args context options = false
   /\ exists e,
        core t args context options w = (Thrown e, w)
        /\ is_ExoError e = true /\ is_ExecutionError e = false)
  \/ (admitted t args context options = true
      /\ exists parsed o w' tail,
           safeParse t args = ParseSuccess parsed
           /\ core t args context options w = (o, w')
           /\ w_trace w'
              = (w_trace w ++ hook_events onStart (lookup_hook t hook_onStart)
                   ++ [EvExecutor parsed context] ++ tail)%list
           /\ match o with
              | Returned r =>
                  success r = true
                  /\ tail = hook_events onSuccess (lookup_hook t hook_onSuccess)
              | Thrown e =>
                  is_ExecutionError e = true
                  /\ tail = hook_events onError (lookup_hook t hook_onError)
              end).
Proof.
  unfold admitted. core_steps.
  destruct (safeParse t args) as [parsed|issues]; cbn [vr_success vr_data negb];
    [|left; split; [reflexivity|]; eexists; split; [reflexivity|];
      split; reflexivity].
  destruct (RiskLevel_eqb (riskLevel (config t)) HIGH);
    destruct (opt_string_eqb (option_map role (user context)) "admin");
    destruct (opt_true (isAdmin context));
    destruct (opt_true (sudo options));
    destruct (requiresConfirmation (config t));
    destruct (opt_true (confirmed options));
    cbn [negb andb orb fst snd];
    try (left; split; [reflexivity|]; eexists; split; [reflexivity|];
         split; reflexivity).
  all: right; split; [reflexivity|]; exists parsed.
  all: rewrite safeFireHook_eq.
  all: match goal with
       | |- context [snd (safeFireHook onStart ?k ?p ?w0)] =>
           pose proof (proj2 (safeFireHook_run onStart k p w0)) as Htr;
           set (w1 := snd (safeFireHook onStart k p w0)) in *
       end.
  all: unfold log, call_user; cbn [w_state w_trace].
  all: destruct (executor t parsed context (w_state w1)) as [[d|err] s2];
    cbn [set_state w_state w_trace].
  all: rewrite safeFireHook_eq.
  all: match goal with
       | |- context [snd (safeFireHook ?h ?k ?p ?w0)] =>
           pose proof (proj2 (safeFireHook_run h k p w0)) as Htr2;
           set (w3 := snd (safeFireHook h k p w0)) in *
       end.
  all: unfold set_state in Htr2; cbn [w_trace w_state] in Htr2;
    rewrite Htr, <- !app_assoc in Htr2.
  all: eexists _, w3, _; split; [reflexivity|]; split; [reflexivity|].
  all: split; [exact Htr2|split; reflexivity].
Qed.


(** X6: the executor runs once per admitted call, and not at all otherwise.
    [_executeCore] invokes the executor exactly once when the arguments
    validate and both gates let the call through, whether the executor
    returns or throws (there is no retry), and a call that is not admitted
    throws with the world untouched. *)
Theorem executor_runs_once_iff_admitted (t : @ExoTool S) (args : value)
    (context : ExoContext) (options : ExecutionOptions) (w : @world S) :
  executor_calls (w_trace (snd (core t args context options w)))
  = (executor_calls (w_trace w)
     + if admitted t args context options then 1 else 0)%nat
  /\ (admitted t args context options = false ->
      exists e, core t args context options w = (Thrown e, w)).
Proof.
  destruct (core_cases t args context options w)
    as [(Hadm & e0 & Hrun & Hexo & Hnot)
       |(Hadm & parsed & o & w0 & tail & Hp & Hrun & Htr & Ho)];
    rewrite Hrun, Hadm; cbn [snd].
  - split; [lia|]. intros _. exists e0. reflexivity.
  - split; [|discriminate].
    rewrite Htr, !executor_calls_app, executor_calls_hook_events.
    assert (Htail : executor_calls tail = O).
    { destruct o as [r|e0]; destruct Ho as [_ ->];
        apply executor_calls_hook_events. }
    rewrite Htail. simpl. lia.
Qed.

(** X7: the settings [timeout], [retryable], [maxRetries] and [tags] are
    kept on the tool and never read by [execute]: no timeout is enforced and
    nothing is retried, whatever their values. *)
Theorem execute_ignores_knobs (t : @ExoTool S) (timeout' : Z)
    (retryable' : bool) (maxRetries' : Z) (tags' : list string)
    (args : value) (context : ExoContext) (options : ExecutionOptions)
    (w : @world S) :
  exec (with_knobs t timeout' retryable' maxRetries' tags')
    args context options w
  = exec t args context options w.
Proof. reflexivity. Qed.

(** X8: an error of the core passes the interceptors as it is. With
    interceptors of the logging kind, which do not catch, an error thrown by
    [_executeCore] is the error [execute] throws, and the world is as the
    core left it: the pre-phases ran, no post-phase did. *)
Theorem core_error_skips_post_phases (t : @ExoTool S) (args : value)
    (context : ExoContext) (options : ExecutionOptions)
    (ps : list (@phases S)) (w w' : @world S) (e : exn) :
  default [] (middleware (config t)) = onions ps ->
  core t args context options (pre_phase (params_of t args context) ps w)
  = (Thrown e, w') ->
  exec t args context options w = (Thrown e, w').
Proof.
  intros Hm Hcore. rewrite execute_chain, Hm.
  rewrite <- (app_nil_r (onions ps)), chain_onions, chain_nil. cbv zeta.
  rewrite Hcore. reflexivity.
Qed.

End CorePaths.

(** The paths on the tools of the test suite. *)

Module Runs.

Import Demo.

(** A HIGH risk tool that also requires confirmation, behind one interceptor
    of the logging kind. *)
Definition guardedTool : @ExoTool World :=
  with_middleware nukeTool (Some (onions [(say "mw-start", say "mw-end")])).

(** A tool whose executor throws, with the hooks that throw as well. *)
Definition failingTool : @ExoTool World :=
  with_executor hookedTool
    (fun _ _ s => (Thrown (OtherError "boom"), (s ++ ["executor"])%list)).

Definition loggedFailingTool : @ExoTool World :=
  with_middleware failingTool
    (Some (onions [(say "mw-start", say "mw-end")])).

(** An executor that throws a string, not an [Error]. *)
Example thrown_string :
  fst (run_execute
         (with_executor echoTool
            (fun _ _ s => (Thrown (NonError (VStr "oops")), s)))
         hi empty_context empty_options start)
  = Thrown (ExecutionError
              ("Execution failed for tool " +:+ dquote +:+ "echo" +:+ dquote
                 +:+ ": Unknown error occurred")
              None
              [("args", hi); ("executionTime", VNum 0);
               ("toolName", VStr "echo")]).
Proof. reflexivity. Qed.

Lemma validation_comes_first_witness :
  run_execute guardedTool (VNum 3) guest empty_options start
  = (Thrown (ValidationError
               ("Validation failed for tool " +:+ dquote +:+ "echo" +:+ dquote)
               [{| field := "_root"; message := "Expected object" |}]
               [("args", VNum 3)]),
     {| w_state := ["mw-start"]; w_trace := [] |})
  /\ w_trace (pre_phase (params_of guardedTool (VNum 3) guest)
                [(say "mw-start", say "mw-end")] start) = [].
Proof.
  exact (validation_comes_first clock render riskMsg confirmMsg guardedTool
           (VNum 3) guest empty_options [(say "mw-start", say "mw-end")]
           [{| path := []; issue_message := "Expected object" |}] start
           eq_refl eq_refl).
Defined.

Lemma field_errors_round_trip_witness :
  run_core echoTool (VObj []) empty_context empty_options start
  = (Thrown (ValidationError
               ("Validation failed for tool " +:+ dquote +:+ "echo" +:+ dquote)
               [{| field := "value"; message := "Required" |}]
               [("args", VObj [])]),
     start).
Proof.
  apply (field_errors_round_trip clock render riskMsg confirmMsg echoTool
           (VObj []) empty_context empty_options
           [{| path := [PKey "value"]; issue_message := "Required" |}] start
           eq_refl).
  constructor; [|constructor].
  split; [reflexivity|]. intros H. discriminate H.
Defined.

Lemma core_success_witness :
  run_core hookedTool hi empty_context empty_options start
  = (Returned {| success := true;
                 data := Some hi;
                 error := None;
                 metadata := Some [("executionTime", VNum 1);
                                   ("toolName", VStr "echo");
                                   ("riskLevel", VStr "LOW")] |},
     {| w_state := ["executor"];
        w_trace := [EvHook onStart; EvExecutor hi empty_context;
                    EvHook onSuccess] |})
  /\ [EvHook onStart; EvExecutor hi empty_context; EvHook onSuccess]
     = [EvHook onStart; EvExecutor hi empty_context; EvHook onSuccess].
Proof.
  exact (core_success clock render riskMsg confirmMsg hookedTool hi
           empty_context empty_options hi start hi ["executor"] eq_refl
           ltac:(discriminate) ltac:(discriminate) eq_refl).
Defined.



Lemma core_error_skips_post_phases_witness :
  run_execute loggedFailingTool hi empty_context empty_options start
  = (Thrown (ExecutionError
               ("Execution failed for tool " +:+ dquote +:+ "echo" +:+ dquote
                  +:+ ": boom")
               (Some (OtherError "boom"))
               [("args", hi); ("executionTime", VNum 1);
                ("toolName", VStr "echo")]),
     {| w_state := ["mw-start"; "executor"];
        w_trace := [EvHook onStart; EvExecutor hi empty_context;
                    EvHook onError] |}).
Proof.
  exact (core_error_skips_post_phases clock render riskMsg confirmMsg
           loggedFailingTool hi empty_context empty_options
           [(say "mw-start", say "mw-end")] start _ _ eq_refl eq_refl).
Defined.

End Runs.

(** * More of the rate limiter

    What [createRateLimiter] does with its [storage] call after call: how
    many calls a window admits, what a refused caller is told, and what the
    cleanup timer changes. *)

(** What the limiter decides for a call, as a function of its storage, of
    the key of the call and of the time: to call [next()] with an updated
    storage, or to answer by itself. *)
Inductive decision : Type :=
| Admit (m : gmap string RateLimitEntry)
| Refuse (r : ExoExecutionResult).

Definition limiter_decide (options : RateLimiterOptions)
    (m : gmap string RateLimitEntry) (key : string) (now : Z) : decision :=
  let windowMs := default 60000 (windowMs options) in
  let limit := default 10 (limit options) in
  match m !! key with
  | Some e =>
      if now <? resetTime e then
        if limit <=? count e then Refuse (rate_limited (resetTime e) now)
        else Admit (<[key := {| count := count e + 1;
                                resetTime := resetTime e |}]> m)
      else Admit (<[key := {| count := 1; resetTime := now + windowMs |}]> m)
  | None => Admit (<[key := {| count := 1; resetTime := now + windowMs |}]> m)
  end.

(** Whether a call came back with [success: true]. *)
Definition succeeded (o : outcome ExoExecutionResult) : bool :=
  match o with
  | Returned r => success r
  | Thrown _ => false
  end.

(** The part of the default key that stands for the caller: [user.id], or
    else [userId], or else [global]. *)
Definition caller_of (context : ExoContext) : string :=
  match str_or (option_map id (user context)) (userId context) with
  | Some u => if String.eqb u EmptyString then "global" else u
  | None => "global"
  end.

Section LimiterFacts.

Context {S : Type}.
Variable Date_now : S -> Z.
Variable storage : S -> gmap string RateLimitEntry.
Variable set_storage : gmap string RateLimitEntry -> S -> S.
Variable set_now : Z -> S -> S.

Hypothesis storage_set : forall m s, storage (set_storage m s) = m.
Hypothesis now_set : forall time s, Date_now (set_now time s) = time.
Hypothesis storage_now : forall time s, storage (set_now time s) = storage s.

Variable performance_now : S -> Z.
Variable js_String : value -> string.
Variable risk_message : string -> string -> option string -> string.
Variable confirmation_message : string -> string.

Local Abbreviation exec :=
  (execute performance_now js_String risk_message confirmation_message).
Local Abbreviation core :=
  (_executeCore performance_now js_String risk_message confirmation_message).
Local Abbreviation limiter :=
  (createRateLimiter Date_now storage set_storage).

(** The interceptor does what [limiter_decide] says. *)
Lemma createRateLimiter_run (opts : RateLimiterOptions)
    (p : MiddlewareParams) (next : @M S ExoExecutionResult) (w : @world S) :
  run_middleware (limiter opts p) next w
  = match limiter_decide opts (storage (w_state w))
            (derive_key opts (mp_toolName p) (mp_context p))
            (Date_now (w_state w)) with
    | Admit m => next (set_state (set_storage m (w_state w)) w)
    | Refuse r => (Returned r, w)
    end.
Proof.
  unfold createRateLimiter, limiter_decide. simpl.
  destruct (storage (w_state w) !! _) as [e|]; simpl.
  - destruct (Date_now (w_state w) <? resetTime e); simpl.
    + destruct (default 10 (limit opts) <=? count e); simpl; [reflexivity|].
      destruct (next _); reflexivity.
    + destruct (next _); reflexivity.
  - destruct (next _); reflexivity.
Qed.

Lemma limited_exec (t : @ExoTool S) (opts : RateLimiterOptions)
    (args : value) (context : ExoContext) (options : ExecutionOptions)
    (w : @world S) :
  default [] (middleware (config t)) = [limiter opts] ->
  exec t args context options w
  = match limiter_decide opts (storage (w_state w))
            (derive_key opts (name t) context) (Date_now (w_state w)) with
    | Admit m =>
        core t args context options
          (set_state (set_storage m (w_state w)) w)
    | Refuse r => (Returned r, w)
    end.
Proof.
  intros Hm. rewrite execute_chain, Hm, chain_cons, chain_nil.
  apply createRateLimiter_run.
Qed.

(** X9: what a refused caller is told. When the window of the key is open
    and its count has reached the limit, [execute] answers
    [{success: false, error, metadata: {rateLimited: true}}] without data,
    the world untouched; the error reads [Rate limit exceeded. Try again in
    n seconds.] where [n] is the time left in the window in seconds, rounded
    up, so at least 1. *)
Theorem limiter_refusal (t : @ExoTool S) (opts : RateLimiterOptions)
    (args : value) (context : ExoContext) (options : ExecutionOptions)
    (w : @world S) (e : RateLimitEntry) :
  default [] (middleware (config t)) = [limiter opts] ->
  storage (w_state w) !! derive_key opts (name t) context = Some e ->
  Date_now (w_state w) < resetTime e ->
  default 10 (limit opts) <= count e ->
  exists n,
    exec t args context options w
    = (Returned {| success := false;
                   data := None;
                   error := Some ("Rate limit exceeded. Try again in "
                                  +:+ pretty n +:+ " seconds.");
                   metadata := Some [("rateLimited", VBool true)] |},
       w)
    /\ 1 <= n
    /\ 1000 * (n - 1) < resetTime e - Date_now (w_state w) <= 1000 * n.
Proof.
  intros Hm He Hnow Hc.
  exists (ceil_div (resetTime e - Date_now (w_state w)) 1000).
  rewrite (limited_exec t opts) by exact Hm.
  unfold limiter_decide. rewrite He.
  destruct (Z.ltb_spec (Date_now (w_state w)) (resetTime e)); [|lia].
  destruct (Z.leb_spec (default 10 (limit opts)) (count e)); [|lia].
  split; [reflexivity|].
  unfold ceil_div.
  pose proof (Z.div_mod (- (resetTime e - Date_now (w_state w))) 1000
                ltac:(lia)) as Hdiv.
  pose proof (Z.mod_pos_bound (- (resetTime e - Date_now (w_state w))) 1000
                ltac:(lia)) as Hmod.
  lia.
Qed.

(** X10: a call touches the window of its own key only. Whatever the
    limiter decides, and whatever a tool that leaves the storage alone does
    afterwards, the entry of every other key is as it was. *)
Theorem limiter_keys_independent (t : @ExoTool S) (opts : RateLimiterOptions)
    (args : value) (context : ExoContext) (options : ExecutionOptions)
    (w : @world S) (other : string) :
  default [] (middleware (config t)) = [limiter opts] ->
  private_tool storage t ->
  other <> derive_key opts (name t) context ->
  storage (w_state (snd (exec t args context options w))) !! other
  = storage (w_state w) !! other.
Proof.
  intros Hm Hpriv Hother. rewrite (limited_exec t opts) by exact Hm.
  pose proof (core_keeps_storage storage performance_now js_String
                risk_message confirmation_message t args context options
                Hpriv) as Hkeep.
  unfold limiter_decide.
  destruct (storage (w_state w) !! derive_key opts (name t) context)
    as [e|].
  - destruct (Date_now (w_state w) <? resetTime e).
    + destruct (default 10 (limit opts) <=? count e); [reflexivity|].
      rewrite Hkeep. simpl. rewrite storage_set.
      apply lookup_insert_ne. congruence.
    + rewrite Hkeep. simpl. rewrite storage_set.
      apply lookup_insert_ne. congruence.
  - rewrite Hkeep. simpl. rewrite storage_set.
    apply lookup_insert_ne. congruence.
Qed.

(** *** Call after call *)

(** The calls of the rate limiter tests: the same call made at the given
    times, one after the other; for each, whether it came back with
    [success: true]. *)
Fixpoint serve (t : @ExoTool S) (args : value) (context : ExoContext)
    (options : ExecutionOptions) (times : list Z) (w : @world S)
    : list bool :=
  match times with
  | [] => []
  | time :: rest =>
      let r := exec t args context options
                 (set_state (set_now time (w_state w)) w) in
      succeeded (fst r) :: serve t args context options rest (snd r)
  end.

(** A call that the tool itself always serves. *)
Definition always_served (t : @ExoTool S) (args : value)
    (context : ExoContext) (options : ExecutionOptions) : Prop :=
  forall w, exists r,
    fst (core t args context options w) = Returned r /\ success r = true.



(** *** The cleanup timer *)

Lemma cleanup_lookup (s : S) (k : string) :
  storage (cleanup Date_now storage set_storage s) !! k
  = match storage s !! k with
    | Some e => if resetTime e <? Date_now s then None else Some e
    | None => None
    end.
Proof.
  unfold cleanup. rewrite storage_set, map_lookup_filter.
  destruct (storage s !! k) as [e|]; [|reflexivity]. simpl.
  destruct (resetTime e <? Date_now s); reflexivity.
Qed.

(** Two storages that the limiter cannot tell apart under [key] from the
    time [bound] on: the same entry, or no entry in the one and an entry
    whose window closed before [bound] in the other. *)
Definition same_window (bound : Z) (a b : option RateLimitEntry) : Prop :=
  a = b \/ (a = None /\ exists e, b = Some e /\ resetTime e < bound).

Lemma decide_same_window (opts : RateLimiterOptions)
    (m1 m2 : gmap string RateLimitEntry) (key : string) (bound now : Z) :
  same_window bound (m1 !! key) (m2 !! key) -> bound <= now ->
  match limiter_decide opts m1 key now, limiter_decide opts m2 key now with
  | Refuse r1, Refuse r2 => r1 = r2 /\ m1 !! key = m2 !! key
  | Admit a, Admit b => a !! key = b !! key
  | _, _ => False
  end.
Proof.
  intros [Heq|(Hnone & e & Hsome & Hold)] Hnow; unfold limiter_decide.
  - rewrite Heq. destruct (m2 !! key) as [e|] eqn:He.
    + destruct (now <? resetTime e).
      * destruct (default 10 (limit opts) <=? count e).
        -- split; [reflexivity|congruence].
        -- rewrite !lookup_insert_eq. reflexivity.
      * rewrite !lookup_insert_eq. reflexivity.
    + rewrite !lookup_insert_eq. reflexivity.
  - rewrite Hnone, Hsome.
    destruct (Z.ltb_spec now (resetTime e)); [lia|].
    rewrite !lookup_insert_eq. reflexivity.
Qed.

Lemma serve_same_window (t : @ExoTool S) (opts : RateLimiterOptions)
    (args : value) (context : ExoContext) (options : ExecutionOptions)
    (bound : Z) (times : list Z) :
  default [] (middleware (config t)) = [limiter opts] ->
  private_tool storage t ->
  always_served t args context options ->
  Forall (fun time => bound <= time) times ->
  forall w1 w2 : @world S,
    same_window bound
      (storage (w_state w1) !! derive_key opts (name t) context)
      (storage (w_state w2) !! derive_key opts (name t) context) ->
    serve t args context options times w1
    = serve t args context options times w2.
Proof.
  intros Hm Hpriv Hserved Htimes.
  pose proof (core_keeps_storage storage performance_now js_String
                risk_message confirmation_message t args context options
                Hpriv) as Hkeep.
  induction Htimes as [|time rest Htime _ IH]; intros w1 w2 Hsame;
    [reflexivity|].
  cbn [serve]. rewrite !(limited_exec t opts) by exact Hm.
  cbn [set_state w_state]. rewrite !storage_now, !now_set.
  pose proof (decide_same_window opts _ _ _ bound time Hsame Htime) as Hd.
  destruct (limiter_decide opts (storage (w_state w1)) _ time) as [a|r1],
    (limiter_decide opts (storage (w_state w2)) _ time) as [b|r2];
    try contradiction.
  - match goal with
    | |- context [core t args context options ?wa] =>
        match goal with
        | |- context [core t args context options ?wb] =>
            lazymatch wa with
            | wb => fail
            | _ =>
                destruct (Hserved wa) as (ra & Hfa & Hoka);
                destruct (Hserved wb) as (rb & Hfb & Hokb);
                pose proof (Hkeep wa) as Hsa; pose proof (Hkeep wb) as Hsb
            end
        end
    end.
    cbn [set_state w_state] in Hsa, Hsb. rewrite storage_set in Hsa, Hsb.
    rewrite Hfa, Hfb. cbn [succeeded]. rewrite Hoka, Hokb. f_equal.
    apply IH. left. rewrite Hsa, Hsb.
    first [exact Hd|symmetry; exact Hd].
  - destruct Hd as [-> Hkey]. cbn [fst snd]. f_equal.
    apply IH. left. cbn [set_state w_state]. rewrite !storage_now.
    exact Hkey.
Qed.

(** X12: the cleanup timer. A run of the timer drops exactly the entries
    whose window closed before the time of the run and leaves the others as
    they are; and it does not change what the calls made from then on come
    back with: the same calls are served and refused as without it. *)
Theorem cleanup_is_transparent (t : @ExoTool S) (opts : RateLimiterOptions)
    (args : value) (context : ExoContext) (options : ExecutionOptions)
    (times : list Z) (w : @world S) :
  default [] (middleware (config t)) = [limiter opts] ->
  private_tool storage t ->
  always_served t args context options ->
  Forall (fun time => Date_now (w_state w) <= time) times ->
  (forall k,
      storage (cleanup Date_now storage set_storage (w_state w)) !! k
      = match storage (w_state w) !! k with
        | Some e => if resetTime e <? Date_now (w_state w) then None
                    else Some e
        | None => None
        end)
  /\ serve t args context options times
       (set_state (cleanup Date_now storage set_storage (w_state w)) w)
     = serve t args context options times w.
Proof.
  intros Hm Hpriv Hserved Htimes. split; [apply cleanup_lookup|].
  apply (serve_same_window t opts args context options
           (Date_now (w_state w)) times Hm Hpriv Hserved Htimes).
  cbn [set_state w_state]. rewrite cleanup_lookup.
  destruct (storage (w_state w) !! derive_key opts (name t) context)
    as [e|]; [|left; reflexivity].
  destruct (Z.ltb_spec (resetTime e) (Date_now (w_state w))).
  - right. split; [reflexivity|]. exists e. split; [reflexivity|assumption].
  - left. reflexivity.
Qed.

(** X28: the limiter counts calls, not executions. It runs before the
    arguments are validated: a call whose arguments do not validate, made
    when no window is open for its key, throws the [ValidationError] and
    has opened the window with a count of 1 all the same, without the
    executor or a hook having run; and a call that the limiter refuses is
    answered [{success: false}] whether its arguments validate or not. *)
Theorem limiter_counts_invalid_calls (t : @ExoTool S)
    (opts : RateLimiterOptions) (args : value) (context : ExoContext)
    (options : ExecutionOptions) (issues : list ZodIssue) (w : @world S) :
  default [] (middleware (config t)) = [limiter opts] ->
  safeParse t args = ParseFailure issues ->
  let key := derive_key opts (name t) context in
  let now := Date_now (w_state w) in
  (no_open_window Date_now storage key (w_state w) ->
   exists e w',
     exec t args context options w = (Thrown e, w')
     /\ is_ValidationError e = true
     /\ storage (w_state w') !! key
        = Some {| count := 1;
                  resetTime := now + default 60000 (windowMs opts) |}
     /\ w_trace w' = w_trace w)
  /\ (forall entry,
        storage (w_state w) !! key = Some entry ->
        now < resetTime entry -> default 10 (limit opts) <= count entry ->
        exec t args context options w
        = (Returned (rate_limited (resetTime entry) now), w)).
Proof.
  intros Hm Hp key now. split.
  - intros Hno. rewrite (limited_exec t opts) by exact Hm.
    assert (Hd : limiter_decide opts (storage (w_state w)) key now
                 = Admit (<[key := {| count := 1;
                                      resetTime :=
                                        now + default 60000 (windowMs opts) |}]>
                            (storage (w_state w)))).
    { unfold limiter_decide, no_open_window in *. fold key.
      destruct (storage (w_state w) !! key) as [e|]; [|reflexivity].
      fold now. destruct (Z.ltb_spec now (resetTime e)); [|reflexivity].
      unfold now in *. lia. }
    fold key now. rewrite Hd.
    rewrite (core_validation_failure _ _ _ _ _ _ _ _ issues) by exact Hp.
    eexists _, _. split; [reflexivity|]. split; [reflexivity|].
    cbn [set_state w_state w_trace]. rewrite storage_set.
    split; [apply lookup_insert_eq|reflexivity].
  - intros entry He Hnow Hfull. rewrite (limited_exec t opts) by exact Hm.
    unfold limiter_decide. fold key now. rewrite He.
    destruct (Z.ltb_spec now (resetTime entry)); [|lia].
    destruct (Z.leb_spec (default 10 (limit opts)) (count entry)); [|lia].
    reflexivity.
Qed.

End LimiterFacts.

(** *** The key of a call *)

Lemma indexOf_from_none (c : ascii) (s : string) (i j : Z) :
  indexOf_from c s i = -1 -> 0 <= i -> 0 <= j -> indexOf_from c s j = -1.
Proof.
  revert i j. induction s as [|c' s IH]; intros i j H Hi Hj; simpl in *;
    [reflexivity|].
  destruct (Ascii.eqb c' c); [lia|]. apply (IH (i + 1)); lia.
Qed.

Lemma split_at_colon (n1 n2 u1 u2 : string) :
  indexOf colon n1 = -1 -> indexOf colon n2 = -1 ->
  n1 +:+ String colon u1 = n2 +:+ String colon u2 ->
  n1 = n2 /\ u1 = u2.
Proof.
  unfold indexOf. revert n2.
  induction n1 as [|c1 n1 IH]; intros [|c2 n2] H1 H2 Heq; simpl in *.
  - injection Heq as ->. split; reflexivity.
  - injection Heq as <- _. rewrite Ascii.eqb_refl in H2. discriminate.
  - injection Heq as -> _. rewrite Ascii.eqb_refl in H1. discriminate.
  - injection Heq as -> Heq.
    destruct (Ascii.eqb c2 colon); [discriminate|].
    destruct (IH n2) as [-> ->];
      [apply (indexOf_from_none _ _ 1 0); [assumption|lia|lia]
      |apply (indexOf_from_none _ _ 1 0); [assumption|lia|lia]
      |exact Heq|].
    split; reflexivity.
Qed.

Lemma default_key (options : RateLimiterOptions) (toolName : string)
    (context : ExoContext) :
  keyGenerator options = None ->
  derive_key options toolName context
  = toolName +:+ String colon (caller_of context).
Proof.
  intros Hg. unfold derive_key, caller_of. rewrite Hg.
  unfold str_truthy.
  destruct (str_or (option_map id (user context)) (userId context))
    as [u|]; [|reflexivity].
  simpl. destruct (String.eqb u EmptyString); reflexivity.
Qed.

(** X13: which calls share a window. Without a [keyGenerator], and for tool
    names that have no colon, two calls have the same key exactly when they
    are calls of the same tool by the same caller, the caller being
    [user.id], or else [userId], or else [global]: tools never share a
    window, a caller without id shares the window of the tool with every
    other such caller, and so does a caller whose id is [global]. *)
Theorem default_keys_coincide_iff (options : RateLimiterOptions)
    (tool1 tool2 : string) (context1 context2 : ExoContext) :
  keyGenerator options = None ->
  indexOf colon tool1 = -1 -> indexOf colon tool2 = -1 ->
  derive_key options tool1 context1 = derive_key options tool2 context2
  <-> tool1 = tool2 /\ caller_of context1 = caller_of context2.
Proof.
  intros Hg H1 H2. rewrite !default_key by exact Hg. split.
  - apply split_at_colon; assumption.
  - intros [-> ->]. reflexivity.
Qed.

(** The limiter on the tools of its tests, with other limits. *)

Module LimiterRuns.

Import LimiterDemo.

Definition set_clock (time : Z) (s : World) : World :=
  {| lw_storage := lw_storage s; lw_now := time; lw_log := lw_log s |}.

(** [createRateLimiter({ windowMs: 1000, limit: 2 })], as in the test of the
    first N requests. *)
Definition two_per_second : RateLimiterOptions :=
  {| windowMs := Some 1000; limit := Some 2; keyGenerator := None |}.

Definition tool_with (opts : RateLimiterOptions) (toolName : string)
    : @ExoTool World :=
  with_middleware (limitedTool toolName)
    (Some [createRateLimiter lw_now lw_storage put_storage opts]).

Definition run_serve :=
  @serve World set_clock lw_now Demo.render Demo.riskMsg Demo.confirmMsg.

Lemma tool_with_private opts toolName :
  private_tool lw_storage (tool_with opts toolName).
Proof.
  split; [intros a c s; reflexivity|].
  repeat split; intros f; discriminate.
Defined.

Lemma tool_with_served opts toolName context :
  always_served lw_now Demo.render Demo.riskMsg Demo.confirmMsg
    (tool_with opts toolName) (VObj []) context empty_options.
Proof. intros w. eexists. split; reflexivity. Defined.

(** A world in which the window of [limited_tool:global] is full. *)
Definition full : @world World :=
  {| w_state :=
       {| lw_storage := {["limited_tool:global" :=
                            {| count := 2; resetTime := 6000 |}]};
          lw_now := 5400; lw_log := [] |};
     w_trace := [] |}.

(** A world in which a window that closed long ago is still stored. *)
Definition stale : @world World :=
  {| w_state :=
       {| lw_storage := {["limited_tool:global" :=
                            {| count := 2; resetTime := 1000 |}]};
          lw_now := 5000; lw_log := [] |};
     w_trace := [] |}.

Lemma limiter_refusal_witness :
  exists n,
    run (tool_with two_per_second "limited_tool") (VObj []) empty_context
      empty_options full
    = (Returned {| success := false;
                   data := None;
                   error := Some ("Rate limit exceeded. Try again in "
                                  +:+ pretty n +:+ " seconds.");
                   metadata := Some [("rateLimited", VBool true)] |},
       full)
    /\ 1 <= n
    /\ 1000 * (n - 1) < 6000 - 5400 <= 1000 * n.
Proof.
  exact (limiter_refusal lw_now lw_storage put_storage lw_now Demo.render
           Demo.riskMsg Demo.confirmMsg
           (tool_with two_per_second "limited_tool") two_per_second (VObj [])
           empty_context empty_options full
           {| count := 2; resetTime := 6000 |} eq_refl eq_refl
           ltac:(reflexivity) ltac:(discriminate)).
Defined.

Lemma limiter_keys_independent_witness :
  lw_storage
    (w_state (snd (run (tool_with two_per_second "other_tool") (VObj [])
                     empty_context empty_options full)))
    !! "limited_tool:global"
  = Some {| count := 2; resetTime := 6000 |}.
Proof.
  exact (limiter_keys_independent lw_now lw_storage put_storage
           (fun m s => eq_refl) lw_now Demo.render Demo.riskMsg
           Demo.confirmMsg (tool_with two_per_second "other_tool")
           two_per_second (VObj []) empty_context empty_options full
           "limited_tool:global" eq_refl
           (tool_with_private two_per_second "other_tool")
           ltac:(discriminate)).
Defined.


Lemma cleanup_is_transparent_witness :
  (forall k,
      lw_storage (cleanup lw_now lw_storage put_storage (w_state stale)) !! k
      = match lw_storage (w_state stale) !! k with
        | Some e => if resetTime e <? 5000 then None else Some e
        | None => None
        end)
  /\ run_serve (tool_with two_per_second "limited_tool") (VObj [])
       empty_context empty_options [5000; 5100; 5200]
       (set_state (cleanup lw_now lw_storage put_storage (w_state stale))
          stale)
     = run_serve (tool_with two_per_second "limited_tool") (VObj [])
         empty_context empty_options [5000; 5100; 5200] stale.
Proof.
  apply (cleanup_is_transparent lw_now lw_storage put_storage set_clock
           (fun m s => eq_refl) (fun time s => eq_refl)
           (fun time s => eq_refl) lw_now Demo.render Demo.riskMsg
           Demo.confirmMsg (tool_with two_per_second "limited_tool")
           two_per_second (VObj []) empty_context empty_options
           [5000; 5100; 5200] stale eq_refl
           (tool_with_private two_per_second "limited_tool")
           (tool_with_served two_per_second "limited_tool" empty_context)).
  repeat constructor; discriminate.
Defined.

Definition anonymous_global : ExoContext :=
  {| user := Some {| id := "global"; role := "user" |}; scope := None;
     userId := None; isAdmin := None; sessionId := None;
     ctx_metadata := None |}.

Lemma default_keys_coincide_iff_witness :
  derive_key two_per_second "tool_1" anonymous_global
  = derive_key two_per_second "tool_1" empty_context
  <-> "tool_1" = "tool_1"
      /\ caller_of anonymous_global = caller_of empty_context.
Proof.
  exact (default_keys_coincide_iff two_per_second "tool_1" "tool_1"
           anonymous_global empty_context eq_refl eq_refl eq_refl).
Defined.

Lemma limiter_counts_invalid_calls_witness :
  (no_open_window lw_now lw_storage "limited_tool:global" (w_state stale) ->
   exists e w',
     run (tool_with two_per_second "limited_tool") (VNum 3) empty_context
       empty_options stale = (Thrown e, w')
     /\ is_ValidationError e = true
     /\ lw_storage (w_state w') !! "limited_tool:global"
        = Some {| count := 1; resetTime := 6000 |}
     /\ w_trace w' = w_trace stale)
  /\ (forall entry,
        lw_storage (w_state stale) !! "limited_tool:global" = Some entry ->
        5000 < resetTime entry -> 2 <= count entry ->
        run (tool_with two_per_second "limited_tool") (VNum 3) empty_context
          empty_options stale
        = (Returned (rate_limited (resetTime entry) 5000), stale)).
Proof.
  exact (limiter_counts_invalid_calls lw_now lw_storage put_storage
           (fun m s => eq_refl) lw_now Demo.render Demo.riskMsg
           Demo.confirmMsg (tool_with two_per_second "limited_tool")
           two_per_second (VNum 3) empty_context empty_options
           [{| path := []; issue_message := "Expected object" |}] stale
           eq_refl eq_refl).
Defined.

(** The same call twice: the first, invalid, uses up a window of one. *)
Example invalid_call_uses_the_window :
  let once := {| windowMs := Some 1000; limit := Some 1;
                 keyGenerator := None |} in
  let w1 := snd (run (tool_with once "limited_tool") (VNum 3) empty_context
                   empty_options start) in
  fst (run (tool_with once "limited_tool") (VObj []) empty_context
         empty_options w1)
  = Returned {| success := false; data := None;
                error := Some "Rate limit exceeded. Try again in 1 seconds.";
                metadata := Some [("rateLimited", VBool true)] |}.
Proof. vm_compute. reflexivity. Qed.

End LimiterRuns.

(** * More of the specification generators

    What strict mode keeps, what it does to a schema that is strict already
    and to a tuple, when the generators throw, and how the two
    specifications of a tool agree. *)

Module TreeFacts.

Import Tree.

(** The keywords [applyStrictModeTransformations] assigns. *)
Definition strict_keyword (k : string) : bool :=
  String.eqb k "additionalProperties" || String.eqb k "required"
  || String.eqb k "properties" || String.eqb k "items".

(** What the loop over the properties makes of one entry. *)
Definition entry_image (rec : obj -> obj) (kv : string * value)
    : string * value :=
  (fst kv,
   if is_object (snd kv) then VObj (rec (own_entries (snd kv))) else snd kv).

Lemma obj_has_set (k k' : string) (v : value) (o : obj) :
  obj_has k (obj_set k' v o) = String.eqb k' k || obj_has k o.
Proof.
  induction o as [|[k0 v0] o IH]; simpl.
  - rewrite orb_false_r. reflexivity.
  - destruct (String.eqb_spec k0 k') as [->|Hne]; simpl.
    + destruct (String.eqb k' k); reflexivity.
    + rewrite IH. destruct (String.eqb k0 k), (String.eqb k' k); reflexivity.
Qed.

Lemma obj_has_keys (k : string) (o : obj) :
  obj_has k o = true <-> In k (obj_keys o).
Proof.
  induction o as [|[k0 v0] o IH]; simpl; [split; [discriminate|tauto]|].
  rewrite orb_true_iff, IH, String.eqb_eq. tauto.
Qed.

Lemma obj_get_absent (k : string) (o : obj) :
  obj_has k o = false -> obj_get k o = VUndefined.
Proof.
  induction o as [|[k0 v0] o IH]; simpl; [reflexivity|].
  destruct (String.eqb k0 k); simpl; [discriminate|exact IH].
Qed.

(** Assigning to a key the value it has changes nothing. *)
Lemma obj_set_noop (k : string) (v : value) (o : obj) :
  obj_has k o = true -> obj_get k o = v -> obj_set k v o = o.
Proof.
  induction o as [|[k0 v0] o IH]; simpl; [discriminate|].
  destruct (String.eqb_spec k0 k) as [->|Hne]; simpl.
  - intros _ ->. reflexivity.
  - intros Hhas Hget. rewrite IH by assumption. reflexivity.
Qed.

Lemma obj_set_twice (k : string) (v v' : value) (o : obj) :
  obj_set k v (obj_set k v' o) = obj_set k v o.
Proof.
  induction o as [|[k0 v0] o IH]; simpl.
  - rewrite String.eqb_refl. reflexivity.
  - destruct (String.eqb k0 k) eqn:He; simpl; rewrite He; [reflexivity|].
    rewrite IH. reflexivity.
Qed.

Lemma transformed_entries (rec : obj -> obj) (l acc : obj) :
  List.NoDup (obj_keys acc ++ obj_keys l) ->
  fold_left (transform_entry rec) l acc
  = (acc ++ map (entry_image rec) l)%list.
Proof.
  revert acc. induction l as [|[k0 v0] l IH]; intros acc Hnd; simpl.
  - rewrite app_nil_r. reflexivity.
  - assert (Hfresh : ~ In k0 (obj_keys acc)).
    { apply NoDup_remove_2 in Hnd. intros Hin. apply Hnd.
      apply in_or_app. left. exact Hin. }
    assert (Hstep : transform_entry rec acc (k0, v0)
                    = (acc ++ [entry_image rec (k0, v0)])%list).
    { unfold transform_entry, entry_image. simpl.
      destruct (is_object v0); apply obj_set_fresh, Hfresh. }
    rewrite Hstep, IH, <- app_assoc; [reflexivity|].
    unfold obj_keys in *. rewrite map_app, <- app_assoc. exact Hnd.
Qed.

Lemma entry_image_keys (rec : obj -> obj) (l : obj) :
  obj_keys (map (entry_image rec) l) = obj_keys l.
Proof. unfold obj_keys. rewrite map_map. reflexivity. Qed.

Lemma is_type_array_not_object (m : obj) :
  is_type "array" m = true -> is_type "object" m = false.
Proof.
  intros Ha. destruct (is_type "object" m) eqn:Ho; [|reflexivity].
  rewrite (is_type_exclusive m Ho) in Ha. discriminate.
Qed.

(** An index is never the keyword [type]. *)
Lemma pretty_N_go_ne_type (x : N) (s : string) :
  s <> "type" -> pretty_N_go x s <> "type".
Proof.
  revert s. induction (N.lt_wf_0 x) as [x _ IH]; intros s Hs.
  assert (x = 0 \/ 0 < x)%N as [->|Hx] by lia.
  - rewrite pretty_N_go_0. exact Hs.
  - rewrite pretty_N_go_step by exact Hx. apply IH.
    + apply N.div_lt; [exact Hx|reflexivity].
    + unfold pretty_N_char. repeat case_match; discriminate.
Qed.

Lemma index_ne_type (i : nat) : pretty i <> "type".
Proof.
  unfold pretty, pretty_nat, pretty, pretty_N.
  destruct (decide (N.of_nat i = 0%N)); [discriminate|].
  apply pretty_N_go_ne_type. discriminate.
Qed.

Lemma obj_get_indices {A} (k : string) (f : nat -> string) (g : A -> value)
    (l : list A) :
  (forall i, f i <> k) ->
  obj_get k (imap (fun i x => (f i, g x)) l) = VUndefined.
Proof.
  revert f. induction l as [|x l IH]; intros f Hf; [reflexivity|].
  simpl. destruct (String.eqb_spec (f O) k) as [He|_];
    [destruct (Hf O He)|].
  exact (IH (fun i => f (Datatypes.S i)) (fun i => Hf (Datatypes.S i))).
Qed.

Lemma strict_other_keys (m : obj) (k : string) :
  (strict_keyword k = false ->
   obj_get k (applyStrictModeTransformations m) = obj_get k m
   /\ obj_has k (applyStrictModeTransformations m) = obj_has k m)
  /\ (obj_has k m = true ->
      obj_has k (applyStrictModeTransformations m) = true).
Proof.
  assert (Hne : forall k', strict_keyword k = false ->
                           strict_keyword k' = true -> k' <> k).
  { intros k' Hk Hk' ->. congruence. }
  assert (Hb : forall k', String.eqb k' k = true -> k' = k)
    by (intros k'; apply String.eqb_eq).
  destruct (is_type "object" m) eqn:Hty.
  - rewrite strict_object by exact Hty.
    destruct (is_object (obj_get "properties" m)); split.
    + intros Hk. rewrite !obj_get_set_ne, !obj_has_set
        by (apply Hne; [exact Hk|reflexivity]).
      split; [reflexivity|].
      destruct (String.eqb_spec "properties" k) as [He|_];
        [subst k; discriminate Hk|].
      destruct (String.eqb_spec "required" k) as [He|_];
        [subst k; discriminate Hk|].
      destruct (String.eqb_spec "additionalProperties" k) as [He|_];
        [subst k; discriminate Hk|].
      reflexivity.
    + intros Hhas. rewrite !obj_has_set, Hhas, !orb_true_r. reflexivity.
    + intros Hk. rewrite obj_get_set_ne, obj_has_set
        by (apply Hne; [exact Hk|reflexivity]).
      split; [reflexivity|].
      destruct (String.eqb_spec "additionalProperties" k) as [He|_];
        [subst k; discriminate Hk|].
      reflexivity.
    + intros Hhas. rewrite obj_has_set, Hhas, orb_true_r. reflexivity.
  - rewrite strict_not_object by exact Hty.
    destruct (is_type "array" m && is_object (obj_get "items" m)); split;
      try (intros _; split; reflexivity); try (intros H; exact H).
    + intros Hk. rewrite obj_get_set_ne, obj_has_set
        by (apply Hne; [exact Hk|reflexivity]).
      split; [reflexivity|].
      destruct (String.eqb_spec "items" k) as [He|_];
        [subst k; discriminate Hk|].
      reflexivity.
    + intros Hhas. rewrite obj_has_set, Hhas, orb_true_r. reflexivity.
Qed.

(** X14: strict mode keeps every other keyword. Apart from
    [additionalProperties], [required], [properties] and [items], each key of
    a schema node is in the result exactly when it was in the node, with the
    value it had ([description], [enum], [anyOf] and the like are neither
    changed nor looked into); and no key of the node is dropped. *)
Theorem strict_keeps_other_keywords (m : obj) (k : string) :
  (strict_keyword k = false ->
   obj_get k (applyStrictModeTransformations m) = obj_get k m
   /\ obj_has k (applyStrictModeTransformations m) = obj_has k m)
  /\ (obj_has k m = true ->
      obj_has k (applyStrictModeTransformations m) = true).
Proof. apply strict_other_keys. Qed.

Lemma strict_idempotent_below (n : nat) :
  forall m, (depth (VObj m) < n)%nat -> well_formed (VObj m) = true ->
            applyStrictModeTransformations (applyStrictModeTransformations m)
            = applyStrictModeTransformations m.
Proof.
  induction n as [|n IH]; intros m Hd Hwf; [lia|].
  destruct (is_type "object" m) eqn:Hty.
  - rewrite (strict_object m Hty).
    destruct (is_object (obj_get "properties" m)) eqn:Hp.
    + set (E := own_entries (obj_get "properties" m)).
      assert (HwfE : well_formed (VObj E) = true)
        by apply well_formed_own_entries, well_formed_get, Hwf.
      assert (HndE : List.NoDup (obj_keys E)).
      { simpl in HwfE. apply andb_true_iff in HwfE as [Hk _].
        apply distinct_NoDup, Hk. }
      assert (HT : fold_left (transform_entry applyStrictModeTransformations)
                     E []
                   = map (entry_image applyStrictModeTransformations) E)
        by (rewrite transformed_entries; [reflexivity|exact HndE]).
      rewrite HT.
      set (T := map (entry_image applyStrictModeTransformations) E).
      set (r := obj_set "properties" (VObj T)
                  (obj_set "required" (VArr (map VStr (property_names m)))
                     (obj_set "additionalProperties" (VBool false) m))).
      assert (Hr : is_type "object" r = true)
        by (unfold r; rewrite !is_type_set by discriminate; exact Hty).
      rewrite (strict_object r Hr).
      assert (Hrp : obj_get "properties" r = VObj T)
        by (unfold r; apply obj_get_set_eq).
      rewrite Hrp. cbn [is_object own_entries].
      assert (HTT : fold_left (transform_entry applyStrictModeTransformations)
                      T []
                    = T).
      { rewrite transformed_entries
          by (unfold T; simpl; rewrite entry_image_keys; exact HndE).
        simpl. unfold T. rewrite map_map.
        apply map_ext_in. intros [k v] Hin.
        unfold entry_image. cbn [fst snd]. f_equal.
        destruct (is_object v) eqn:Hv; [|rewrite Hv; reflexivity].
        cbn [is_object own_entries]. f_equal. apply IH.
        - rewrite depth_own_entries by exact Hv.
          assert (depth v < depth (obj_get "properties" m))%nat
            by (apply (Store.depth_own_entry _ k); assumption).
          pose proof (depth_obj_get "properties" m). lia.
        - apply well_formed_own_entries.
          apply (well_formed_entry k v E HwfE Hin). }
      rewrite HTT.
      assert (Hnames : property_names r = property_names m).
      { unfold property_names. rewrite Hrp. cbn [own_entries].
        unfold T. apply entry_image_keys. }
      rewrite Hnames.
      rewrite (obj_set_noop "additionalProperties" (VBool false) r);
        [|unfold r; rewrite !obj_has_set; simpl;
          rewrite ?orb_true_r; reflexivity
         |unfold r; rewrite !obj_get_set_ne by discriminate;
          apply obj_get_set_eq].
      rewrite (obj_set_noop "required" _ r);
        [|unfold r; rewrite !obj_has_set; simpl;
          rewrite ?orb_true_r; reflexivity
         |unfold r; rewrite obj_get_set_ne by discriminate;
          apply obj_get_set_eq].
      apply obj_set_noop; [|exact Hrp].
      unfold r. rewrite obj_has_set. reflexivity.
    + set (r := obj_set "additionalProperties" (VBool false) m).
      assert (Hr : is_type "object" r = true)
        by (unfold r; rewrite is_type_set by discriminate; exact Hty).
      rewrite (strict_object r Hr).
      unfold r at 1. rewrite obj_get_set_ne, Hp by discriminate.
      unfold r. apply obj_set_twice.
  - rewrite (strict_not_object m Hty).
    destruct (is_type "array" m && is_object (obj_get "items" m)) eqn:Ha;
      [|rewrite (strict_not_object m Hty), Ha; reflexivity].
    apply andb_true_iff in Ha as [Harr Hi].
    set (s := applyStrictModeTransformations
                (own_entries (obj_get "items" m))).
    set (r := obj_set "items" (VObj s) m).
    assert (Hr : is_type "object" r = false)
      by (unfold r; rewrite is_type_set by discriminate; exact Hty).
    assert (Hra : is_type "array" r = true)
      by (unfold r; rewrite is_type_set by discriminate; exact Harr).
    assert (Hri : obj_get "items" r = VObj s)
      by (unfold r; apply obj_get_set_eq).
    rewrite (strict_not_object r Hr), Hra, Hri.
    cbn [is_object andb own_entries].
    assert (Hs : applyStrictModeTransformations s = s).
    { unfold s. apply IH.
      - rewrite depth_own_entries by exact Hi.
        pose proof (depth_obj_get "items" m). lia.
      - apply well_formed_own_entries, well_formed_get, Hwf. }
    rewrite Hs. unfold r. apply obj_set_twice.
Qed.

(** X15: strict mode is idempotent. On a schema whose objects have distinct
    keys, as every JavaScript object has, transforming the result of the
    transformation again gives the same schema. *)
Theorem strict_idempotent (m : obj) :
  well_formed (VObj m) = true ->
  applyStrictModeTransformations (applyStrictModeTransformations m)
  = applyStrictModeTransformations m.
Proof.
  apply (strict_idempotent_below (Datatypes.S (depth (VObj m)))). lia.
Qed.

(** A node that is neither object- nor array-typed comes back as it is. *)
Lemma strict_untyped (m : obj) :
  is_type "object" m = false -> is_type "array" m = false ->
  applyStrictModeTransformations m = m.
Proof.
  intros Ho Ha. rewrite (strict_not_object m Ho), Ha. reflexivity.
Qed.

(** X16: a tuple loses its list. On an array-typed node whose [items] is a
    list of schemas (a tuple), the list is spread into a plain object keyed
    by the indices, [{0: .., 1: ..}], and the schemas in it are left as they
    were, object-typed or not; the other keys of the node are unchanged. *)
Theorem strict_spreads_tuple_items (m : obj) (elems : list value) :
  is_type "array" m = true ->
  obj_get "items" m = VArr elems ->
  applyStrictModeTransformations m
  = obj_set "items" (VObj (imap (fun i x => (pretty i, x)) elems)) m.
Proof.
  intros Ha Hi.
  rewrite (strict_not_object m (is_type_array_not_object m Ha)), Ha, Hi.
  cbn [is_object andb own_entries].
  assert (Hnone : forall ty,
             is_type ty (imap (fun (i : nat) (x : value) => (pretty i, x))
                           elems) = false).
  { intros ty. unfold is_type.
    rewrite (obj_get_indices "type" (fun i => pretty i) (fun x => x))
      by apply index_ne_type.
    reflexivity. }
  rewrite strict_untyped by apply Hnone. reflexivity.
Qed.

(** *** The two generators *)

Lemma obj_has_remove (k k' : string) (o : obj) :
  obj_has k (obj_remove k' o) = negb (String.eqb k' k) && obj_has k o.
Proof.
  unfold obj_remove. induction o as [|[k0 v0] o IH]; simpl.
  - rewrite andb_false_r. reflexivity.
  - rewrite filter_cons. cbn [fst].
    destruct (String.eqb_spec k0 k') as [->|Hne]; simpl.
    + rewrite IH. destruct (String.eqb k' k); reflexivity.
    + rewrite IH. destruct (String.eqb_spec k0 k) as [->|_]; simpl;
        [|reflexivity].
      destruct (String.eqb_spec k' k) as [->|_]; [contradiction|reflexivity].
Qed.

(** When [unwrap_schema] throws: on a [$ref] without [definitions]. *)
Lemma unwrap_schema_none (t : ToolSchema) (jsonSchema : obj) :
  unwrap_schema t jsonSchema = None
  <-> truthy (obj_get "$ref" jsonSchema) = true
      /\ nullish (obj_get "definitions" jsonSchema) = true.
Proof.
  unfold unwrap_schema, get_prop.
  destruct (obj_get "definitions" jsonSchema) as [| |b|n|s|l|o]; simpl;
    destruct (truthy (obj_get "$ref" jsonSchema)); simpl;
    repeat match goal with
           | |- context [if ?c then _ else _] => destruct c; simpl
           end;
    split; try discriminate; try tauto; intros [? ?]; discriminate.
Qed.

(** X17: when the generators throw. [getOpenAISpec] throws (a [TypeError],
    in either mode) exactly when the generated schema has a truthy [$ref]
    and no [definitions]; [getAnthropicSpec] throws in that case and
    otherwise only when the [required] of the schema is [null]. *)
Theorem generators_throw_iff (gt : value -> bool) (t : ToolSchema)
    (strictly : bool) :
  (getOpenAISpec t strictly = None
   <-> truthy (obj_get "$ref" (zodToJsonSchema t)) = true
       /\ nullish (obj_get "definitions" (zodToJsonSchema t)) = true)
  /\ (getAnthropicSpec gt t = None
      <-> (truthy (obj_get "$ref" (zodToJsonSchema t)) = true
           /\ nullish (obj_get "definitions" (zodToJsonSchema t)) = true)
          \/ exists schemaObject,
               unwrap_schema t (zodToJsonSchema t) = Some schemaObject
               /\ obj_get "required"
                    (obj_remove "$schema" (own_entries schemaObject))
                  = VNull).
Proof.
  pose proof (unwrap_schema_none t (zodToJsonSchema t)) as Hu.
  unfold getOpenAISpec, getAnthropicSpec. cbv zeta.
  destruct (unwrap_schema t (zodToJsonSchema t)) as [p|]; split.
  - split; [discriminate|]. intros H. apply Hu in H. discriminate.
  - split.
    + intros H. right. exists p. split; [reflexivity|].
      destruct (obj_get "required" _) as [| |b|n|s|l|o];
        try discriminate; reflexivity.
    + intros [H|(p' & [= <-] & ->)]; [apply Hu in H; discriminate|].
      reflexivity.
  - split; [intros _; apply Hu; reflexivity|reflexivity].
  - split; [intros _; left; apply Hu; reflexivity|reflexivity].
Qed.

(** X18: a schema wrapped in [definitions] that has no definition under the
    name of the tool (or [null] there) gives empty parameters, not an
    error: [parameters] is [{}] in both modes of [getOpenAISpec], and the
    [input_schema] of [getAnthropicSpec] is [{type: "object",
    properties: {}}]. *)
Theorem missing_definition_gives_empty (gt : value -> bool) (t : ToolSchema)
    (strictly : bool) :
  is_object (obj_get "definitions" (zodToJsonSchema t)) = true ->
  nullish (obj_get (ts_name t)
             (own_entries (obj_get "definitions" (zodToJsonSchema t))))
  = true ->
  getOpenAISpec t strictly
  = Some {| spec_type := "function";
            function := {| fn_name := ts_name t;
                           fn_description := ts_description t;
                           parameters := [];
                           strict := if strictly then Some true else None |} |}
  /\ getAnthropicSpec gt t
     = Some {| an_name := ts_name t;
               an_description := ts_description t;
               input_schema := [("type", VStr "object");
                                ("properties", VObj [])] |}.
Proof.
  intros Hobj Hnull.
  assert (Hu : unwrap_schema t (zodToJsonSchema t) = Some (VObj [])).
  { assert (Hg : get_prop (obj_get "definitions" (zodToJsonSchema t))
                   (ts_name t)
                 = Some (obj_get (ts_name t)
                           (own_entries
                              (obj_get "definitions" (zodToJsonSchema t)))))
      by (destruct (obj_get "definitions" (zodToJsonSchema t));
          try discriminate; reflexivity).
    unfold unwrap_schema. cbv zeta.
    rewrite Hobj, (is_object_truthy _ Hobj), Hg. cbn [andb option_map].
    unfold coalesce. rewrite Hnull. reflexivity. }
  unfold getOpenAISpec, getAnthropicSpec. rewrite Hu. simpl.
  split; [|reflexivity]. destruct strictly; reflexivity.
Qed.

(** X19: the two specifications of a tool agree. When both generators
    return, they carry the same name and description, the [properties] of
    the Anthropic [input_schema] are the [properties] of the non-strict
    OpenAI [parameters] (or [{}] where those have none), and a [required]
    in the [input_schema] is the [required] of the [parameters]. *)
Theorem specifications_agree (gt : value -> bool) (t : ToolSchema)
    (o : OpenAIToolSpec) (a : AnthropicToolSpec) :
  getOpenAISpec t false = Some o ->
  getAnthropicSpec gt t = Some a ->
  an_name a = fn_name (function o)
  /\ an_description a = fn_description (function o)
  /\ obj_get "properties" (input_schema a)
     = coalesce (obj_get "properties" (parameters (function o))) (VObj [])
  /\ (obj_has "required" (input_schema a) = true ->
      obj_get "required" (input_schema a)
      = obj_get "required" (parameters (function o))).
Proof.
  unfold getOpenAISpec, getAnthropicSpec. cbv zeta.
  destruct (unwrap_schema t (zodToJsonSchema t)) as [p|]; [|discriminate].
  intros [= <-]. cbn [function fn_name fn_description parameters].
  set (clean := obj_remove "$schema" (own_entries p)).
  destruct (obj_get "required" clean) as [| |b|n|s|l|fs];
    cbn [js_length]; try discriminate;
    intros [= <-]; cbn [an_name an_description input_schema];
    (split; [reflexivity|]); (split; [reflexivity|]);
    try match goal with
        | |- context [if ?c then _ else _] => destruct c
        end;
    (split; [reflexivity|]); simpl;
    first [discriminate|intros _; reflexivity].
Qed.

(** X20: the [input_schema] is always an object schema. Whatever the schema
    of the tool, [getAnthropicSpec] hands out [type: "object"] and a
    [properties] that is not [undefined], and no key besides [type],
    [properties] and [required]: every other keyword of the schema
    ([additionalProperties], [description], a [type] that is not [object])
    is left out. *)
Theorem anthropic_input_schema_shape (gt : value -> bool) (t : ToolSchema)
    (a : AnthropicToolSpec) :
  getAnthropicSpec gt t = Some a ->
  obj_get "type" (input_schema a) = VStr "object"
  /\ nullish (obj_get "properties" (input_schema a)) = false
  /\ (forall k, obj_has k (input_schema a) = true ->
                k = "type" \/ k = "properties" \/ k = "required").
Proof.
  unfold getAnthropicSpec. cbv zeta.
  destruct (unwrap_schema t (zodToJsonSchema t)) as [p|]; [|discriminate].
  set (clean := obj_remove "$schema" (own_entries p)).
  assert (Hprops : nullish (coalesce (obj_get "properties" clean) (VObj []))
                   = false).
  { unfold coalesce.
    destruct (nullish (obj_get "properties" clean)) eqn:H;
      [reflexivity|exact H]. }
  assert (Hkeys : forall k v o,
             obj_has k [("type", VStr "object"); ("properties", o);
                        ("required", v)] = true ->
             k = "type" \/ k = "properties" \/ k = "required").
  { intros k v o. cbn [obj_has]. intros H.
    repeat (apply orb_true_iff in H as [H|H]);
      try (apply String.eqb_eq in H; subst k; tauto); discriminate. }
  assert (Hbase : forall k o,
             obj_has k [("type", VStr "object"); ("properties", o)] = true ->
             k = "type" \/ k = "properties" \/ k = "required").
  { intros k o. cbn [obj_has]. intros H.
    repeat (apply orb_true_iff in H as [H|H]);
      try (apply String.eqb_eq in H; subst k; tauto); discriminate. }
  destruct (obj_get "required" clean) as [| |b|n|s|l|fs];
    cbn [js_length]; try discriminate; intros [= <-];
    cbn [input_schema];
    try match goal with
        | |- context [if ?c then _ else _] => destruct c
        end;
    (split; [reflexivity|]); (split; [exact Hprops|]);
    intros k; first [apply Hbase|apply Hkeys].
Qed.

(** X21: [$schema] is dropped. The [parameters] of the OpenAI
    specification, strict or not, have no [$schema] key. *)
Theorem parameters_without_dollar_schema (t : ToolSchema) (strictly : bool)
    (o : OpenAIToolSpec) :
  getOpenAISpec t strictly = Some o ->
  obj_has "$schema" (parameters (function o)) = false.
Proof.
  unfold getOpenAISpec. cbv zeta.
  destruct (unwrap_schema t (zodToJsonSchema t)) as [p|]; [|discriminate].
  intros [= <-]. cbn [function parameters].
  assert (Hclean : obj_has "$schema" (obj_remove "$schema" (own_entries p))
                   = false)
    by (rewrite obj_has_remove; reflexivity).
  destruct strictly; [|exact Hclean].
  rewrite (proj2 (proj1 (strict_other_keys _ "$schema") eq_refl)).
  exact Hclean.
Qed.

(** *** On the schemas of the examples *)

(** [z.tuple([z.object({ id: z.string() }), z.number()])] with a
    description. *)
Definition pair_schema : obj :=
  [("type", VStr "array");
   ("description", VStr "An id and a count.");
   ("minItems", VNum 2);
   ("maxItems", VNum 2);
   ("items",
    VArr [VObj [("type", VStr "object");
                ("properties", VObj [("id", VObj [("type", VStr "string")])])];
          VObj [("type", VStr "number")]])].

(** The echo schema asked for under a name it does not hold. *)
Definition misnamed_tool : ToolSchema :=
  {| ts_name := "other"; ts_description := "Not the echo tool.";
     zodToJsonSchema := echo_json |}.

Lemma strict_keeps_other_keywords_witness :
  obj_get "description" (applyStrictModeTransformations pair_schema)
  = VStr "An id and a count."
  /\ obj_has "description" (applyStrictModeTransformations pair_schema)
     = true.
Proof.
  exact (proj1 (strict_keeps_other_keywords pair_schema "description")
           eq_refl).
Defined.

Lemma strict_idempotent_witness :
  applyStrictModeTransformations
    (applyStrictModeTransformations example_schema)
  = applyStrictModeTransformations example_schema.
Proof. exact (strict_idempotent example_schema eq_refl). Defined.

Lemma strict_spreads_tuple_items_witness :
  applyStrictModeTransformations pair_schema
  = [("type", VStr "array");
     ("description", VStr "An id and a count.");
     ("minItems", VNum 2);
     ("maxItems", VNum 2);
     ("items",
      VObj [("0", VObj [("type", VStr "object");
                        ("properties",
                         VObj [("id", VObj [("type", VStr "string")])])]);
            ("1", VObj [("type", VStr "number")])])].
Proof.
  exact (strict_spreads_tuple_items pair_schema
           [VObj [("type", VStr "object");
                  ("properties",
                   VObj [("id", VObj [("type", VStr "string")])])];
            VObj [("type", VStr "number")]]
           eq_refl eq_refl).
Defined.

Lemma missing_definition_gives_empty_witness :
  getOpenAISpec misnamed_tool true
  = Some {| spec_type := "function";
            function := {| fn_name := "other";
                           fn_description := "Not the echo tool.";
                           parameters := [];
                           strict := Some true |} |}
  /\ getAnthropicSpec (fun _ => false) misnamed_tool
     = Some {| an_name := "other";
               an_description := "Not the echo tool.";
               input_schema := [("type", VStr "object");
                                ("properties", VObj [])] |}.
Proof.
  exact (missing_definition_gives_empty (fun _ => false) misnamed_tool true
           eq_refl eq_refl).
Defined.

Lemma specifications_agree_witness :
  match getOpenAISpec echo_schema_tool false,
        getAnthropicSpec (fun _ => false) echo_schema_tool with
  | Some o, Some a =>
      an_name a = fn_name (function o)
      /\ an_description a = fn_description (function o)
      /\ obj_get "properties" (input_schema a)
         = coalesce (obj_get "properties" (parameters (function o))) (VObj [])
      /\ (obj_has "required" (input_schema a) = true ->
          obj_get "required" (input_schema a)
          = obj_get "required" (parameters (function o)))
  | _, _ => False
  end.
Proof.
  exact (specifications_agree (fun _ => false) echo_schema_tool _ _
           eq_refl eq_refl).
Defined.

Lemma anthropic_input_schema_shape_witness :
  match getAnthropicSpec (fun _ => false) optional_tool with
  | Some a =>
      obj_get "type" (input_schema a) = VStr "object"
      /\ nullish (obj_get "properties" (input_schema a)) = false
      /\ (forall k, obj_has k (input_schema a) = true ->
                    k = "type" \/ k = "properties" \/ k = "required")
  | None => False
  end.
Proof.
  exact (anthropic_input_schema_shape (fun _ => false) optional_tool _
           eq_refl).
Defined.

Lemma parameters_without_dollar_schema_witness :
  match getOpenAISpec optional_tool true with
  | Some o => obj_has "$schema" (parameters (function o)) = false
  | None => False
  end.
Proof.
  exact (parameters_without_dollar_schema optional_tool true _ eq_refl).
Defined.

End TreeFacts.

(** * The constructor of [ExoTool]

    [new ExoTool(options)] and [createExoTool(options)]: the checks on the
    name and the description, [trim()], and the merge of the configuration
    with [DEFAULT_CONFIG]. *)

(** ** [String.prototype.trim]

    A string is read as the UTF-8 encoding of the JavaScript string; [trim]
    removes the white space and line terminators of ECMAScript from both
    ends, each being one code point, given here by its encoding. *)

Definition code_units (l : list Z) : list ascii :=
  map (fun z => ascii_of_nat (Z.to_nat z)) l.

Definition js_whitespace : list (list ascii) :=
  map code_units
    [[9]; [10]; [11]; [12]; [13]; [32];       (* TAB LF VT FF CR SP *)
     [194; 160];                              (* U+00A0 *)
     [225; 154; 128];                         (* U+1680 *)
     [226; 128; 128]; [226; 128; 129]; [226; 128; 130]; [226; 128; 131];
     [226; 128; 132]; [226; 128; 133]; [226; 128; 134]; [226; 128; 135];
     [226; 128; 136]; [226; 128; 137]; [226; 128; 138];  (* U+2000-U+200A *)
     [226; 128; 168]; [226; 128; 169];        (* U+2028 U+2029 *)
     [226; 128; 175];                         (* U+202F *)
     [226; 129; 159];                         (* U+205F *)
     [227; 128; 128];                         (* U+3000 *)
     [239; 187; 191]].                        (* U+FEFF *)

(** [l] without its prefix [p], when it has it. *)
Fixpoint strip_prefix (p l : list ascii) : option (list ascii) :=
  match p, l with
  | [], _ => Some l
  | a :: p', b :: l' => if Ascii.eqb a b then strip_prefix p' l' else None
  | _ :: _, [] => None
  end.

(** [l] without the white space character it starts with, if any. *)
Fixpoint drop_space (ws : list (list ascii)) (l : list ascii)
    : option (list ascii) :=
  match ws with
  | [] => None
  | p :: ws' =>
      match strip_prefix p l with
      | Some r => Some r
      | None => drop_space ws' l
      end
  end.

Fixpoint trim_start_fuel (ws : list (list ascii)) (fuel : nat)
    (l : list ascii) : list ascii :=
  match fuel with
  | O => l
  | Datatypes.S n =>
      match drop_space ws l with
      | Some r => trim_start_fuel ws n r
      | None => l
      end
  end.

Definition trim_start (ws : list (list ascii)) (l : list ascii)
    : list ascii :=
  trim_start_fuel ws (length l) l.

Definition trim_end (ws : list (list ascii)) (l : list ascii) : list ascii :=
  reverse (trim_start (map reverse ws) (reverse l)).

Definition trim_list (ws : list (list ascii)) (l : list ascii) : list ascii :=
  trim_end ws (trim_start ws l).

Definition trim (s : string) : string :=
  string_of_list_ascii (trim_list js_whitespace (list_ascii_of_string s)).

(** A string made of white space only (the empty string is one). *)
Definition blank (s : string) : Prop :=
  exists ps, Forall (fun p => In p js_whitespace) ps
             /\ list_ascii_of_string s = concat ps.

(** Where a string starts or ends with a white space character. *)
Definition starts_with_space (s : string) : Prop :=
  exists p r, In p js_whitespace /\ list_ascii_of_string s = (p ++ r)%list.

Definition ends_with_space (s : string) : Prop :=
  exists p r, In p js_whitespace /\ list_ascii_of_string s = (r ++ p)%list.

Section Trimming.

Variable ws : list (list ascii).
Hypothesis ws_nonempty : forall p, In p ws -> p <> [].

Lemma strip_prefix_Some (p l r : list ascii) :
  strip_prefix p l = Some r <-> l = (p ++ r)%list.
Proof.
  revert l. induction p as [|a p IH]; intros l; simpl.
  - split; [intros [= ->]; reflexivity|intros ->; reflexivity].
  - destruct l as [|b l]; [split; discriminate|].
    destruct (Ascii.eqb_spec a b) as [->|Hne].
    + rewrite IH. split; [intros ->; reflexivity|intros [= ->]; reflexivity].
    + split; [discriminate|intros [= Hab _]; congruence].
Qed.

Lemma drop_space_Some (l r : list ascii) :
  drop_space ws l = Some r -> exists p, In p ws /\ l = (p ++ r)%list.
Proof.
  induction ws as [|p ws' IH]; simpl; [discriminate|].
  destruct (strip_prefix p l) as [r'|] eqn:Hp.
  - intros [= ->]. exists p. split; [left; reflexivity|].
    apply strip_prefix_Some, Hp.
  - intros H. destruct IH as (q & Hq & Hl).
    + intros q Hq. apply ws_nonempty. right. exact Hq.
    + exact H.
    + exists q. split; [right; exact Hq|exact Hl].
Qed.

Lemma drop_space_None (l : list ascii) :
  drop_space ws l = None <-> forall p r, In p ws -> l <> (p ++ r)%list.
Proof.
  clear ws_nonempty. induction ws as [|p ws' IH]; simpl.
  - split; [intros _ p r []|reflexivity].
  - destruct (strip_prefix p l) as [r'|] eqn:Hp.
    + split; [discriminate|]. intros H. exfalso.
      apply (H p r' (or_introl eq_refl)). apply strip_prefix_Some, Hp.
    + rewrite IH. split.
      * intros H q r [<-|Hq]; [|apply H, Hq].
        intros Hl. apply strip_prefix_Some in Hl. congruence.
      * intros H q r Hq. apply H. right. exact Hq.
Qed.

Lemma drop_space_shorter (l r : list ascii) :
  drop_space ws l = Some r -> (length r < length l)%nat.
Proof.
  intros H. apply drop_space_Some in H as (p & Hp & ->).
  rewrite length_app. pose proof (ws_nonempty p Hp).
  destruct p; [congruence|simpl; lia].
Qed.

Lemma trim_start_fuel_suffix (n : nat) (l : list ascii) :
  exists pre, l = (pre ++ trim_start_fuel ws n l)%list.
Proof.
  revert l. induction n as [|n IH]; intros l; simpl; [exists []; reflexivity|].
  destruct (drop_space ws l) as [r|] eqn:Hd; [|exists []; reflexivity].
  apply drop_space_Some in Hd as (p & _ & ->).
  destruct (IH r) as [pre Hpre]. exists (p ++ pre)%list.
  rewrite <- app_assoc, <- Hpre. reflexivity.
Qed.

Lemma trim_start_fuel_clean (n : nat) (l : list ascii) :
  (length l <= n)%nat -> drop_space ws (trim_start_fuel ws n l) = None.
Proof.
  revert l. induction n as [|n IH]; intros l Hn; simpl.
  - destruct l; [|simpl in Hn; lia].
    apply drop_space_None. intros p r Hp Hl.
    apply (ws_nonempty p Hp). destruct p; [reflexivity|discriminate].
  - destruct (drop_space ws l) as [r|] eqn:Hd; [|exact Hd].
    apply IH. apply drop_space_shorter in Hd. lia.
Qed.

Lemma trim_start_clean (l : list ascii) :
  drop_space ws (trim_start ws l) = None.
Proof. apply trim_start_fuel_clean. reflexivity. Qed.

Lemma trim_start_fixed (l : list ascii) :
  drop_space ws l = None -> trim_start ws l = l.
Proof.
  intros H. unfold trim_start. destruct (length l); simpl; [reflexivity|].
  rewrite H. reflexivity.
Qed.

End Trimming.

Section TrimBothEnds.

Variable ws : list (list ascii).
Hypothesis ws_nonempty : forall p, In p ws -> p <> [].
Hypothesis ws_prefix_free :
  forall p q r r', In p ws -> In q ws -> (p ++ r = q ++ r')%list -> p = q.

Lemma reversed_nonempty (q : list ascii) :
  In q (map reverse ws) -> q <> [].
Proof.
  intros Hq. apply in_map_iff in Hq as (p & <- & Hp). intros Hr.
  apply (ws_nonempty p Hp).
  rewrite <- (reverse_involutive p), Hr. reflexivity.
Qed.

Lemma trim_end_prefix (l : list ascii) :
  exists post, l = (trim_end ws l ++ post)%list.
Proof.
  unfold trim_end, trim_start.
  destruct (trim_start_fuel_suffix (map reverse ws) reversed_nonempty
              (length (reverse l)) (reverse l)) as [pre Hpre].
  exists (reverse pre).
  rewrite <- reverse_app, <- Hpre, reverse_involutive. reflexivity.
Qed.

Lemma trim_end_clean (l p r : list ascii) :
  In p ws -> trim_end ws l <> (r ++ p)%list.
Proof.
  intros Hp Heq. unfold trim_end in Heq.
  pose proof (trim_start_clean (map reverse ws) reversed_nonempty (reverse l))
    as Hclean.
  rewrite drop_space_None in Hclean.
  apply (Hclean (reverse p) (reverse r)); [apply in_map, Hp|].
  rewrite <- reverse_app, <- Heq, reverse_involutive. reflexivity.
Qed.

Lemma trim_end_fixed (l : list ascii) :
  (forall p r, In p ws -> l <> (r ++ p)%list) -> trim_end ws l = l.
Proof.
  intros H. unfold trim_end. rewrite trim_start_fixed.
  - apply reverse_involutive.
  - apply drop_space_None. intros q r Hq Heq.
    apply in_map_iff in Hq as (p & <- & Hp).
    apply (H p (reverse r) Hp).
    rewrite <- (reverse_involutive l), Heq, reverse_app, reverse_involutive.
    reflexivity.
Qed.

Lemma trim_list_no_prefix (l p r : list ascii) :
  In p ws -> trim_list ws l <> (p ++ r)%list.
Proof.
  intros Hp Heq. unfold trim_list in Heq.
  pose proof (trim_start_clean ws ws_nonempty l) as Hclean.
  rewrite drop_space_None in Hclean.
  destruct (trim_end_prefix (trim_start ws l)) as [post Hpost].
  apply (Hclean p (r ++ post)%list Hp).
  rewrite Hpost at 1. rewrite Heq, <- app_assoc. reflexivity.
Qed.

Lemma trim_list_no_suffix (l p r : list ascii) :
  In p ws -> trim_list ws l <> (r ++ p)%list.
Proof. apply trim_end_clean. Qed.

Lemma trim_list_idempotent (l : list ascii) :
  trim_list ws (trim_list ws l) = trim_list ws l.
Proof.
  unfold trim_list at 1. rewrite trim_start_fixed.
  - apply trim_end_fixed. intros p r. apply trim_list_no_suffix.
  - apply drop_space_None. intros p r. apply trim_list_no_prefix.
Qed.

Lemma drop_space_head (p rest : list ascii) :
  In p ws -> drop_space ws (p ++ rest) = Some rest.
Proof.
  intros Hp. destruct (drop_space ws (p ++ rest)) as [r|] eqn:Hd.
  - apply (drop_space_Some ws ws_nonempty) in Hd as (q & Hq & Heq).
    pose proof (ws_prefix_free p q rest r Hp Hq Heq) as <-.
    apply app_inv_head in Heq. congruence.
  - rewrite drop_space_None in Hd. destruct (Hd p rest Hp eq_refl).
Qed.

Lemma trim_start_spaces (ps : list (list ascii)) :
  Forall (fun p => In p ws) ps ->
  forall n, (length (concat ps) <= n)%nat ->
            trim_start_fuel ws n (concat ps) = [].
Proof.
  induction 1 as [|p ps Hp _ IH]; intros n Hn; simpl in *.
  - destruct n; simpl; [reflexivity|].
    destruct (drop_space ws []) as [r|] eqn:Hd; [|reflexivity].
    apply (drop_space_shorter ws ws_nonempty) in Hd. simpl in Hd. lia.
  - rewrite length_app in Hn. pose proof (ws_nonempty p Hp) as Hne.
    destruct n as [|n]; [destruct p; [congruence|simpl in Hn; lia]|].
    simpl. rewrite drop_space_head by exact Hp.
    apply IH. destruct p; [congruence|simpl in Hn; lia].
Qed.

Lemma trim_list_spaces (ps : list (list ascii)) :
  Forall (fun p => In p ws) ps -> trim_list ws (concat ps) = [].
Proof.
  intros H. unfold trim_list, trim_start.
  rewrite (trim_start_spaces ps H) by reflexivity. reflexivity.
Qed.

End TrimBothEnds.

Lemma common_prefix (p q r r' : list ascii) :
  (p ++ r = q ++ r')%list ->
  strip_prefix p q <> None \/ strip_prefix q p <> None.
Proof.
  revert q. induction p as [|a p IH]; intros [|b q] H; simpl in *;
    try (left; discriminate); try (right; discriminate).
  injection H as -> H. rewrite Ascii.eqb_refl. apply IH, H.
Qed.

Lemma js_whitespace_nonempty (p : list ascii) :
  In p js_whitespace -> p <> [].
Proof.
  assert (H : forallb (fun p => negb (Nat.eqb (length p) 0)) js_whitespace
              = true) by (vm_compute; reflexivity).
  rewrite forallb_forall in H. intros Hp Hnil. specialize (H p Hp).
  rewrite Hnil in H. discriminate.
Qed.

Lemma js_whitespace_prefix_free (p q r r' : list ascii) :
  In p js_whitespace -> In q js_whitespace ->
  (p ++ r = q ++ r')%list -> p = q.
Proof.
  assert (H : forallb
                (fun p =>
                   forallb
                     (fun q =>
                        match strip_prefix p q with
                        | Some _ => bool_decide (p = q)
                        | None => true
                        end)
                     js_whitespace)
                js_whitespace = true) by (vm_compute; reflexivity).
  rewrite forallb_forall in H.
  intros Hp Hq Heq.
  destruct (common_prefix p q r r' Heq) as [Hpq|Hqp].
  - specialize (H p Hp). rewrite forallb_forall in H. specialize (H q Hq).
    destruct (strip_prefix p q); [|congruence].
    apply bool_decide_eq_true in H. exact H.
  - specialize (H q Hq). rewrite forallb_forall in H. specialize (H p Hp).
    destruct (strip_prefix q p); [|congruence].
    apply bool_decide_eq_true in H. symmetry. exact H.
Qed.

(** The prefix that [trim_start] removes is made of white space. *)
Lemma trim_start_fuel_spaces (ws : list (list ascii))
    (ws_nonempty : forall p, In p ws -> p <> []) (n : nat) (l : list ascii) :
  exists ps, Forall (fun p => In p ws) ps
             /\ l = (concat ps ++ trim_start_fuel ws n l)%list.
Proof.
  revert l. induction n as [|n IH]; intros l; simpl;
    [exists []; split; [constructor|reflexivity]|].
  destruct (drop_space ws l) as [r|] eqn:Hd;
    [|exists []; split; [constructor|reflexivity]].
  apply (drop_space_Some ws ws_nonempty) in Hd as (p & Hp & ->).
  destruct (IH r) as (ps & Hps & Hr). exists (p :: ps).
  split; [constructor; assumption|].
  simpl. rewrite <- app_assoc, <- Hr. reflexivity.
Qed.

Lemma reverse_concat (ps : list (list ascii)) :
  reverse (concat ps) = concat (map reverse (reverse ps)).
Proof.
  induction ps as [|p ps IH]; [reflexivity|].
  simpl. rewrite reverse_app, IH, reverse_cons, map_app, concat_app.
  simpl. rewrite app_nil_r. reflexivity.
Qed.

(** [trim] gives the empty string on the blank strings and on no other. *)
Lemma trim_empty_iff (s : string) : trim s = EmptyString <-> blank s.
Proof.
  unfold trim, blank. split.
  - intros H.
    assert (Hl : trim_list js_whitespace (list_ascii_of_string s) = []).
    { rewrite <- (list_ascii_of_string_of_list_ascii (trim_list _ _)), H.
      reflexivity. }
    clear H. unfold trim_list, trim_end, trim_start in Hl.
    set (l := list_ascii_of_string s) in *.
    destruct (trim_start_fuel_spaces js_whitespace js_whitespace_nonempty
                (length l) l) as (ps & Hps & Hsplit).
    set (m := trim_start_fuel js_whitespace (length l) l) in *.
    destruct (trim_start_fuel_spaces (map reverse js_whitespace)
                (reversed_nonempty js_whitespace js_whitespace_nonempty)
                (length (reverse m)) (reverse m)) as (qs & Hqs & Hrev).
    assert (Hnil : trim_start_fuel (map reverse js_whitespace)
                     (length (reverse m)) (reverse m) = []).
    { rewrite <- (reverse_involutive (trim_start_fuel _ _ _)), Hl.
      reflexivity. }
    rewrite Hnil, app_nil_r in Hrev.
    exists (ps ++ map reverse (reverse qs))%list. split.
    + apply Forall_app. split; [exact Hps|].
      apply List.Forall_forall. intros x Hx.
      apply in_map_iff in Hx as (q & <- & Hq).
      rewrite <- list_elem_of_In, elem_of_reverse, list_elem_of_In in Hq.
      rewrite List.Forall_forall in Hqs. specialize (Hqs q Hq).
      apply in_map_iff in Hqs as (p & <- & Hp).
      rewrite reverse_involutive. exact Hp.
    + rewrite concat_app, <- reverse_concat, <- Hrev, reverse_involutive.
      exact Hsplit.
  - intros (ps & Hps & Hs). rewrite Hs.
    rewrite (trim_list_spaces js_whitespace js_whitespace_nonempty
               js_whitespace_prefix_free ps Hps).
    reflexivity.
Qed.

Lemma string_length_zero (s : string) :
  (String.length s =? 0)%nat = true <-> s = EmptyString.
Proof.
  destruct s; simpl; split; try reflexivity; discriminate.
Qed.

Section Construction.

Context {S : Type}.

(** [ExoToolConfig] as the caller writes it: every key is optional, and a
    key that is present holds a value of its type. *)
Record ExoToolConfigInput : Type := {
  in_riskLevel : option RiskLevel;
  in_requiresConfirmation : option bool;
  in_timeout : option Z;
  in_retryable : option bool;
  in_maxRetries : option Z;
  in_tags : option (list string);
  in_hooks : option (@ExoHooks S);
  in_middleware : option (list (@ExoMiddleware S));
}.

(** The options of the constructor; a name or a description that is not
    given reads as [undefined]. *)
Record ExoToolOptions : Type := {
  o_name : option string;
  o_description : option string;
  o_schema : value -> SafeParseResult;
  o_executor : value -> ExoContext -> S -> outcome value * S;
  o_config : option ExoToolConfigInput;
}.

Definition DEFAULT_CONFIG : @ExoToolConfig S :=
  {| riskLevel := LOW; requiresConfirmation := false; timeout := 0;
     retryable := true; maxRetries := 3; tags := []; hooks := None;
     middleware := Some [] |}.

(** [{ ...DEFAULT_CONFIG, ...config }] *)
Definition spread_config (config : option ExoToolConfigInput)
    : @ExoToolConfig S :=
  match config with
  | None => DEFAULT_CONFIG
  | Some c =>
      {| riskLevel := default (riskLevel DEFAULT_CONFIG) (in_riskLevel c);
         requiresConfirmation :=
           default (requiresConfirmation DEFAULT_CONFIG)
             (in_requiresConfirmation c);
         timeout := default (timeout DEFAULT_CONFIG) (in_timeout c);
         retryable := default (retryable DEFAULT_CONFIG) (in_retryable c);
         maxRetries := default (maxRetries DEFAULT_CONFIG) (in_maxRetries c);
         tags := default (tags DEFAULT_CONFIG) (in_tags c);
         hooks := in_hooks c;
         middleware :=
           match in_middleware c with
           | Some ms => Some ms
           | None => middleware DEFAULT_CONFIG
           end |}
  end.

(** [!s || s.trim().length === 0] *)
Definition missing (s : option string) : bool :=
  match s with
  | None => true
  | Some s => String.eqb s EmptyString || (String.length (trim s) =? 0)%nat
  end.

Definition name_required : exn :=
  OtherError "Tool name is required and cannot be empty".

Definition description_required : exn :=
  OtherError "Tool description is required and cannot be empty".

Definition new_ExoTool (options : ExoToolOptions) : outcome (@ExoTool S) :=
  if missing (o_name options) then Thrown name_required
  else if missing (o_description options) then Thrown description_required
  else
    Returned
      {| name := trim (default EmptyString (o_name options));
         description := trim (default EmptyString (o_description options));
         safeParse := o_schema options;
         executor := o_executor options;
         config := spread_config (o_config options) |}.

(** [createExoTool(options)] is [new ExoTool(options)]. *)
Definition createExoTool (options : ExoToolOptions) : outcome (@ExoTool S) :=
  new_ExoTool options.

(** Not given, or blank. *)
Definition absent_or_blank (s : option string) : Prop :=
  match s with
  | None => True
  | Some s => blank s
  end.

Lemma missing_iff (s : option string) :
  missing s = true <-> absent_or_blank s.
Proof.
  destruct s as [s|]; simpl; [|tauto].
  rewrite orb_true_iff, string_length_zero, trim_empty_iff, String.eqb_eq.
  split; [|tauto]. intros [->|H]; [|exact H].
  exists []. split; [constructor|reflexivity].
Qed.

Lemma trim_is_trimmed (s : string) :
  ~ starts_with_space (trim s) /\ ~ ends_with_space (trim s)
  /\ trim (trim s) = trim s.
Proof.
  unfold starts_with_space, ends_with_space, trim.
  rewrite !list_ascii_of_string_of_list_ascii.
  split; [|split].
  - intros (p & r & Hp & Heq).
    apply (trim_list_no_prefix js_whitespace js_whitespace_nonempty _ p r Hp Heq).
  - intros (p & r & Hp & Heq).
    apply (trim_list_no_suffix js_whitespace js_whitespace_nonempty _ p r Hp Heq).
  - rewrite (trim_list_idempotent js_whitespace js_whitespace_nonempty).
    reflexivity.
Qed.

(** X22: the name and the description of a tool. A tool that the
    constructor returns has for name and description the given strings
    trimmed; neither is empty, neither starts or ends with a white space
    character or line terminator, and trimming them again changes
    nothing. *)
Theorem constructed_names_are_trimmed (options : ExoToolOptions)
    (t : @ExoTool S) :
  createExoTool options = Returned t ->
  exists given_name given_description,
    o_name options = Some given_name
    /\ o_description options = Some given_description
    /\ name t = trim given_name
    /\ description t = trim given_description
    /\ name t <> EmptyString /\ description t <> EmptyString
    /\ ~ starts_with_space (name t) /\ ~ ends_with_space (name t)
    /\ ~ starts_with_space (description t)
    /\ ~ ends_with_space (description t)
    /\ trim (name t) = name t /\ trim (description t) = description t.
Proof.
  unfold createExoTool, new_ExoTool.
  destruct (missing (o_name options)) eqn:Hn; [discriminate|].
  destruct (missing (o_description options)) eqn:Hd; [discriminate|].
  intros [= <-]. cbn [name description].
  destruct (o_name options) as [n|]; [|discriminate].
  destruct (o_description options) as [d|]; [|discriminate].
  change (default EmptyString (Some n)) with n.
  change (default EmptyString (Some d)) with d.
  exists n, d. cbn [missing] in Hn, Hd.
  apply orb_false_iff in Hn as [_ Hn], Hd as [_ Hd].
  destruct (trim_is_trimmed n) as (Hn1 & Hn2 & Hn3).
  destruct (trim_is_trimmed d) as (Hd1 & Hd2 & Hd3).
  repeat split; try assumption.
  - intros He. rewrite He in Hn. discriminate.
  - intros He. rewrite He in Hd. discriminate.
Qed.

(** X23: when the constructor throws. It throws [Tool name is required and
    cannot be empty] exactly when the name is not given or is blank (empty,
    or white space and line terminators only), whatever the description;
    with a name, it throws [Tool description is required and cannot be
    empty] exactly when the description is not given or is blank; and it
    returns a tool in every other case. *)
Theorem constructor_rejects_blank (options : ExoToolOptions) :
  match createExoTool options with
  | Thrown e =>
      (absent_or_blank (o_name options) /\ e = name_required)
      \/ (~ absent_or_blank (o_name options)
          /\ absent_or_blank (o_description options)
          /\ e = description_required)
  | Returned t =>
      ~ absent_or_blank (o_name options)
      /\ ~ absent_or_blank (o_description options)
  end.
Proof.
  unfold createExoTool, new_ExoTool.
  pose proof (missing_iff (o_name options)) as Hn.
  pose proof (missing_iff (o_description options)) as Hd.
  destruct (missing (o_name options)).
  - left. split; [apply Hn; reflexivity|reflexivity].
  - assert (Hn' : ~ absent_or_blank (o_name options))
      by (intros H; apply Hn in H; discriminate).
    destruct (missing (o_description options)).
    + right. split; [exact Hn'|].
      split; [apply Hd; reflexivity|reflexivity].
    + split; [exact Hn'|]. intros H. apply Hd in H. discriminate.
Qed.

Variable performance_now : S -> Z.
Variable js_String : value -> string.
Variable risk_message : string -> string -> option string -> string.
Variable confirmation_message : string -> string.

Local Abbreviation exec :=
  (execute performance_now js_String risk_message confirmation_message).
Local Abbreviation core :=
  (_executeCore performance_now js_String risk_message confirmation_message).

(** X24: a tool made without settings is open to every caller. When the
    configuration gives no [riskLevel], no [requiresConfirmation] and no
    [middleware] (or there is no configuration at all), the tool is LOW
    risk, asks for no confirmation and has no interceptor: [execute] is
    [_executeCore], and a call is let through to the executor exactly when
    its arguments validate, whatever the context and the options. *)
Theorem default_tool_is_open (options : ExoToolOptions) (t : @ExoTool S)
    (args : value) (context : ExoContext) (opts : ExecutionOptions)
    (w : @world S) :
  createExoTool options = Returned t ->
  (forall c, o_config options = Some c ->
             in_riskLevel c = None /\ in_requiresConfirmation c = None
             /\ in_middleware c = None) ->
  riskLevel (config t) = LOW
  /\ requiresConfirmation (config t) = false
  /\ exec t args context opts w = core t args context opts w
  /\ admitted t args context opts
     = match o_schema options args with
       | ParseSuccess _ => true
       | ParseFailure _ => false
       end.
Proof.
  unfold createExoTool, new_ExoTool.
  destruct (missing (o_name options)); [discriminate|].
  destruct (missing (o_description options)); [discriminate|].
  intros [= <-] Hc.
  assert (Hcfg : riskLevel (spread_config (o_config options)) = LOW
                 /\ requiresConfirmation (spread_config (o_config options))
                    = false
                 /\ middleware (spread_config (o_config options)) = Some []).
  { destruct (o_config options) as [c|]; [|repeat split].
    destruct (Hc c eq_refl) as (Hr & Hq & Hm). simpl.
    rewrite Hr, Hq, Hm. repeat split. }
  destruct Hcfg as (Hr & Hq & Hm).
  cbn [config]. split; [exact Hr|]. split; [exact Hq|]. split.
  - rewrite execute_chain. cbn [config]. rewrite Hm.
    change (default [] (Some (@nil (@ExoMiddleware S)))) with
      (@nil (@ExoMiddleware S)).
    rewrite chain_nil. reflexivity.
  - unfold admitted. cbn [config safeParse]. rewrite Hr, Hq.
    destruct (o_schema options args); reflexivity.
Qed.

End Construction.

(** The echo tool of the tests, made by [createExoTool] from a padded name. *)

Module Constructed.

Import Demo.

Definition tab : string := String (ascii_of_nat 9) EmptyString.
Definition newline : string := String (ascii_of_nat 10) EmptyString.

Definition echoOptions : @ExoToolOptions World :=
  {| o_name := Some ("  echo" +:+ tab);
     o_description := Some (newline +:+ "Echoes the input. ");
     o_schema := valueSchema;
     o_executor := fun a _ s => (Returned a, (s ++ ["executor"])%list);
     o_config := None |}.

Example echo_constructed :
  createExoTool echoOptions = Returned echoTool.
Proof. vm_compute. reflexivity. Qed.

Example blank_name_rejected :
  createExoTool
    {| o_name := Some (" " +:+ tab +:+ newline);
       o_description := None;
       o_schema := valueSchema;
       o_executor := fun a _ (s : World) => (Returned a, s);
       o_config := None |}
  = Thrown name_required.
Proof. vm_compute. reflexivity. Qed.

Lemma constructed_names_are_trimmed_witness :
  exists given_name given_description,
    o_name echoOptions = Some given_name
    /\ o_description echoOptions = Some given_description
    /\ name echoTool = trim given_name
    /\ description echoTool = trim given_description
    /\ name echoTool <> EmptyString /\ description echoTool <> EmptyString
    /\ ~ starts_with_space (name echoTool)
    /\ ~ ends_with_space (name echoTool)
    /\ ~ starts_with_space (description echoTool)
    /\ ~ ends_with_space (description echoTool)
    /\ trim (name echoTool) = name echoTool
    /\ trim (description echoTool) = description echoTool.
Proof.
  exact (constructed_names_are_trimmed echoOptions echoTool echo_constructed).
Defined.

Lemma default_tool_is_open_witness :
  riskLevel (config echoTool) = LOW
  /\ requiresConfirmation (config echoTool) = false
  /\ run_execute echoTool hi guest empty_options start
     = run_core echoTool hi guest empty_options start
  /\ admitted echoTool hi guest empty_options = true.
Proof.
  apply (default_tool_is_open clock render riskMsg confirmMsg echoOptions
           echoTool hi guest empty_options start echo_constructed).
  intros c Hc. discriminate Hc.
Defined.

End Constructed.

(** * The console logger

    [createConsoleLogger(options)] of the entry point: lifecycle hooks that
    write to the console. The console is part of the world; a call of
    [console.log] or [console.error] is an effect on it, given by the text
    and the further arguments. *)

(** [d.toFixed(2)]; durations are whole numbers here. *)
Definition toFixed2 (d : Z) : string := pretty d +:+ ".00".

Section ConsoleLogger.

Context {S : Type}.
Variable console_log : string -> list value -> S -> S.
Variable console_error : string -> list value -> S -> S.
Variable risk_message : string -> string -> option string -> string.
Variable confirmation_message : string -> string.

Definition createConsoleLogger (prefix : option string) : @ExoHooks S :=
  let prefix := default "[EXO]" prefix in
  {| hook_onStart :=
       Some (fun payload s =>
               (Returned tt,
                console_log (prefix +:+ " ▶ START " +:+ hs_toolName payload)
                  [hs_args payload] s));
     hook_onSuccess :=
       Some (fun payload s =>
               (Returned tt,
                console_log
                  (prefix +:+ " ✓ SUCCESS " +:+ hk_toolName payload +:+ " ("
                     +:+ toFixed2 (hk_duration payload) +:+ "ms)")
                  [] s));
     hook_onError :=
       Some (fun payload s =>
               (Returned tt,
                console_error
                  (prefix +:+ " ✗ ERROR " +:+ he_toolName payload +:+ " ("
                     +:+ toFixed2 (he_duration payload) +:+ "ms):")
                  [VStr (exn_message risk_message confirmation_message
                           (he_error payload))]
                  s)) |}.

Variable performance_now : S -> Z.
Variable js_String : value -> string.

Local Abbreviation core :=
  (_executeCore performance_now js_String risk_message confirmation_message).


End ConsoleLogger.

(** The echo tool with the console logger; the console is the log of the
    world. *)

Module Logged.

Import Demo.

Definition to_console (text : string) (rest : list value) (s : World)
    : World :=
  (s ++ [text])%list.

Definition loggedTool : @ExoTool World :=
  with_hooks echoTool
    (Some (createConsoleLogger to_console to_console riskMsg confirmMsg None)).

Example logged_echo :
  w_state (snd (run_core loggedTool hi empty_context empty_options start))
  = ["[EXO] ▶ START echo"; "executor"; "[EXO] ✓ SUCCESS echo (2.00ms)"].
Proof. vm_compute. reflexivity. Qed.


End Logged.

(** * More of the store

    What the generators do to the store besides building their result:
    nothing to the objects that are there, and how much of what they hand
    out is shared. *)

Module StoreFacts.

Import Store.

Section Sharing.

Variable t : Tree.ToolSchema.

(** The first lines of both generators, up to the entries that are copied
    by [const { $schema, ...rest } = parameters]. *)
Definition unwrapped_entries (jsonSchema : loc)
    : St (list (string * hval)) :=
  parameters <- unwrap_schema t jsonSchema ;;
  own_entries parameters.

Lemma own_entries_stable (h h1 h' : store) (v : hval)
    (es : list (string * hval)) :
  unchanged_below (length h) h h1 ->
  own_entries v h = Ok (es, h') ->
  h' = h /\ own_entries v h1 = Ok (es, h1).
Proof.
  intros [_ Hold]. destruct v as [| |b|n|s|x];
    unfold own_entries, bind, read, ret;
    try (intros [= <- <-]; split; reflexivity).
  destruct (h !! x) as [o|] eqn:Hx; [|discriminate].
  intros [= <- <-]. rewrite Hold, Hx by (apply lookup_lt_Some in Hx; exact Hx).
  split; reflexivity.
Qed.

Lemma get_prop_stable (h h1 h' : store) (v d : hval) (k : string) :
  unchanged_below (length h) h h1 ->
  get_prop v k h = Ok (d, h') ->
  h' = h /\ get_prop v k h1 = Ok (d, h1).
Proof.
  intros Hun. unfold get_prop.
  destruct v as [| |b|n|s|x]; try discriminate;
    unfold bind at 1;
    match goal with
    | |- context [own_entries ?v h] =>
        destruct (own_entries v h) as [[es h0]| | |] eqn:He; try discriminate;
        destruct (own_entries_stable h h1 h0 v es Hun He) as [-> He1]
    end;
    unfold ret; intros [= <- <-]; split; [reflexivity| | reflexivity| |
      reflexivity| | reflexivity| ];
    unfold bind; rewrite He1; reflexivity.
Qed.

(** What [unwrap_schema] returns is a value that was there, read the same
    way from a larger store, or a new object with the same entries. *)
Lemma unwrap_schema_stable (h h1 h' : store) (l : loc) (v : hval) :
  unchanged_below (length h) h h1 ->
  unwrap_schema t l h = Ok (v, h') ->
  (h' = h /\ unwrap_schema t l h1 = Ok (v, h1))
  \/ exists es0,
       v = HRef (length h)
       /\ h' = (h ++ [{| is_array := false; entries := es0 |}])%list
       /\ unwrap_schema t l h1
          = Ok (HRef (length h1),
                (h1 ++ [{| is_array := false; entries := es0 |}])%list).
Proof.
  intros Hun. pose proof Hun as [_ Hold]. unfold unwrap_schema.
  destruct (h !! l) as [js|] eqn:Hl;
    [|unfold bind, read; rewrite Hl; discriminate].
  assert (Hl1 : h1 !! l = Some js)
    by (rewrite Hold, Hl by (apply lookup_lt_Some in Hl; exact Hl);
        reflexivity).
  rewrite (bind_run _ _ h js h (read_run h l js Hl)).
  rewrite (bind_run _ _ h1 js h1 (read_run h1 l js Hl1)).
  cbv zeta.
  assert (Hnamed :
            (d <- get_prop (hget "definitions" (entries js)) (Tree.ts_name t) ;;
             or_empty_object d) h = Ok (v, h') ->
            (h' = h
             /\ (d <- get_prop (hget "definitions" (entries js))
                        (Tree.ts_name t) ;;
                 or_empty_object d) h1 = Ok (v, h1))
            \/ exists es0,
                 v = HRef (length h)
                 /\ h' = (h ++ [{| is_array := false; entries := es0 |}])%list
                 /\ (d <- get_prop (hget "definitions" (entries js))
                            (Tree.ts_name t) ;;
                     or_empty_object d) h1
                    = Ok (HRef (length h1),
                          (h1 ++ [{| is_array := false;
                                     entries := es0 |}])%list)).
  { unfold bind at 1.
    destruct (get_prop (hget "definitions" (entries js)) (Tree.ts_name t) h)
      as [[d h0]| | |] eqn:Hd; try discriminate.
    destruct (get_prop_stable h h1 h0 _ d _ Hun Hd) as [-> Hd1].
    rewrite (bind_run _ _ h1 d h1 Hd1).
    unfold or_empty_object. destruct (nullish_h d).
    - unfold bind, new_object, ret. intros [= <- <-].
      right. exists []. repeat split.
    - unfold ret. intros [= <- <-]. left. split; reflexivity. }
  assert (Hcopy :
            (copy <- new_object (entries js) ;; ret (HRef copy)) h
            = Ok (v, h') ->
            (h' = h
             /\ (copy <- new_object (entries js) ;; ret (HRef copy)) h1
                = Ok (v, h1))
            \/ exists es0,
                 v = HRef (length h)
                 /\ h' = (h ++ [{| is_array := false; entries := es0 |}])%list
                 /\ (copy <- new_object (entries js) ;; ret (HRef copy)) h1
                    = Ok (HRef (length h1),
                          (h1 ++ [{| is_array := false;
                                     entries := es0 |}])%list)).
  { unfold bind, new_object, ret. intros [= <- <-].
    right. exists (entries js). repeat split. }
  destruct (hget "definitions" (entries js)) as [| |b|n|s|ld];
    try exact Hnamed;
    (destruct (truthy_h (hget "$ref" (entries js)));
     [exact Hnamed|exact Hcopy]).
Qed.

(** The entries do not depend on what else the store holds: from a store
    that has more objects, the same entries are read, references and all,
    and either way the store is only added to. *)
Lemma unwrapped_entries_stable (h h1 h' : store) (l : loc)
    (es : list (string * hval)) :
  unchanged_below (length h) h h1 ->
  unwrapped_entries l h = Ok (es, h') ->
  (exists k, h' = (h ++ k)%list)
  /\ exists k1, unwrapped_entries l h1 = Ok (es, (h1 ++ k1)%list).
Proof.
  intros Hun. unfold unwrapped_entries. unfold bind at 1.
  destruct (unwrap_schema t l h) as [[v h0]| | |] eqn:Hu; try discriminate.
  destruct (unwrap_schema_stable h h1 h0 l v Hun Hu)
    as [[-> Hu1]|(es0 & -> & -> & Hu1)];
    rewrite (bind_run _ _ h1 _ _ Hu1).
  - intros He. destruct (own_entries_stable h h1 h' v es Hun He) as [-> He1].
    split; exists []; rewrite app_nil_r; [reflexivity|exact He1].
  - unfold own_entries, bind, read, ret. rewrite !lookup_snoc.
    intros [= <- <-]. split; eexists; reflexivity.
Qed.

Lemma unchanged_below_app (h k : store) :
  unchanged_below (length h) h (h ++ k)%list.
Proof.
  split; [rewrite length_app; lia|].
  intros x Hx. apply lookup_app_l, Hx.
Qed.

(** [getOpenAISpec()], not strict, once the schema is at [l]. *)
Lemma nonstrict_run (fuel : nat) (l : loc) (h : store) :
  getOpenAISpec t fuel false (Some l) h
  = match unwrapped_entries l h with
    | Ok (es, h') =>
        Ok ({| fn_name := Tree.ts_name t;
               fn_description := Tree.ts_description t;
               parameters := length h';
               strict := None |},
            Some l,
            (h' ++ [{| is_array := false;
                       entries := hremove "$schema" es |}])%list)
    | TypeError => TypeError
    | OutOfFuel => OutOfFuel
    | Dangling => Dangling
    end.
Proof.
  unfold getOpenAISpec, getJsonSchema, unwrapped_entries, bind, ret,
    new_object. cbn [fst snd].
  destruct (unwrap_schema t l h) as [[v h0]| | |]; reflexivity.
Qed.

Lemma getJsonSchema_run (c : option loc) (h h0 : store) (l : loc)
    (c' : option loc) :
  getJsonSchema t c h = Ok (l, c', h0) ->
  c' = Some l /\ exists k, h0 = (h ++ k)%list.
Proof.
  unfold getJsonSchema. destruct c as [l0|].
  - unfold ret. intros [= <- <- <-]. split; [reflexivity|].
    exists []. rewrite app_nil_r. reflexivity.
  - pose proof (alloc_value_spec (VObj (Tree.zodToJsonSchema t)) h)
      as [Hun _].
    destruct (alloc_value (VObj (Tree.zodToJsonSchema t)) h) as [v h'].
    destruct v; try discriminate. intros [= <- <- <-].
    split; [reflexivity|].
    destruct Hun as [Hlen Hold]. simpl in Hlen, Hold.
    exists (drop (length h) h'). rewrite <- (take_drop (length h) h') at 1.
    f_equal. apply list_eq. intros i.
    destruct (decide (i < length h)%nat) as [Hi|Hi].
    + rewrite lookup_take_lt by exact Hi. apply Hold, Hi.
    + rewrite lookup_take_ge by lia. symmetry. apply lookup_ge_None. lia.
Qed.

(** X26: specifications that are not strict share their contents. Two calls
    of [getOpenAISpec()] on a tool return two different [parameters]
    objects that hold the very same values under the same keys: whatever is
    an object or an array in the one is the same object, not a copy, in the
    other, so a change made inside the parameters of one specification is a
    change of the other, and of every later one. *)
Theorem nonstrict_specs_share_contents (fuel1 fuel2 : nat) (h h1 h2 : store)
    (c c1 c2 : option loc) (s1 s2 : OpenAIToolSpec) :
  getOpenAISpec t fuel1 false c h = Ok (s1, c1, h1) ->
  getOpenAISpec t fuel2 false c1 h1 = Ok (s2, c2, h2) ->
  parameters s1 <> parameters s2
  /\ c2 = c1
  /\ exists es,
       h2 !! parameters s1 = Some {| is_array := false; entries := es |}
       /\ h2 !! parameters s2 = Some {| is_array := false; entries := es |}.
Proof.
  intros Hrun1 Hrun2.
  assert (Hfirst : exists l h0,
             getJsonSchema t c h = Ok (l, Some l, h0)
             /\ getOpenAISpec t fuel1 false c h
                = getOpenAISpec t fuel1 false (Some l) h0).
  { unfold getOpenAISpec in Hrun1 |- *. unfold bind at 1 in Hrun1.
    destruct (getJsonSchema t c h) as [[[l c'] h0]| | |] eqn:Hjs;
      try discriminate.
    destruct (getJsonSchema_run c h h0 l c' Hjs) as [-> [k ->]].
    exists l, (h ++ k)%list. split; [reflexivity|].
    rewrite (bind_run _ _ h _ _ Hjs).
    rewrite (bind_run _ _ (h ++ k)%list (l, Some l) (h ++ k)%list);
      reflexivity. }
  destruct Hfirst as (l & h0 & _ & Heq).
  rewrite Heq, nonstrict_run in Hrun1.
  destruct (unwrapped_entries l h0) as [[es h0']| | |] eqn:Hes;
    try discriminate.
  injection Hrun1 as <- <- <-.
  assert (Hun : unchanged_below (length h0) h0
                  (h0' ++ [{| is_array := false;
                              entries := hremove "$schema" es |}])%list).
  { destruct (unwrapped_entries_stable h0 h0 h0' l es
                (unchanged_below_refl _ _) Hes) as [[k ->] _].
    rewrite <- app_assoc. apply unchanged_below_app. }
  destruct (unwrapped_entries_stable h0 _ h0' l es Hun Hes)
    as [_ [k1 Hes1]].
  rewrite nonstrict_run, Hes1 in Hrun2.
  injection Hrun2 as <- <- <-. cbn [parameters].
  split; [|split; [reflexivity|]].
  - rewrite !length_app. simpl. lia.
  - exists (hremove "$schema" es). split.
    + rewrite <- !app_assoc. rewrite lookup_app_r by lia.
      rewrite Nat.sub_diag. reflexivity.
    + apply lookup_snoc.
Qed.

End Sharing.

Section Frame.

Variable t : Tree.ToolSchema.
Variable coerced_h : store -> hval -> bool.
Variable coerced : value -> bool.
Hypothesis coerced_agree :
  forall h v x, repr h v x -> coerced_h h v = coerced x.

(** X27: no generator changes an object that is there. Whenever
    [getOpenAISpec], strict or not, or [getAnthropicSpec] returns, every
    object that was in the store before the call is as it was (what the
    call assigns to, it has created), the cached schema is still the schema
    as generated, and a cache that was filled holds the same object: the
    schema is generated once. *)
Theorem generators_leave_the_store (fuel : nat) (h : store)
    (c : option loc) :
  cache_inv t h c ->
  (Tree.depth (VObj (Tree.zodToJsonSchema t)) <= fuel)%nat ->
  (forall strictly s c' h',
      getOpenAISpec t fuel strictly c h = Ok (s, c', h') ->
      unchanged_below (length h) h h' /\ cache_inv t h' c'
      /\ c' <> None /\ (c <> None -> c' = c))
  /\ (forall a c' h',
        getAnthropicSpec t coerced_h c h = Ok (a, c', h') ->
        unchanged_below (length h) h h' /\ cache_inv t h' c'
        /\ c' <> None /\ (c <> None -> c' = c)).
Proof.
  intros Hc Hfuel. split.
  - intros strictly s c' h' Hrun.
    pose proof (getOpenAISpec_refines t fuel strictly h c Hc Hfuel) as Hs.
    destruct (Tree.getOpenAISpec t strictly) as [ps|]; [|congruence].
    destruct Hs as (s0 & l & h0 & Hrun0 & Hun & Hc0 & Hl & _).
    rewrite Hrun0 in Hrun. injection Hrun as <- <- <-.
    split; [exact Hun|]. split; [exact Hc0|]. split; [discriminate|].
    destruct c as [l0|]; [|congruence].
    intros _. rewrite (Hl l0 eq_refl). reflexivity.
  - intros a c' h' Hrun.
    pose proof (getAnthropicSpec_refines t coerced_h coerced coerced_agree
                  h c Hc) as Hs.
    destruct (Tree.getAnthropicSpec coerced t) as [pa|]; [|congruence].
    destruct Hs as (a0 & l & h0 & Hrun0 & Hun & Hc0 & Hl & _).
    rewrite Hrun0 in Hrun. injection Hrun as <- <- <-.
    split; [exact Hun|]. split; [exact Hc0|]. split; [discriminate|].
    destruct c as [l0|]; [|congruence].
    intros _. rewrite (Hl l0 eq_refl). reflexivity.
Qed.

End Frame.

(** The echo tool: the parameters of two specifications, the second made
    after [description] was set inside the [properties] of the first. *)
Example a_change_inside_is_shared :
  match getOpenAISpec Tree.echo_schema_tool 10 false None [] with
  | Ok (s1, c1, h1) =>
      match (properties <- get_prop (HRef (parameters s1)) "properties" ;;
             match properties with
             | HRef p => set_prop p "description" (HStr "changed")
             | _ => ret tt
             end) h1 with
      | Ok (_, h1') =>
          match getOpenAISpec Tree.echo_schema_tool 10 false c1 h1' with
          | Ok (s2, _, h2) =>
              option_map (fun x => obj_get "properties" (Tree.own_entries x))
                (reify 10 h2 (HRef (parameters s2)))
              = Some (VObj [("value", VObj [("type", VStr "string")]);
                            ("description", VStr "changed")])
          | _ => False
          end
      | _ => False
      end
  | _ => False
  end.
Proof. vm_compute. reflexivity. Qed.

Lemma nonstrict_specs_share_contents_witness :
  match getOpenAISpec Tree.echo_schema_tool 10 false None [] with
  | Ok (s1, c1, h1) =>
      match getOpenAISpec Tree.echo_schema_tool 10 false c1 h1 with
      | Ok (s2, c2, h2) =>
          parameters s1 <> parameters s2
          /\ c2 = c1
          /\ exists es,
               h2 !! parameters s1
               = Some {| is_array := false; entries := es |}
               /\ h2 !! parameters s2
                  = Some {| is_array := false; entries := es |}
      | _ => False
      end
  | _ => False
  end.
Proof.
  exact (nonstrict_specs_share_contents Tree.echo_schema_tool 10 10 [] _ _
           None _ _ _ _ eq_refl eq_refl).
Defined.

Lemma generators_leave_the_store_witness :
  (forall strictly s c' h',
      getOpenAISpec Tree.optional_tool 10 strictly None [] = Ok (s, c', h') ->
      unchanged_below 0 [] h' /\ cache_inv Tree.optional_tool h' c'
      /\ c' <> None /\ (@None loc <> None -> c' = None))
  /\ (forall a c' h',
        getAnthropicSpec Tree.optional_tool (fun _ _ => false) None []
        = Ok (a, c', h') ->
        unchanged_below 0 [] h' /\ cache_inv Tree.optional_tool h' c'
        /\ c' <> None /\ (@None loc <> None -> c' = None)).
Proof.
  refine (generators_leave_the_store Tree.optional_tool (fun _ _ => false)
            (fun _ => false) (fun _ _ _ _ => eq_refl) 10 [] None _ _).
  - intros l Hl. discriminate Hl.
  - simpl. lia.
Defined.

End StoreFacts.
